(** * SMART Health Check-in: the browser handshake, embedded in Rocq

    A shallow embedding of the protocol engine of the SMART Health Check-in
    demo: the TypeScript client library [smart-health-checkin.ts]
    ([parseReturnHash], [rehydrateResponse], [request]) and the envelope codec
    and [request] of the older Zero-Trust Web Rails library [shl.js]
    ([b64u], [ub64], [encJ], [decJ]); then the return side of both
    libraries ([broadcastResponse], [maybeHandleReturn], the message handler
    of [shl.js]), the picker page between them ([parseRequest], the cards
    and the click on one) and what the requester page makes of a response
    ([handleCheckin]).

    Conventions.
    - A JavaScript value is a [jsval]; an object is the finite map of its own
      properties.  Numbers are exact decimals [m * 10^e]; the rounding of
      IEEE doubles is not modelled.
    - A text string is a Rocq [string] holding the text in UTF-8; every
      character the code inspects (['#'], ['&'], ['='], ['/'], base64
      letters, JSON punctuation) is ASCII, so the operations below act on
      the bytes exactly as the source acts on the code units.
    - A function that may throw returns a [completion].
    - The browser is explicit: random bytes, the page address and the popup
      blocker are an [Env]; the exchange awaiting its relay message is an
      [Exchange] stepped by [Event]s. *)

From Stdlib Require Import ZArith NArith Ascii String List Lia DecimalString.
From Stdlib.Strings Require Import Byte.
From stdpp Require Import gmap strings list.

#[local] Set Warnings "-register-all".
#[local] Open Scope string_scope.
#[local] Open Scope list_scope.
#[local] Open Scope Z_scope.

(* ===================================================================== *)
(** ** JavaScript values and completions *)
(* ===================================================================== *)

Inductive jsval : Type :=
| JUndef
| JNull
| JBool (b : bool)
| JNum (m e : Z)                    (* the number m * 10^e *)
| JStr (s : string)
| JArr (l : list jsval)
| JObj (props : gmap string jsval). (* own properties *)

(** What a [throw] carries: the error's name, message and, for the
    library's own [SHLError], the [code] and [state] fields. *)
Record JsError := {
  err_name : string;
  err_message : string;
  err_code : option string;
  err_state : option string
}.

Definition Error (message : string) : JsError :=
  {| err_name := "Error"; err_message := message;
     err_code := None; err_state := None |}.

Definition SyntaxError (message : string) : JsError :=
  {| err_name := "SyntaxError"; err_message := message;
     err_code := None; err_state := None |}.

(** The error of a call with more arguments than the engine takes.  The
    wording is the engine's (here that of V8 and JavaScriptCore); nothing
    below depends on it. *)
Definition RangeError : JsError :=
  {| err_name := "RangeError"; err_message := "Maximum call stack size exceeded";
     err_code := None; err_state := None |}.

Definition InvalidCharacterError : JsError :=
  {| err_name := "InvalidCharacterError";
     err_message := "The string to be decoded is not correctly encoded.";
     err_code := None; err_state := None |}.

Inductive completion (A : Type) : Type :=
| Normal (a : A)
| Throws (e : JsError).
Arguments Normal {A} a.
Arguments Throws {A} e.

Definition str_truthy (s : string) : bool :=
  match s with EmptyString => false | String _ _ => true end.

(** [ToBoolean]. *)
Definition truthy (v : jsval) : bool :=
  match v with
  | JUndef | JNull => false
  | JBool b => b
  | JNum m _ => negb (m =? 0)
  | JStr s => str_truthy s
  | JArr _ | JObj _ => true
  end.

(** A truthy optional string: [p.get(k)] or a message field used as a
    condition. *)
Definition opt_truthy (o : option string) : bool :=
  match o with Some s => str_truthy s | None => false end.

Definition is_undefined (v : jsval) : bool :=
  match v with JUndef => true | _ => false end.

(** [v.k] for a property name [k] that no prototype defines ([data],
    [credentials]): an own property of an object, [undefined] on any other
    value that admits property access. *)
Definition get_prop (v : jsval) (k : string) : jsval :=
  match v with
  | JObj props => default JUndef (props !! k)
  | _ => JUndef
  end.

(** [v?.k]: [undefined] when [v] is [null] or [undefined]. *)
Definition opt_get_prop (v : jsval) (k : string) : jsval :=
  match v with
  | JUndef | JNull => JUndef
  | _ => get_prop v k
  end.

Definition Array_isArray (v : jsval) : bool :=
  match v with JArr _ => true | _ => false end.

(** [arr[i]] for a number [i]: the element when [i] is an index of the
    array, [undefined] otherwise. *)
Definition array_get (arr : list jsval) (i : Z) : jsval :=
  if 0 <=? i then default JUndef (arr !! Z.to_nat i) else JUndef.

(** [obj[k] = v] on an object created by the literal [{}].  Assignment goes
    through the prototype chain: for the key [__proto__] it reaches the
    accessor of [Object.prototype], which replaces the prototype (the value
    assigned here is an array, hence an object) and creates no own
    property.  Every other key becomes an own data property. *)
Definition js_set {V} (obj : gmap string V) (k : string) (v : V) : gmap string V :=
  if decide (k = "__proto__") then obj else <[k := v]> obj.

(** [Object.entries]: the own properties, each once.  The engine's
    enumeration order is not modelled; the loops below assign distinct keys
    and do not depend on it. *)
Definition Object_entries {V} (obj : gmap string V) : list (string * V) :=
  map_to_list obj.

(* ===================================================================== *)
(** ** String helpers *)
(* ===================================================================== *)

(** [s.replace(/c+$/, '')]: drop the trailing run of [c]. *)
Fixpoint strip_trailing (c : ascii) (s : string) : string :=
  match s with
  | EmptyString => EmptyString
  | String a r =>
      match strip_trailing c r with
      | EmptyString => if Ascii.eqb a c then EmptyString else String a EmptyString
      | r' => String a r'
      end
  end.

(** [s.replace(/a/g, 'b')] for single characters. *)
Fixpoint replace_all (a b : ascii) (s : string) : string :=
  match s with
  | EmptyString => EmptyString
  | String c r => String (if Ascii.eqb c a then b else c) (replace_all a b r)
  end.

(** [c.repeat(n)]. *)
Fixpoint repeat_char (c : ascii) (n : nat) : string :=
  match n with
  | O => EmptyString
  | S n => String c (repeat_char c n)
  end.

(** The text before the first [c], or all of it. *)
Fixpoint before_char (c : ascii) (s : string) : string :=
  match s with
  | EmptyString => EmptyString
  | String a r => if Ascii.eqb a c then EmptyString else String a (before_char c r)
  end.

(* ===================================================================== *)
(** ** JSON.parse *)
(* ===================================================================== *)

Module JSON.

Definition code (c : ascii) : N := N_of_ascii c.

(** JSON white space: space, tab, line feed, carriage return. *)
Definition is_ws (c : ascii) : bool :=
  let k := code c in ((k =? 32) || (k =? 9) || (k =? 10) || (k =? 13))%N.

Fixpoint skip_ws (s : list ascii) : list ascii :=
  match s with
  | c :: r => if is_ws c then skip_ws r else s
  | [] => []
  end.

Definition digit_val (c : ascii) : option Z :=
  let k := code c in
  if ((48 <=? k) && (k <=? 57))%N then Some (Z.of_N k - 48) else None.

Definition hex_val (c : ascii) : option N :=
  let k := code c in
  if ((48 <=? k) && (k <=? 57))%N then Some (k - 48)%N
  else if ((65 <=? k) && (k <=? 70))%N then Some (k - 55)%N
  else if ((97 <=? k) && (k <=? 102))%N then Some (k - 87)%N
  else None.

(** The longest prefix of decimal digits: its value, its length, the rest. *)
Fixpoint digits (s : list ascii) (acc : Z) (n : nat) : Z * nat * list ascii :=
  match s with
  | c :: r =>
      match digit_val c with
      | Some d => digits r (10 * acc + d) (S n)
      | None => (acc, n, s)
      end
  | [] => (acc, n, [])
  end.

(** Exact decimals in normal form: the mantissa is not a multiple of ten,
    and zero is [0 * 10^0]. *)
Fixpoint normalize (fuel : nat) (m e : Z) : Z * Z :=
  match fuel with
  | O => (m, e)
  | S fuel =>
      if m =? 0 then (0, 0)
      else if m mod 10 =? 0 then normalize fuel (m / 10) (e + 1)
      else (m, e)
  end.

Definition mk_number (neg : bool) (m e : Z) (ndigits : nat) : jsval :=
  let '(m', e') := normalize (S ndigits) m e in
  JNum (if neg then - m' else m') e'.

(** number ::= -? (0 | [1-9][0-9]* ) (. [0-9]+)? ([eE] [+-]? [0-9]+)? *)
Definition parse_number (s : list ascii) : option (jsval * list ascii) :=
  let '(neg, s1) := match s with
                    | "-"%char :: r => (true, r)
                    | _ => (false, s)
                    end in
  let '(ip, ni, s2) := digits s1 0 0 in
  let leading_zero := match s1 with
                      | "0"%char :: _ => true
                      | _ => false
                      end in
  if (ni =? 0)%nat || (leading_zero && negb (ni =? 1)%nat) then None else
  let frac := match s2 with
              | "."%char :: r =>
                  let '(m, nf, s3) := digits r ip 0 in
                  if (nf =? 0)%nat then None else Some (m, nf, s3)
              | _ => Some (ip, 0%nat, s2)
              end in
  match frac with
  | None => None
  | Some (m, nf, s3) =>
      let finish (ex : Z) (rest : list ascii) :=
        Some (mk_number neg m (ex - Z.of_nat nf) (ni + nf), rest) in
      match s3 with
      | c :: r =>
          if ((code c =? 101) || (code c =? 69))%N then
            let '(eneg, r1) := match r with
                               | "-"%char :: r' => (true, r')
                               | "+"%char :: r' => (false, r')
                               | _ => (false, r)
                               end in
            let '(ev, ne, s4) := digits r1 0 0 in
            if (ne =? 0)%nat then None
            else finish (if eneg then - ev else ev) s4
          else finish 0 s3
      | [] => finish 0 s3
      end
  end.

(** A code point as bytes of (generalised) UTF-8. *)
Definition utf8 (cp : N) : list ascii :=
  map ascii_of_N
    (if cp <? 128 then [cp]
     else if cp <? 2048 then [192 + cp / 64; 128 + cp mod 64]
     else if cp <? 65536 then [224 + cp / 4096; 128 + (cp / 64) mod 64; 128 + cp mod 64]
     else [240 + cp / 262144; 128 + (cp / 4096) mod 64;
           128 + (cp / 64) mod 64; 128 + cp mod 64])%N.

Definition hex4 (a b c d : ascii) : option N :=
  match hex_val a, hex_val b, hex_val c, hex_val d with
  | Some x, Some y, Some z, Some w => Some (((x * 16 + y) * 16 + z) * 16 + w)%N
  | _, _, _, _ => None
  end.

Definition is_high_surrogate (u : N) : bool := ((55296 <=? u) && (u <=? 56319))%N.
Definition is_low_surrogate (u : N) : bool := ((56320 <=? u) && (u <=? 57343))%N.

(** The characters of a string literal after its opening quote, up to and
    including the closing quote.  [acc] holds the decoded text, reversed. *)
Fixpoint parse_chars (s : list ascii) (acc : list ascii) : option (string * list ascii) :=
  match s with
  | [] => None
  | c :: r =>
      if (code c =? 34)%N then Some (string_of_list_ascii (rev acc), r)
      else if (code c =? 92)%N then
        match r with
        | e :: r1 =>
            let simple (x : N) := parse_chars r1 (ascii_of_N x :: acc) in
            match code e with
            | 34%N => simple 34%N
            | 92%N => simple 92%N
            | 47%N => simple 47%N
            | 98%N => simple 8%N
            | 102%N => simple 12%N
            | 110%N => simple 10%N
            | 114%N => simple 13%N
            | 116%N => simple 9%N
            | 117%N =>
                match r1 with
                | h1 :: h2 :: h3 :: h4 :: r2 =>
                    match hex4 h1 h2 h3 h4 with
                    | None => None
                    | Some u =>
                        let single := parse_chars r2 (rev (utf8 u) ++ acc) in
                        if is_high_surrogate u then
                          match r2 with
                          | b :: v :: l1 :: l2 :: l3 :: l4 :: r3 =>
                              if ((code b =? 92) && (code v =? 117))%N then
                                match hex4 l1 l2 l3 l4 with
                                | Some w =>
                                    if is_low_surrogate w then
                                      parse_chars r3
                                        (rev (utf8 (65536 + (u - 55296) * 1024 + (w - 56320))%N) ++ acc)
                                    else single
                                | None => single
                                end
                              else single
                          | _ => single
                          end
                        else single
                    end
                | _ => None
                end
            | _ => None
            end
        | [] => None
        end
      else if (code c <? 32)%N then None
      else parse_chars r (c :: acc)
  end.

Definition expect (lit : list ascii) (v : jsval) (s : list ascii) : option (jsval * list ascii) :=
  if decide (take (length lit) s = lit) then Some (v, drop (length lit) s) else None.

(** The outcome of a parser that recurses on fuel. *)
Inductive presult (A : Type) : Type :=
| POk (a : A) (rest : list ascii)
| PSyntax
| PFuel.
Arguments POk {A} a rest.
Arguments PSyntax {A}.
Arguments PFuel {A}.

Definition of_option {A} (o : option (A * list ascii)) : presult A :=
  match o with Some (a, r) => POk a r | None => PSyntax end.

Fixpoint parse_value (fuel : nat) (s : list ascii) : presult jsval :=
  match fuel with
  | O => PFuel
  | S fuel =>
      match skip_ws s with
      | [] => PSyntax
      | c :: r =>
          match code c with
          | 123%N => (* { *)
              match skip_ws r with
              | "}"%char :: r' => POk (JObj ∅) r'
              | _ => parse_members fuel r ∅
              end
          | 91%N => (* [ *)
              match skip_ws r with
              | "]"%char :: r' => POk (JArr []) r'
              | _ => parse_elements fuel r []
              end
          | 34%N => of_option (option_map (fun '(t, r') => (JStr t, r')) (parse_chars r []))
          | 116%N => of_option (expect (list_ascii_of_string "true") (JBool true) (c :: r))
          | 102%N => of_option (expect (list_ascii_of_string "false") (JBool false) (c :: r))
          | 110%N => of_option (expect (list_ascii_of_string "null") JNull (c :: r))
          | _ => of_option (parse_number (c :: r))
          end
      end
  end
with parse_elements (fuel : nat) (s : list ascii) (acc : list jsval) : presult jsval :=
  match fuel with
  | O => PFuel
  | S fuel =>
      match parse_value fuel s with
      | POk v r =>
          match skip_ws r with
          | ","%char :: r' => parse_elements fuel r' (v :: acc)
          | "]"%char :: r' => POk (JArr (rev (v :: acc))) r'
          | _ => PSyntax
          end
      | PSyntax => PSyntax
      | PFuel => PFuel
      end
  end
with parse_members (fuel : nat) (s : list ascii) (acc : gmap string jsval) : presult jsval :=
  match fuel with
  | O => PFuel
  | S fuel =>
      match skip_ws s with
      | c :: r =>
          if (code c =? 34)%N then
            match parse_chars r [] with
            | Some (k, r1) =>
                match skip_ws r1 with
                | ":"%char :: r2 =>
                    match parse_value fuel r2 with
                    | POk v r3 =>
                        match skip_ws r3 with
                        | ","%char :: r4 => parse_members fuel r4 (<[k := v]> acc)
                        | "}"%char :: r4 => POk (JObj (<[k := v]> acc)) r4
                        | _ => PSyntax
                        end
                    | PSyntax => PSyntax
                    | PFuel => PFuel
                    end
                | _ => PSyntax
                end
            | None => PSyntax
            end
          else PSyntax
      | [] => PSyntax
      end
  end.

(** [JSON.parse(text)]: one value, white space around it, nothing else.
    The fuel is never exhausted (see [parse_value_fuel]). *)
Definition parse (text : string) : completion jsval :=
  let s := list_ascii_of_string text in
  match parse_value (2 * length s + 2) s with
  | POk v r =>
      match skip_ws r with
      | [] => Normal v
      | _ :: _ => Throws (SyntaxError "Unexpected non-whitespace character after JSON")
      end
  | PSyntax => Throws (SyntaxError "Unexpected token in JSON")
  | PFuel => Throws (SyntaxError "Unexpected token in JSON")
  end.

End JSON.

(* ===================================================================== *)
(** ** URLSearchParams *)
(* ===================================================================== *)

(** [new URLSearchParams(init)] on a string and [get]: the parser of
    [application/x-www-form-urlencoded].  The percent-decoded bytes are the
    text; the replacement of ill-formed UTF-8 by U+FFFD and the removal of a
    byte order mark are not modelled. *)
Module URLSearchParams.

Fixpoint split (sep : ascii) (s : list ascii) : list (list ascii) :=
  match s with
  | [] => [[]]
  | c :: r =>
      if Ascii.eqb c sep then [] :: split sep r
      else match split sep r with
           | h :: t => (c :: h) :: t
           | [] => [[c]]
           end
  end.

Fixpoint percent_decode (s : list ascii) : list ascii :=
  match s with
  | [] => []
  | c :: r =>
      if Ascii.eqb c "%" then
        match r with
        | h1 :: h2 :: r2 =>
            match JSON.hex_val h1, JSON.hex_val h2 with
            | Some x, Some y => ascii_of_N (x * 16 + y) :: percent_decode r2
            | _, _ => c :: percent_decode r
            end
        | _ => c :: percent_decode r
        end
      else c :: percent_decode r
  end.

Definition plus_to_space (s : list ascii) : list ascii :=
  map (fun c => if Ascii.eqb c "+" then " "%char else c) s.

(** Name and value of one sequence: split at the first [=]. *)
Fixpoint name_value (s : list ascii) : list ascii * list ascii :=
  match s with
  | [] => ([], [])
  | c :: r =>
      if Ascii.eqb c "=" then ([], r)
      else let '(n, v) := name_value r in (c :: n, v)
  end.

Definition decode_component (s : list ascii) : string :=
  string_of_list_ascii (percent_decode (plus_to_space s)).

Definition parse (init : string) : list (string * string) :=
  let s := match list_ascii_of_string init with
           | "?"%char :: r => r
           | l => l
           end in
  map (fun seq => let '(n, v) := name_value seq in
                  (decode_component n, decode_component v))
      (List.filter (fun seq => negb (Nat.eqb (length seq) 0)) (split "&" s)).

(** [p.get(name)]: the first value of that name, or [null]. *)
Fixpoint get (p : list (string * string)) (name : string) : option string :=
  match p with
  | [] => None
  | (n, v) :: r => if String.eqb n name then Some v else get r name
  end.

End URLSearchParams.

(* ===================================================================== *)
(** ** btoa and atob *)
(* ===================================================================== *)

(** A binary string (the argument of [btoa], the result of [atob]) is a
    string of code units below 256, one [ascii] each. *)
Module Base64.

Definition b64_char (n : N) : ascii :=
  ascii_of_N (if n <? 26 then 65 + n
              else if n <? 52 then 71 + n
              else if n <? 62 then n - 4
              else if n =? 62 then 43 else 47)%N.

Definition b64_index (c : ascii) : option N :=
  let k := N_of_ascii c in
  if ((65 <=? k) && (k <=? 90))%N then Some (k - 65)%N
  else if ((97 <=? k) && (k <=? 122))%N then Some (k - 71)%N
  else if ((48 <=? k) && (k <=? 57))%N then Some (k + 4)%N
  else if (k =? 43)%N then Some 62%N
  else if (k =? 47)%N then Some 63%N
  else None.

(** Three bytes make four sextets; a final group of one or two bytes makes
    two or three, its last sextet filled with zero bits. *)
Fixpoint sextets_of_bytes (bs : list N) : list N :=
  match bs with
  | a :: b :: c :: rest =>
      (a / 4 :: (a mod 4) * 16 + b / 16 :: (b mod 16) * 4 + c / 64 :: c mod 64
         :: sextets_of_bytes rest)%N
  | [a; b] => [a / 4; (a mod 4) * 16 + b / 16; (b mod 16) * 4]%N
  | [a] => [a / 4; (a mod 4) * 16]%N
  | [] => []
  end.

(** Four sextets make three bytes; of a final group of three or two
    sextets the last two or four bits are dropped. *)
Fixpoint bytes_of_sextets (sx : list N) : list N :=
  match sx with
  | s0 :: s1 :: s2 :: s3 :: rest =>
      (s0 * 4 + s1 / 16 :: (s1 mod 16) * 16 + s2 / 4 :: (s2 mod 4) * 64 + s3
         :: bytes_of_sextets rest)%N
  | [s0; s1; s2] => [s0 * 4 + s1 / 16; (s1 mod 16) * 16 + s2 / 4]%N
  | [s0; s1] => [s0 * 4 + s1 / 16]%N
  | _ => []
  end.

(** [btoa(bin)]: base64 with padding. *)
Definition btoa (bin : string) : string :=
  let bs := map N_of_ascii (list_ascii_of_string bin) in
  string_of_list_ascii
    (map b64_char (sextets_of_bytes bs)
       ++ repeat "="%char ((3 - length bs mod 3) mod 3)%nat).

Definition is_ascii_whitespace (c : ascii) : bool :=
  let k := N_of_ascii c in
  ((k =? 9) || (k =? 10) || (k =? 12) || (k =? 13) || (k =? 32))%N.

(** Remove one or two trailing [=]. *)
Definition strip_padding (d : list ascii) : list ascii :=
  match rev d with
  | c1 :: r1 =>
      if Ascii.eqb c1 "=" then
        match r1 with
        | c2 :: r2 => if Ascii.eqb c2 "=" then rev r2 else rev r1
        | [] => rev r1
        end
      else d
  | [] => d
  end.

(** [atob(data)]: the forgiving base64 decoder of the HTML standard. *)
Definition atob (data : string) : completion string :=
  let d := List.filter (fun c => negb (is_ascii_whitespace c)) (list_ascii_of_string data) in
  let d := if (length d mod 4 =? 0)%nat then strip_padding d else d in
  if (length d mod 4 =? 1)%nat then Throws InvalidCharacterError
  else match mapM b64_index d with
       | None => Throws InvalidCharacterError
       | Some sx => Normal (string_of_list_ascii (map ascii_of_N (bytes_of_sextets sx)))
       end.

End Base64.

(* ===================================================================== *)
(** ** The browser *)
(* ===================================================================== *)

(** Built-ins the libraries call and this development leaves abstract, and
    the one limit of the engine that the libraries can reach: the number of
    arguments it takes in one call (65536 in JavaScriptCore, some hundred
    thousand in V8 and SpiderMonkey, depending on the stack).
    [JSON_stringify] is applied to values other than [undefined], for which
    [JSON.stringify] returns text. *)
Class Platform := {
  JSON_stringify : jsval -> string;
  te_encode : string -> list byte;          (* new TextEncoder().encode *)
  td_decode : list byte -> string;          (* new TextDecoder().decode *)
  encodeURIComponent : string -> string;
  URLSearchParams_toString : list (string * string) -> string;
  max_arguments : N                         (* the arguments one call may have *)
}.

(** The delay [setTimeout(f, ms)] arms its timer with, for an integer [ms]:
    the argument is converted to a 32-bit signed integer, which wraps modulo
    2^32, and a negative delay counts as 0.  So a delay of 2^31 ms or more
    is not the delay asked for. *)
Definition setTimeout_delay (ms : Z) : Z :=
  Z.max 0 ((ms + 2 ^ 31) mod 2 ^ 32 - 2 ^ 31).

(** What the page finds around it when [request] runs. *)
Record Env := {
  random_bytes : nat -> byte;   (* the bytes crypto.getRandomValues hands out *)
  location_href : string;
  location_origin : string;
  location_pathname : string;
  popup_allowed : bool          (* does window.open return a window? *)
}.

Definition crypto_getRandomValues (env : Env) (offset n : nat) : list byte :=
  map (random_bytes env) (seq offset n).

Definition hex_digit (n : N) : ascii :=
  ascii_of_N (if n <? 10 then 48 + n else 87 + n)%N.

(** [b.toString(16).padStart(2, '0')]. *)
Definition hex2 (b : byte) : string :=
  let n := Byte.to_N b in
  String (hex_digit (n / 16)%N) (String (hex_digit (n mod 16)%N) EmptyString).

(** [generateRandomState] and [rand]: sixteen random bytes in hexadecimal. *)
Definition generateRandomState (env : Env) (offset : nat) : string :=
  String.concat "" (map hex2 (crypto_getRandomValues env offset 16)).

(** What [request] does to the world, in order. *)
Inductive Effect :=
| FxRandom (n : nat)                       (* crypto.getRandomValues *)
| FxChannelOpen (name : string)            (* new BroadcastChannel(name) *)
| FxSetTimeout (ms : Z)
| FxCallback (state : string)              (* opts.onRequestStart(...) *)
| FxWindowOpen (url : string)
| FxChannelClose (name : string).

(* ===================================================================== *)
(** ** shl.js (Zero-Trust Web Rails): envelope codec and request *)
(* ===================================================================== *)

Module ZTWR.

(** [String.fromCharCode(...new Uint8Array(buf))]: one character a byte,
    and one argument a byte, so the call throws when the buffer has more
    bytes than a call may have arguments. *)
Definition String_fromCharCode `{Platform} (buf : list byte) : completion string :=
  if (N.of_nat (length buf) <=? max_arguments)%N
  then Normal (string_of_list_byte buf)
  else Throws RangeError.

Definition b64u `{Platform} (buf : list byte) : completion string :=
  match String_fromCharCode buf with
  | Throws e => Throws e
  | Normal bin =>
      Normal (strip_trailing "=" (replace_all "/" "_" (replace_all "+" "-" (Base64.btoa bin))))
  end.

Definition ub64 (s : string) : completion (list byte) :=
  let pad := if (String.length s mod 4 =? 0)%nat then ""
             else repeat_char "=" (4 - String.length s mod 4) in
  let b64 := replace_all "_" "/" (replace_all "-" "+" s) +:+ pad in
  match Base64.atob b64 with
  | Throws e => Throws e
  | Normal bin => Normal (list_byte_of_string bin)
  end.

Definition encJ `{Platform} (o : jsval) : completion string :=
  b64u (te_encode (JSON_stringify o)).

Definition decJ `{Platform} (s : string) : completion jsval :=
  match ub64 s with
  | Throws e => Throws e
  | Normal buf => JSON.parse (td_decode buf)
  end.

Record RequestOptions := { gatewayBase : option string }.

(** The promise [done] and what its closure holds. *)
Record Exchange := {
  ex_state : string;
  ex_protocol : jsval;
  ex_timer : option Z;      (* milliseconds until the timer fires *)
  ex_chan_open : bool;
  ex_popup_open : bool
}.

(** [v?.[0]]. *)
Definition opt_first (v : jsval) : jsval :=
  match v with
  | JArr l => default JUndef (l !! 0%nat)
  | JObj props => default JUndef (props !! "0")
  | JStr (String c _) => JStr (String c EmptyString)
  | _ => JUndef
  end.

Definition request `{Platform} (env : Env) (credentialRequest : jsval)
    (opts : option RequestOptions) : list Effect * completion Exchange :=
  let first := opt_first (opt_get_prop (opt_get_prop credentialRequest "digital") "requests") in
  if negb (truthy first) then ([], Throws (Error "digital.requests[0] required")) else
  let gatewayBase :=
    strip_trailing "/"
      (match opts with
       | Some o => match gatewayBase o with
                   | Some g => if str_truthy g then g else ""
                   | None => ""
                   end
       | None => ""
       end) in
  if negb (str_truthy gatewayBase) then ([], Throws (Error "gatewayBase required")) else
  let state := generateRandomState env 0 in
  let returnUrl := location_origin env +:+ location_pathname env in
  let protocol := get_prop first "protocol" in
  let chan := "shl-" +:+ state in
  let timeout := 5 * 60 * 1000 in
  let fx := [FxRandom 16; FxChannelOpen chan; FxSetTimeout timeout] in
  match encJ (JObj (<["v" := JNum 1 0]>
                   (<["state" := JStr state]>
                   (<["returnUrl" := JStr returnUrl]>
                   (<["digital" := get_prop credentialRequest "digital"]> ∅))))) with
  | Throws e => (fx, Throws e)
  | Normal reqEnvelope =>
      let url := gatewayBase +:+ "/#req=" +:+ encodeURIComponent reqEnvelope in
      let fx := fx ++ [FxWindowOpen url] in
      if negb (popup_allowed env)
      then ((fx ++ [FxChannelClose chan]),
            Throws (Error "Popup blocked - please allow popups for this site"))
      else (fx, Normal {| ex_state := state; ex_protocol := protocol;
                          ex_timer := Some (setTimeout_delay timeout); ex_chan_open := true;
                          ex_popup_open := true |})
  end.

End ZTWR.

(* ===================================================================== *)
(** ** smart-health-checkin.ts: data model *)
(* ===================================================================== *)

Module Checkin.

(** [Presentation]: the index of an artifact.  The index is an integer; any
    other number indexes nothing, as an integer out of range does. *)
Record Presentation := { artifact : Z }.

(** [VPToken]: credential id to presentations. *)
Abbreviation VPToken := (gmap string (list Presentation)).

(** An [Artifact] is held as the value it is at run time, an object
    [{type, data}] in a well-typed response. *)
Inductive ArtifactType := fhir_resource | shc | shl.

Definition ArtifactType_tag (t : ArtifactType) : string :=
  match t with
  | fhir_resource => "fhir_resource"
  | shc => "shc"
  | shl => "shl"
  end.

Definition Artifact (type : ArtifactType) (data : jsval) : jsval :=
  JObj (<["type" := JStr (ArtifactType_tag type)]> (<["data" := data]> ∅)).

Record RawResponse := {
  state : string;
  vp_token : VPToken;
  smart_artifacts : list jsval
}.

(** [RehydratedResponse extends RawResponse]. *)
Record RehydratedResponse := {
  rr_state : string;
  rr_vp_token : VPToken;
  rr_smart_artifacts : list jsval;
  credentials : gmap string (list jsval)
}.

(** The callback of [presentations.map] in [rehydrateResponse]. *)
Definition resolve_presentation (response : RawResponse) (presentation : Presentation) : jsval :=
  let artifact := array_get (smart_artifacts response) (artifact presentation) in
  if negb (is_undefined (opt_get_prop artifact "data"))
  then get_prop artifact "data"
  else artifact.

Definition rehydrateResponse (response : RawResponse) : RehydratedResponse :=
  let credentials :=
    foldl (fun credentials '(id, presentations) =>
             js_set credentials id (map (resolve_presentation response) presentations))
          ∅ (Object_entries (vp_token response)) in
  {| rr_state := state response;
     rr_vp_token := vp_token response;
     rr_smart_artifacts := smart_artifacts response;
     credentials := credentials |}.

(** *** parseReturnHash *)

(** [ParsedReturn]; the two JSON values are whatever [JSON.parse] yields. *)
Inductive ParsedReturn :=
| ParsedReturnSuccess (state : string) (vp_token smart_artifacts : jsval)
| ParsedReturnError (state error : string) (error_description : option string)
| ParsedNull.

Definition parseReturnHash (hash : string) : completion ParsedReturn :=
  if negb (str_truthy hash) || String.eqb hash "#" then Normal ParsedNull else
  let h := match hash with
           | String "#" r => r
           | _ => hash
           end in
  let p := URLSearchParams.parse h in
  match URLSearchParams.get p "state" with
  | None => Normal ParsedNull
  | Some state =>
      if negb (str_truthy state) then Normal ParsedNull else
      let error := URLSearchParams.get p "error" in
      match error with
      | Some (String _ _ as error) =>
          let description := URLSearchParams.get p "error_description" in
          Normal (ParsedReturnError state error
                    (if opt_truthy description then description else None))
      | _ =>
          let vpToken := URLSearchParams.get p "vp_token" in
          let smartArtifacts := URLSearchParams.get p "smart_artifacts" in
          match vpToken, smartArtifacts with
          | Some (String _ _ as vpToken), Some (String _ _ as smartArtifacts) =>
              match JSON.parse vpToken with
              | Throws e => Throws e
              | Normal vp =>
                  match JSON.parse smartArtifacts with
                  | Throws e => Throws e
                  | Normal sa => Normal (ParsedReturnSuccess state vp sa)
                  end
              end
          | _, _ => Normal ParsedNull
          end
      end
  end.

(** *** request *)

Record OID4VPRequestParams := {
  client_id : string;
  response_type : string;
  response_mode : string;
  params_state : string;
  nonce : string;
  dcql_query : jsval
}.

(** [timeout] is a number of milliseconds, an integer here. *)
Record RequestOptions := {
  checkinBase : string;
  onRequestStart : option (OID4VPRequestParams -> completion unit);
  rehydrate : option bool;
  timeout : option Z
}.

(** The data of a message event on the relay channel, with the fields the
    handler reads at their declared types; a field that is absent is
    [None]. *)
Record RelayMessage := {
  msg_state : option string;
  msg_error : option string;
  msg_error_description : option string;
  msg_vp_token : option VPToken;
  msg_smart_artifacts : option (list jsval)
}.

Inductive Response :=
| Raw (r : RawResponse)
| Rehydrated (r : RehydratedResponse).

Inductive Outcome :=
| Resolved (v : Response)
| Rejected (e : JsError).

(** The promise [done] and what its closure holds. *)
Record Exchange := {
  ex_state : string;             (* the state awaited *)
  ex_rehydrate : bool;           (* shouldRehydrate *)
  ex_timer : option Z;           (* milliseconds until the timer fires; None once cleared *)
  ex_chan_open : bool;           (* the relay subscription *)
  ex_popup_open : bool;          (* popup && !popup.closed *)
  ex_outcome : option Outcome    (* None while the promise is pending *)
}.

(** [clearTimeout(timeoutId); chan.close(); popup.close()]. *)
Definition cleanup (ex : Exchange) : Exchange :=
  {| ex_state := ex_state ex; ex_rehydrate := ex_rehydrate ex;
     ex_timer := None; ex_chan_open := false; ex_popup_open := false;
     ex_outcome := ex_outcome ex |}.

(** [resolve] and [reject] settle a pending promise and do nothing to a
    settled one. *)
Definition settle (ex : Exchange) (o : Outcome) : Exchange :=
  match ex_outcome ex with
  | Some _ => ex
  | None =>
      {| ex_state := ex_state ex; ex_rehydrate := ex_rehydrate ex;
         ex_timer := ex_timer ex; ex_chan_open := ex_chan_open ex;
         ex_popup_open := ex_popup_open ex; ex_outcome := Some o |}
  end.

(** The error built from an error message: [new Error(msg.error_description
    || msg.error)] with [code] and [state]. *)
Definition SHLError (state error : string) (description : option string) : JsError :=
  {| err_name := "Error";
     err_message := if opt_truthy description then default error description else error;
     err_code := Some error;
     err_state := Some state |}.

(** [chan.onmessage], on a message whose fields have their declared types.
    This is the handler as TypeScript sees it; [ev.data] is any value at
    run time, and the handler on any value is [Untyped.onmessage] below,
    where [rehydrateResponse] can throw between [cleanup()] and [resolve]. *)
Definition onmessage (ex : Exchange) (data : option RelayMessage) : Exchange :=
  match data with
  | None => ex
  | Some msg =>
      match msg_state msg with
      | None => ex
      | Some state =>
          if negb (String.eqb state (ex_state ex)) then ex
          else
            match msg_error msg with
            | Some (String _ _ as error) =>
                settle (cleanup ex)
                       (Rejected (SHLError state error (msg_error_description msg)))
            | _ =>
                match msg_vp_token msg, msg_smart_artifacts msg with
                | Some vp, Some sa =>
                    let response := {| state := state; vp_token := vp;
                                       smart_artifacts := sa |} in
                    settle (cleanup ex)
                           (Resolved (if ex_rehydrate ex
                                      then Rehydrated (rehydrateResponse response)
                                      else Raw response))
                | _, _ => ex
                end
            end
      end
  end.

(** The timer's callback. *)
Definition ontimeout (ex : Exchange) : Exchange :=
  settle (cleanup ex) (Rejected (Error "Request timeout")).

(** What can happen to a pending exchange.  The data of a message is [None]
    when it is falsy ([null], [undefined], [false], [0], the empty string). *)
Inductive Event :=
| Deliver (data : option RelayMessage)  (* a message posted on the channel *)
| Elapse (dt : N)                       (* dt milliseconds pass *)
| PopupClosedByUser.

(** A closed channel dispatches no message.  A timer fires, once, when the
    time that has passed reaches the delay it was armed with (see
    [setTimeout_delay]; a delay of 0 is reached with the first passing of
    time). *)
Definition step (ex : Exchange) (ev : Event) : Exchange :=
  match ev with
  | Deliver data => if ex_chan_open ex then onmessage ex data else ex
  | Elapse dt =>
      match ex_timer ex with
      | None => ex
      | Some remaining =>
          if remaining <=? Z.of_N dt then ontimeout ex
          else {| ex_state := ex_state ex; ex_rehydrate := ex_rehydrate ex;
                  ex_timer := Some (remaining - Z.of_N dt);
                  ex_chan_open := ex_chan_open ex;
                  ex_popup_open := ex_popup_open ex;
                  ex_outcome := ex_outcome ex |}
      end
  | PopupClosedByUser =>
      {| ex_state := ex_state ex; ex_rehydrate := ex_rehydrate ex;
         ex_timer := ex_timer ex; ex_chan_open := ex_chan_open ex;
         ex_popup_open := false; ex_outcome := ex_outcome ex |}
  end.

Definition run (ex : Exchange) (evs : list Event) : Exchange := foldl step ex evs.

(** [new URL(location.href)] with [hash = ''], as a string. *)
Definition redirect_uri (env : Env) : string := before_char "#" (location_href env).

Definition request `{Platform} (env : Env) (dcqlQuery : jsval) (opts : RequestOptions)
    : list Effect * completion Exchange :=
  let checkinBase := strip_trailing "/" (checkinBase opts) in
  if negb (str_truthy checkinBase) then ([], Throws (Error "checkinBase required")) else
  if negb (truthy dcqlQuery) || negb (Array_isArray (get_prop dcqlQuery "credentials"))
  then ([], Throws (Error "dcqlQuery must be an object with a credentials array")) else
  let state := generateRandomState env 0 in
  let nonce := generateRandomState env 16 in
  let shouldRehydrate := match rehydrate opts with
                         | Some false => false
                         | _ => true
                         end in
  let timeout := default (2 * 60 * 1000) (timeout opts) in
  let chan := "shl-" +:+ state in
  let redirectUri := redirect_uri env in
  let clientId := "redirect_uri:" +:+ redirectUri in
  let params :=
    URLSearchParams_toString
      [("client_id", clientId); ("response_type", "vp_token");
       ("response_mode", "fragment"); ("nonce", nonce); ("state", state);
       ("dcql_query", JSON_stringify dcqlQuery)] in
  let fx := [FxRandom 16; FxRandom 16; FxChannelOpen chan; FxSetTimeout timeout] in
  let started :=
    match onRequestStart opts with
    | None => (fx, Normal tt)
    | Some callback =>
        ((fx ++ [FxCallback state]),
         callback {| client_id := clientId; response_type := "vp_token";
                     response_mode := "fragment"; params_state := state;
                     nonce := nonce; dcql_query := dcqlQuery |})
    end in
  match started with
  | (fx, Throws e) => (fx, Throws e)
  | (fx, Normal _) =>
      let url := checkinBase +:+ "/?" +:+ params in
      let fx := (fx ++ [FxWindowOpen url]) in
      if negb (popup_allowed env)
      then ((fx ++ [FxChannelClose chan]),
            Throws (Error "Popup blocked - please allow popups for this site"))
      else (fx, Normal {| ex_state := state; ex_rehydrate := shouldRehydrate;
                          ex_timer := Some (setTimeout_delay timeout);
                          ex_chan_open := true;
                          ex_popup_open := true; ex_outcome := None |})
  end.

End Checkin.

(* ===================================================================== *)
(** ** A browser to run the model in *)
(* ===================================================================== *)

(** An executable instance of [Platform] and an [Env], for running the
    libraries on concrete inputs.  [stringify] prints compact JSON; the
    text codec is the identity on UTF-8 text. *)
Module Demo.

Definition print_int (z : Z) : string := NilZero.string_of_int (Z.to_int z).

Definition dquote : ascii := ascii_of_N 34.

Definition hex_upper (n : N) : ascii :=
  ascii_of_N (if n <? 10 then 48 + n else 55 + n)%N.

Definition escape_char (c : ascii) : string :=
  let k := N_of_ascii c in
  match k with
  | 34%N => String "\" (String dquote EmptyString)
  | 92%N => "\\"
  | 8%N => "\b"
  | 9%N => "\t"
  | 10%N => "\n"
  | 12%N => "\f"
  | 13%N => "\r"
  | _ => if (k <? 32)%N
         then "\u00" +:+ String (hex_digit (k / 16)%N) (String (hex_digit (k mod 16)%N) "")
         else String c ""
  end.

Fixpoint quote_body (s : string) : string :=
  match s with
  | EmptyString => ""
  | String c r => escape_char c +:+ quote_body r
  end.

Definition quote (s : string) : string :=
  String dquote (quote_body s +:+ String dquote EmptyString).

Definition print_number (m e : Z) : string :=
  if 0 <=? e then print_int (m * 10 ^ e)
  else print_int m +:+ "e" +:+ print_int e.

(** [JSON.stringify(v)], [None] where it returns [undefined]. *)
Fixpoint stringify (v : jsval) : option string :=
  match v with
  | JUndef => None
  | JNull => Some "null"
  | JBool b => Some (if b then "true" else "false")
  | JNum m e => Some (print_number m e)
  | JStr s => Some (quote s)
  | JArr l =>
      Some ("[" +:+ String.concat "," (map (fun x => default "null" (stringify x)) l) +:+ "]")
  | JObj props =>
      Some ("{" +:+ String.concat ","
                     (omap (fun '(k, o) => (fun t => quote k +:+ ":" +:+ t) <$> o)
                           (map_to_list (stringify <$> props))) +:+ "}")
  end.

Definition is_alnum (c : ascii) : bool :=
  let k := N_of_ascii c in
  (((48 <=? k) && (k <=? 57)) || ((65 <=? k) && (k <=? 90))
   || ((97 <=? k) && (k <=? 122)))%N.

Definition percent (c : ascii) : string :=
  let k := N_of_ascii c in
  String "%" (String (hex_upper (k / 16)%N) (String (hex_upper (k mod 16)%N) "")).

Definition one_of (set : string) (c : ascii) : bool :=
  existsb (Ascii.eqb c) (list_ascii_of_string set).

Fixpoint encode_with (keep : ascii -> bool) (plus : bool) (s : string) : string :=
  match s with
  | EmptyString => ""
  | String c r =>
      (if keep c then String c ""
       else if plus && Ascii.eqb c " " then "+"
       else percent c) +:+ encode_with keep plus r
  end.

Definition uri_component (s : string) : string :=
  encode_with (fun c => is_alnum c || one_of "-_.!~*'()" c) false s.

Definition form_urlencoded (l : list (string * string)) : string :=
  let enc := encode_with (fun c => is_alnum c || one_of "*-._" c) true in
  String.concat "&" (map (fun '(k, v) => enc k +:+ "=" +:+ enc v) l).

#[global] Instance platform : Platform := {|
  JSON_stringify := fun v => default "" (stringify v);
  te_encode := list_byte_of_string;
  td_decode := string_of_list_byte;
  encodeURIComponent := uri_component;
  URLSearchParams_toString := form_urlencoded;
  max_arguments := 65536
|}.

Definition env (popup : bool) : Env := {|
  random_bytes := fun n => byte_of_ascii (ascii_of_nat (37 * n + 11));
  location_href := "https://clinic.example.org/portal/#top";
  location_origin := "https://clinic.example.org";
  location_pathname := "/portal/";
  popup_allowed := popup
|}.

Definition obj (l : list (string * jsval)) : jsval := JObj (list_to_map l).

(** The query of the README: one coverage credential. *)
Definition query : jsval :=
  obj [("credentials",
        JArr [obj [("id", JStr "coverage-1"); ("format", JStr "smart_artifact");
                   ("meta", obj [("profile", JStr "http://hl7.org/fhir/us/insurance-card/StructureDefinition/C4DIC-Coverage")])]])].

Definition empty_query : jsval := obj [("credentials", JArr [])].

Definition duplicate_query : jsval :=
  obj [("credentials",
        JArr [obj [("id", JStr "a"); ("format", JStr "smart_artifact"); ("meta", obj [])];
              obj [("id", JStr "a"); ("format", JStr "smart_artifact"); ("meta", obj [])]])].

Definition opts : Checkin.RequestOptions := {|
  Checkin.checkinBase := "https://picker.example.org/";
  Checkin.onRequestStart := None;
  Checkin.rehydrate := None;
  Checkin.timeout := None
|}.

Definition credentialRequest : jsval :=
  obj [("digital",
        obj [("requests",
              JArr [obj [("protocol", JStr "smart-health-card");
                         ("data", obj [])]])])].

(** An exchange as [request] leaves it, and three relay messages for it:
    a success, a second success that differs, and one for another state. *)
Definition pending : Checkin.Exchange := {|
  Checkin.ex_state := "0b30557a9fc4e90e33587da2c7ec1136";
  Checkin.ex_rehydrate := true;
  Checkin.ex_timer := Some 120000;
  Checkin.ex_chan_open := true;
  Checkin.ex_popup_open := true;
  Checkin.ex_outcome := None
|}.

Definition success (data : jsval) : Checkin.RelayMessage := {|
  Checkin.msg_state := Some "0b30557a9fc4e90e33587da2c7ec1136";
  Checkin.msg_error := None;
  Checkin.msg_error_description := None;
  Checkin.msg_vp_token := Some (<["coverage-1" := [ {| Checkin.artifact := 0 |} ]]> ∅);
  Checkin.msg_smart_artifacts := Some [Checkin.Artifact Checkin.fhir_resource data]
|}.

Definition stray : Checkin.RelayMessage := {|
  Checkin.msg_state := Some "ffffffffffffffffffffffffffffffff";
  Checkin.msg_error := Some "access_denied";
  Checkin.msg_error_description := None;
  Checkin.msg_vp_token := None;
  Checkin.msg_smart_artifacts := None
|}.

Definition gateway_opts : option ZTWR.RequestOptions :=
  Some {| ZTWR.gatewayBase := Some "https://gateway.example.org/" |}.

End Demo.

(* ===================================================================== *)
(** ** Notions the statements use *)
(* ===================================================================== *)

Import Checkin.

(** The artifact a presentation refers to, when its index is one of the
    array. *)
Definition referenced_artifact (r : RawResponse) (p : Presentation) : option jsval :=
  if 0 <=? artifact p then smart_artifacts r !! Z.to_nat (artifact p) else None.

(** The entry a presentation yields: the referenced artifact's data, the
    artifact itself when it has no data, [undefined] when there is no such
    artifact. *)
Definition rehydrated_entry (r : RawResponse) (p : Presentation) : jsval :=
  match referenced_artifact r p with
  | Some a => if is_undefined (opt_get_prop a "data") then a else opt_get_prop a "data"
  | None => JUndef
  end.

(** A message carries the awaited state. *)
Definition state_matches (expected : string) (data : option RelayMessage) : bool :=
  match data with
  | Some msg =>
      match msg_state msg with
      | Some s => String.eqb s expected
      | None => false
      end
  | None => false
  end.

(** Well-formed content: an error result, or a success result carrying both
    vp_token and smart_artifacts. *)
Definition well_formed (msg : RelayMessage) : bool :=
  opt_truthy (msg_error msg)
  || (bool_decide (is_Some (msg_vp_token msg))
      && bool_decide (is_Some (msg_smart_artifacts msg))).

(** The first kind of message that settles an exchange awaiting [expected]. *)
Definition effective (expected : string) (data : option RelayMessage) : bool :=
  match data with
  | Some msg => state_matches expected data && well_formed msg
  | None => false
  end.

(** The outcome a message stands for: the error it reports, or the response
    it carries, rehydrated when the exchange asks for that. *)
Definition derived_outcome (expected : string) (rehydrates : bool) (msg : RelayMessage)
    : Outcome :=
  if opt_truthy (msg_error msg)
  then Rejected (SHLError expected (default "" (msg_error msg)) (msg_error_description msg))
  else
    let response := {| state := expected;
                       vp_token := default ∅ (msg_vp_token msg);
                       smart_artifacts := default [] (msg_smart_artifacts msg) |} in
    Resolved (if rehydrates then Rehydrated (rehydrateResponse response) else Raw response).

(** Milliseconds that pass during a run of events, and whether any time
    passes at all (a timer fires when the event loop next turns). *)
Definition elapsed (evs : list Event) : Z :=
  foldr (fun ev t => match ev with Elapse dt => Z.of_N dt + t | _ => t end) 0 evs.

Definition ticked (evs : list Event) : bool :=
  existsb (fun ev => match ev with Elapse _ => true | _ => false end) evs.

(** No message among the events carries the awaited state. *)
Definition no_matching_message (expected : string) (evs : list Event) : Prop :=
  Forall (fun ev => match ev with
                    | Deliver data => state_matches expected data = false
                    | _ => True
                    end) evs.

Import Base64.

(** The two character replacements of [b64u], and those of [ub64]. *)
Definition to_urlsafe (c : ascii) : ascii :=
  let c := if Ascii.eqb c "+" then "-"%char else c in
  if Ascii.eqb c "/" then "_"%char else c.

Definition from_urlsafe (c : ascii) : ascii :=
  let c := if Ascii.eqb c "-" then "+"%char else c in
  if Ascii.eqb c "_" then "/"%char else c.

(** What the round trip needs of the character of a sextet. *)
Definition alphabet_check (n : N) : bool :=
  let c := b64_char n in
  bool_decide (b64_index c = Some n)
  && negb (is_ascii_whitespace c)
  && negb (Ascii.eqb c "=")
  && negb (Ascii.eqb (to_urlsafe c) "=")
  && Ascii.eqb (from_urlsafe (to_urlsafe c)) c.

(** The bytes of a binary string, and the number of [=] that [btoa] appends. *)
Definition codes (bin : string) : list N := map N_of_ascii (list_ascii_of_string bin).

Definition padding (bin : string) : nat := ((3 - length (codes bin) mod 3) mod 3)%nat.

(** The parameters of a fragment, as [parseReturnHash] reads them. *)
Definition fragment_params (hash : string) : list (string * string) :=
  URLSearchParams.parse (match hash with
                         | String "#" r => r
                         | _ => hash
                         end).

(** The ids of the credential items of a query. *)
Definition credential_ids (query : jsval) : list jsval :=
  match get_prop query "credentials" with
  | JArr items => map (fun item => get_prop item "id") items
  | _ => []
  end.

(** A query as the data model wants it: not empty, item ids unique. *)
Definition query_valid (query : jsval) : Prop :=
  credential_ids query ≠ [] ∧ NoDup (credential_ids query).

(** The query [request] lets through: a truthy value with a credentials
    array. *)
Definition query_accepted (query : jsval) : bool :=
  truthy query && Array_isArray (get_prop query "credentials").

(** An exchange that has been cleaned up and settled. *)
Definition finished (ex : Exchange) : Prop :=
  is_Some (ex_outcome ex) ∧ ex_timer ex = None
  ∧ ex_chan_open ex = false ∧ ex_popup_open ex = false.

(* ===================================================================== *)
(** ** The return context and the callers *)
(* ===================================================================== *)

(** The error of a property read on [null] or [undefined].  The message is
    the engine's; nothing below depends on it. *)
Definition TypeError (message : string) : JsError :=
  {| err_name := "TypeError"; err_message := message;
     err_code := None; err_state := None |}.

(** *** smart-health-checkin.ts: broadcastResponse, renderReturnUI,
    maybeHandleReturn *)
Module Return.

Record HandleReturnOptions := { renderUI : option bool }.

(** What the return context does to the world, in order. *)
Inductive Effect :=
| Post (channel : string) (message : gmap string jsval)
    (* bc = new BroadcastChannel(channel); bc.postMessage(message); bc.close() *)
| Render (success : bool) (message : string)
    (* the heading and the paragraph renderReturnUI puts in the body *)
| WindowClose.

(** The message is [{ state, ...data }]: the own properties of [data], and
    [state] unless [data] has a property of that name. *)
Definition broadcastResponse (state : string) (data : gmap string jsval) : Effect :=
  Post ("shl-" +:+ state) (data ∪ {["state" := JStr state]}).

Definition renderReturnUI (success : bool) (message : string) : Effect :=
  Render success message.

(** An optional string as the value it is at run time. *)
Definition opt_value (o : option string) : jsval :=
  match o with
  | Some s => JStr s
  | None => JUndef
  end.

(** [maybeHandleReturn(opts)] in a context whose [location.hash] is [hash]:
    the effects and the boolean returned, or the exception that escapes. *)
Definition maybeHandleReturn (hash : string) (opts : HandleReturnOptions)
    : completion (list Effect * bool) :=
  let renderUI := match renderUI opts with
                  | Some false => false
                  | _ => true
                  end in
  match parseReturnHash hash with
  | Throws e => Throws e
  | Normal ParsedNull => Normal ([], false)
  | Normal (ParsedReturnError state error error_description) =>
      Normal (broadcastResponse state
                (<["error" := JStr error]>
                   (<["error_description" := opt_value error_description]> ∅))
              :: (if renderUI
                  then [renderReturnUI false
                          (if opt_truthy error_description
                           then default error error_description else error);
                        WindowClose]
                  else []),
              true)
  | Normal (ParsedReturnSuccess state vp_token smart_artifacts) =>
      Normal (broadcastResponse state
                (<["vp_token" := vp_token]>
                   (<["smart_artifacts" := smart_artifacts]> ∅))
              :: (if renderUI
                  then [renderReturnUI true "You can close this window."; WindowClose]
                  else []),
              true)
  end.

End Return.

(** *** shl.js: the message handler, the timer and maybeHandleReturn *)
Module ZTWRFlow.

(** The data of a message event, with the two fields the handler reads:
    strings when present. *)
Record Message := {
  zm_state : option string;
  zm_res : option string
}.

(** What the promise resolves with: [{type, protocol, data}]; [data] is
    [undefined] when the envelope has no payload. *)
Record Credential := {
  cred_type : string;
  cred_protocol : jsval;
  cred_data : option string
}.

Inductive Outcome :=
| Resolved (c : Credential)
| Rejected (e : JsError).

(** The promise [done]: the closure [ZTWR.request] leaves, and how the
    promise has been settled. *)
Record Pending := {
  exchange : ZTWR.Exchange;
  outcome : option Outcome
}.

(** [clearTimeout(to); chan.close(); pop.close()]. *)
Definition cleanup (p : Pending) : Pending :=
  {| exchange := {| ZTWR.ex_state := ZTWR.ex_state (exchange p);
                    ZTWR.ex_protocol := ZTWR.ex_protocol (exchange p);
                    ZTWR.ex_timer := None;
                    ZTWR.ex_chan_open := false;
                    ZTWR.ex_popup_open := false |};
     outcome := outcome p |}.

Definition settle (p : Pending) (o : Outcome) : Pending :=
  match outcome p with
  | Some _ => p
  | None => {| exchange := exchange p; outcome := Some o |}
  end.

(** [v === s] for a string [s]. *)
Definition is_string (v : jsval) (s : string) : bool :=
  match v with
  | JStr t => String.eqb t s
  | _ => false
  end.

(** [chan.onmessage].  [JSON.stringify] of a payload that is not
    [undefined] is text. *)
Definition onmessage `{Platform} (p : Pending) (data : option Message) : Pending :=
  match data with
  | None => p
  | Some msg =>
      let state := ZTWR.ex_state (exchange p) in
      if negb (bool_decide (zm_state msg = Some state)) || negb (opt_truthy (zm_res msg))
      then p
      else
        match ZTWR.decJ (default "" (zm_res msg)) with
        | Throws e => settle (cleanup p) (Rejected e)
        | Normal JUndef =>
            settle (cleanup p)
              (Rejected (TypeError "Cannot read properties of undefined (reading 'state')"))
        | Normal JNull =>
            settle (cleanup p)
              (Rejected (TypeError "Cannot read properties of null (reading 'state')"))
        | Normal ret =>
            if negb (is_string (get_prop ret "state") state) then p
            else
              let payload := get_prop ret "payload" in
              let plaintext := if is_undefined payload then None
                               else Some (JSON_stringify payload) in
              settle (cleanup p)
                (Resolved {| cred_type := "digital_credential";
                             cred_protocol := ZTWR.ex_protocol (exchange p);
                             cred_data := plaintext |})
        end
  end.

(** The timer's callback. *)
Definition ontimeout (p : Pending) : Pending :=
  settle (cleanup p) (Rejected (Error "Request timeout after 5 minutes")).

Inductive Event :=
| Deliver (data : option Message)
| Elapse (dt : N)
| PopupClosedByUser.

Definition step `{Platform} (p : Pending) (ev : Event) : Pending :=
  match ev with
  | Deliver data => if ZTWR.ex_chan_open (exchange p) then onmessage p data else p
  | Elapse dt =>
      match ZTWR.ex_timer (exchange p) with
      | None => p
      | Some remaining =>
          if remaining <=? Z.of_N dt then ontimeout p
          else {| exchange := {| ZTWR.ex_state := ZTWR.ex_state (exchange p);
                                 ZTWR.ex_protocol := ZTWR.ex_protocol (exchange p);
                                 ZTWR.ex_timer := Some (remaining - Z.of_N dt);
                                 ZTWR.ex_chan_open := ZTWR.ex_chan_open (exchange p);
                                 ZTWR.ex_popup_open := ZTWR.ex_popup_open (exchange p) |};
                  outcome := outcome p |}
      end
  | PopupClosedByUser =>
      {| exchange := {| ZTWR.ex_state := ZTWR.ex_state (exchange p);
                        ZTWR.ex_protocol := ZTWR.ex_protocol (exchange p);
                        ZTWR.ex_timer := ZTWR.ex_timer (exchange p);
                        ZTWR.ex_chan_open := ZTWR.ex_chan_open (exchange p);
                        ZTWR.ex_popup_open := false |};
         outcome := outcome p |}
  end.

Definition run `{Platform} (p : Pending) (evs : list Event) : Pending := foldl step p evs.

(** The promise as [request] returns it. *)
Definition pending (ex : ZTWR.Exchange) : Pending := {| exchange := ex; outcome := None |}.

(** [s.slice(1)]. *)
Definition slice1 (s : string) : string :=
  match s with
  | String _ r => r
  | EmptyString => EmptyString
  end.

(** What the return context does, in order. *)
Inductive Effect :=
| Post (state : jsval) (res : string)
    (* bc = new BroadcastChannel('shl-' + state); bc.postMessage({state, res}); bc.close() *)
| Render                                 (* document.body.innerHTML = ... *)
| WindowClose.

(** [maybeHandleReturn()] in a context whose [location.hash] is [hash]; the
    [catch] turns every exception into [false]. *)
Definition maybeHandleReturn `{Platform} (hash : string) : list Effect * bool :=
  let h := slice1 hash in
  if negb (str_truthy h) then ([], false) else
  match URLSearchParams.get (URLSearchParams.parse h) "res" with
  | Some (String _ _ as res) =>
      match ZTWR.decJ res with
      | Throws _ => ([], false)
      | Normal ret =>
          let state := opt_get_prop ret "state" in
          if negb (truthy state) then ([], false)
          else ([Post state res; Render; WindowClose], true)
      end
  | _ => ([], false)
  end.

(** The message a [Post] puts on the channel, as the handler reads it: a
    state that is not a string is no string the handler awaits. *)
Definition posted (state : jsval) (res : string) : Message :=
  {| zm_state := match state with
                 | JStr s => Some s
                 | _ => None
                 end;
     zm_res := Some res |}.

End ZTWRFlow.

(** *** demo/checkin App.tsx: parseRequest and the click on an app card *)
Module Picker.

(** [AppConfig], the fields the page and the click handler use to place
    and launch an app; name, description, colour and logo are what the card
    shows. *)
Record AppConfig := {
  id : string;
  category : option string;
  launchBase : string
}.

Record Request := {
  protocol : string;
  client_id : string;
  response_type : string;
  response_mode : string;
  nonce : string;
  state : string;
  dcql_query : jsval
}.

(** [Request | { error: string }]. *)
Inductive Parsed :=
| Parsed_request (req : Request)
| Parsed_error (error : string).

(** [o || d] for the result of [get]. *)
Definition or_else (o : option string) (d : string) : string :=
  match o with
  | Some (String _ _ as s) => s
  | _ => d
  end.

(** [parseRequest()] on a page whose [location.search] is [search]. *)
Definition parseRequest (search : string) : Parsed :=
  let urlParams := URLSearchParams.parse search in
  let get := URLSearchParams.get urlParams in
  let protocol := or_else (get "protocol") "smart-health-checkin-v1" in
  if String.eqb protocol "smart-health-checkin-v1"
     || bool_decide (get "response_type" = Some "vp_token")
  then
    if negb (opt_truthy (get "client_id")) || negb (opt_truthy (get "state"))
       || negb (opt_truthy (get "nonce"))
    then Parsed_error "Missing required parameters (client_id, state, or nonce)"
    else
      match JSON.parse (or_else (get "dcql_query") "{}") with
      | Throws e => Parsed_error ("Invalid OID4VP request: " +:+ err_message e)
      | Normal query =>
          Parsed_request
            {| protocol := "smart-health-checkin-v1";
               client_id := default "" (get "client_id");
               response_type := or_else (get "response_type") "vp_token";
               response_mode := or_else (get "response_mode") "fragment";
               nonce := default "" (get "nonce");
               state := default "" (get "state");
               dcql_query := query |}
      end
  else Parsed_error
         "Missing request parameter. This page should be opened by the SMART Health Check-in library.".

(** What a click does to the world, in order. *)
Inductive Effect :=
| WindowOpen (url : string)
| Navigate (url : string)      (* location.href = url *)
| WindowClose.

(** The parameters handed on to the app. *)
Definition appParams `{Platform} (req : Request) : list (string * string) :=
  [("client_id", client_id req); ("response_type", "vp_token");
   ("response_mode", "fragment"); ("state", state req); ("nonce", nonce req);
   ("dcql_query", JSON_stringify (dcql_query req))].

(** [handleClick] of the card of [app]. *)
Definition handleClick `{Platform} (popup_allowed : bool) (app : AppConfig) (req : Request)
    (disabled : bool) : list Effect :=
  if disabled then [] else
  let launchUrl := launchBase app +:+ "?" +:+ URLSearchParams_toString (appParams req) in
  WindowOpen launchUrl :: (if popup_allowed then [WindowClose] else [Navigate launchUrl]).

(** The cards of the page: every app but the one of id [flexpa] is
    disabled. *)
Definition disabled (app : AppConfig) : bool := negb (String.eqb (id app) "flexpa").

(** The object [categories]: the apps of its three own properties. *)
Record Categories := {
  ehr : list AppConfig;
  phr : list AppConfig;
  healthplan : list AppConfig
}.

(** [categories[k]] for a key that is not an own property finds what
    [Object.prototype] has under that name: a function, or for [__proto__]
    the prototype itself. *)
Definition Object_prototype_has (k : string) : bool :=
  bool_decide (k ∈ ["constructor"; "__defineGetter__"; "__defineSetter__";
                    "hasOwnProperty"; "__lookupGetter__"; "__lookupSetter__";
                    "isPrototypeOf"; "propertyIsEnumerable"; "toString"; "valueOf";
                    "__proto__"; "toLocaleString"]).

(** The callback of [apps.forEach].  An inherited value is truthy and has
    no [apps]: the [push] is a property read on [undefined]. *)
Definition place (categories : Categories) (app : AppConfig) : completion Categories :=
  let category := or_else (category app) "phr" in
  if String.eqb category "ehr"
  then Normal {| ehr := ehr categories ++ [app]; phr := phr categories;
                 healthplan := healthplan categories |}
  else if String.eqb category "phr"
  then Normal {| ehr := ehr categories; phr := phr categories ++ [app];
                 healthplan := healthplan categories |}
  else if String.eqb category "healthplan"
  then Normal {| ehr := ehr categories; phr := phr categories;
                 healthplan := healthplan categories ++ [app] |}
  else if Object_prototype_has category
  then Throws (TypeError "Cannot read properties of undefined (reading 'push')")
  else Normal {| ehr := ehr categories; phr := phr categories ++ [app];
                 healthplan := healthplan categories |}.

Fixpoint forEach (categories : Categories) (apps : list AppConfig) : completion Categories :=
  match apps with
  | [] => Normal categories
  | app :: rest =>
      match place categories app with
      | Throws e => Throws e
      | Normal categories => forEach categories rest
      end
  end.

(** A section of the page: its key, its title and its cards, each an app
    and whether it is disabled. *)
Record Section := {
  key : string;
  title : string;
  cards : list (AppConfig * bool)
}.

Inductive Page :=
| ErrorPage (message : string)
| Sections (sections : list Section).

(** [App()]: what the page shows for the query string [search] and the
    apps of the configuration ([None] when there is no list). *)
Definition App (search : string) (apps : option (list AppConfig)) : completion Page :=
  match parseRequest search with
  | Parsed_error error => Normal (ErrorPage error)
  | Parsed_request _ =>
      match apps with
      | None | Some [] => Normal (ErrorPage "No health data sources available.")
      | Some apps =>
          match forEach {| ehr := []; phr := []; healthplan := [] |} apps with
          | Throws e => Throws e
          | Normal categories =>
              Normal (Sections
                (omap (λ '(key, title, apps),
                         match apps with
                         | [] => None
                         | _ => Some {| key := key; title := title;
                                        cards := map (λ app, (app, disabled app)) apps |}
                         end)
                      [("ehr", "Health Systems", ehr categories);
                       ("phr", "Connected Apps", phr categories);
                       ("healthplan", "Health Plans", healthplan categories)]))
          end
      end
  end.

End Picker.

(** *** Messages at their declared types *)

(** The object a relay message is, read at the types the handler of
    [request] declares for its fields; [None] when a field has a value of
    another type. *)
Definition as_optional {A} (read : jsval → option A) (o : option jsval)
    : option (option A) :=
  match o with
  | None | Some JUndef => Some None
  | Some v => Some <$> read v
  end.

Definition as_string (v : jsval) : option string :=
  match v with
  | JStr s => Some s
  | _ => None
  end.

Definition as_presentation (v : jsval) : option Presentation :=
  match v with
  | JObj props =>
      match props !! "artifact" with
      | Some (JNum m e) => if 0 <=? e then Some {| artifact := m * 10 ^ e |} else None
      | _ => None
      end
  | _ => None
  end.

Definition as_vp_token (v : jsval) : option VPToken :=
  match v with
  | JObj props =>
      list_to_map <$>
        mapM (λ '(id, presentations),
                match presentations with
                | JArr l => (λ ps, (id, ps)) <$> mapM as_presentation l
                | _ => None
                end)
             (map_to_list props)
  | _ => None
  end.

Definition as_array (v : jsval) : option (list jsval) :=
  match v with
  | JArr l => Some l
  | _ => None
  end.

Definition typed_message (m : gmap string jsval) : option RelayMessage :=
  state ← as_optional as_string (m !! "state");
  error ← as_optional as_string (m !! "error");
  description ← as_optional as_string (m !! "error_description");
  vp ← as_optional as_vp_token (m !! "vp_token");
  sa ← as_optional as_array (m !! "smart_artifacts");
  Some {| msg_state := state; msg_error := error; msg_error_description := description;
          msg_vp_token := vp; msg_smart_artifacts := sa |}.

(** *** smart-health-checkin.ts: the handler on any message *)

(** The handler of [request] and [rehydrateResponse] again, on the data of
    a message as it is at run time, whatever its types.  Evaluations whose
    result is no value of this development (a property read through a
    prototype, a conversion of an object to a key or to text, a response
    that is not of the declared type) are left out: the result is
    [Unmodelled].  Such an evaluation ends or throws; when a later step of
    the same loop throws, the loop throws in either case, so [Thrown] wins
    over [Unmodelled].  Which error is thrown is not recorded. *)
Module Untyped.

Inductive verdict (A : Type) : Type :=
| Known (a : A)
| Thrown
| Unmodelled.
Arguments Known {A} a.
Arguments Thrown {A}.
Arguments Unmodelled {A}.

(** Two evaluations in sequence. *)
Definition both {A B C} (f : A → B → C) (x : verdict A) (y : verdict B) : verdict C :=
  match x, y with
  | Thrown, _ | _, Thrown => Thrown
  | Unmodelled, _ | _, Unmodelled => Unmodelled
  | Known a, Known b => Known (f a b)
  end.

(** The integer a number is, if it is one. *)
Definition integer (m e : Z) : option Z :=
  if 0 <=? e then Some (m * 10 ^ e)
  else if m mod 10 ^ (- e) =? 0 then Some (m / 10 ^ (- e)) else None.

(** [smart_artifacts[k]]: modelled for an array and a key that is a number,
    [undefined], [null] or a boolean (none of the last three names a
    property of an array). *)
Definition index (smart_artifacts k : jsval) : verdict jsval :=
  match smart_artifacts, k with
  | JArr l, JNum m e =>
      Known (match integer m e with
             | Some i => array_get l i
             | None => JUndef
             end)
  | JArr l, (JUndef | JNull | JBool _) => Known JUndef
  | _, _ => Unmodelled
  end.

(** The callback of [presentations.map]. *)
Definition resolve_presentation (smart_artifacts presentation : jsval) : verdict jsval :=
  match presentation with
  | JUndef | JNull => Thrown
  | _ =>
      match index smart_artifacts (get_prop presentation "artifact") with
      | Known artifact =>
          Known (if negb (is_undefined (opt_get_prop artifact "data"))
                 then get_prop artifact "data"
                 else artifact)
      | Thrown => Thrown
      | Unmodelled => Unmodelled
      end
  end.

(** [presentations.map(...)]: only an array has the method. *)
Definition map_presentations (smart_artifacts presentations : jsval) : verdict (list jsval) :=
  match presentations with
  | JArr l =>
      foldr (λ presentation rest,
               both cons (resolve_presentation smart_artifacts presentation) rest)
            (Known []) l
  | _ => Thrown
  end.

(** The loop of [rehydrateResponse] over the entries of an object. *)
Definition rehydrate (vp_token : gmap string jsval) (smart_artifacts : jsval)
    : verdict (gmap string (list jsval)) :=
  foldl (λ credentials '(id, presentations),
           both (λ credentials l, js_set credentials id l)
                credentials (map_presentations smart_artifacts presentations))
        (Known ∅) (Object_entries vp_token).

(** [chan.onmessage] on the data [msg]; [None] where the outcome is not
    modelled.  When [rehydrateResponse] throws, the exception leaves the
    handler after [cleanup()] and before [resolve]. *)
Definition onmessage (ex : Exchange) (msg : jsval) : option Exchange :=
  if negb (truthy msg) || negb (ZTWRFlow.is_string (get_prop msg "state") (ex_state ex))
  then Some ex
  else if truthy (get_prop msg "error")
  then
    match get_prop msg "error", get_prop msg "error_description" with
    | JStr error, JStr description =>
        Some (settle (cleanup ex)
                (Rejected (SHLError (ex_state ex) error (Some description))))
    | JStr error, description =>
        if truthy description then None
        else Some (settle (cleanup ex) (Rejected (SHLError (ex_state ex) error None)))
    | _, _ => None
    end
  else
    let vp := get_prop msg "vp_token" in
    let sa := get_prop msg "smart_artifacts" in
    if truthy vp && truthy sa
    then
      if ex_rehydrate ex
      then
        match vp with
        | JObj props =>
            match rehydrate props sa with
            | Thrown => Some (cleanup ex)
            | Unmodelled => None
            | Known credentials =>
                match as_vp_token vp, sa with
                | Some VP, JArr l =>
                    Some (settle (cleanup ex)
                            (Resolved (Rehydrated
                               {| rr_state := ex_state ex; rr_vp_token := VP;
                                  rr_smart_artifacts := l;
                                  credentials := credentials |})))
                | _, _ => None
                end
            end
        | _ => None
        end
      else
        match as_vp_token vp, sa with
        | Some VP, JArr l =>
            Some (settle (cleanup ex)
                    (Resolved (Raw {| state := ex_state ex; vp_token := VP;
                                      smart_artifacts := l |})))
        | _, _ => None
        end
    else Some ex.

(** What can happen to a pending exchange, a message being any value. *)
Inductive Event :=
| Deliver (data : jsval)
| Elapse (dt : N)
| PopupClosedByUser.

(** The timer and the popup do not look at messages: they go as in
    [Checkin.step]. *)
Definition step (ex : Exchange) (ev : Event) : option Exchange :=
  match ev with
  | Deliver data => if ex_chan_open ex then onmessage ex data else Some ex
  | Elapse dt => Some (Checkin.step ex (Checkin.Elapse dt))
  | PopupClosedByUser => Some (Checkin.step ex Checkin.PopupClosedByUser)
  end.

Fixpoint run (ex : Exchange) (evs : list Event) : option Exchange :=
  match evs with
  | [] => Some ex
  | ev :: evs =>
      match step ex ev with
      | Some ex => run ex evs
      | None => None
      end
  end.

End Untyped.

(** *** demo/requester App.tsx: handleCheckin *)

(** The part of the page's state that [handleCheckin] decides by itself:
    the task flags, [loading], [complete] and [error].  The coverage and the
    patient it also stores (the last one met in the enumeration order of
    [credentials], which is not modelled) and the two logs are left out. *)
Module RequesterApp.








End RequesterApp.

(** *** Values to run the return side on *)
Module Samples.

Definition state : string := "0b30557a9fc4e90e33587da2c7ec1136".

(** The exchange [ZTWR.request] leaves in the browser of [Demo]. *)
Definition exchange : ZTWR.Exchange := {|
  ZTWR.ex_state := state;
  ZTWR.ex_protocol := JStr "smart-health-card";
  ZTWR.ex_timer := Some 300000;
  ZTWR.ex_chan_open := true;
  ZTWR.ex_popup_open := true
|}.

(** A response envelope for it, and one for another exchange. *)
Definition response : jsval :=
  Demo.obj [("v", JNum 1 0); ("state", JStr state);
            ("payload", Demo.obj [("verifiableCredential", JArr [JStr "shc:/567629"])])].

Definition other_response : jsval :=
  Demo.obj [("v", JNum 1 0); ("state", JStr "ffffffffffffffffffffffffffffffff");
            ("payload", JNull)].

(** A response envelope whose payload is a text of 200000 characters. *)
Definition large_response : jsval :=
  Demo.obj [("v", JNum 1 0); ("state", JStr state);
            ("payload", JStr (repeat_char "a" (N.to_nat 200000)))].

(** The fragment a source app returns with: a coverage resource for the
    one credential of the query, or a refusal. *)
Definition coverage : jsval :=
  Demo.obj [("resourceType", JStr "Coverage"); ("status", JStr "active")].

(** Two messages for the exchange [Demo.pending]: a result whose [vp_token]
    maps an id to a number, and a result of the declared shape. *)
Definition malformed_result : jsval :=
  Demo.obj [("state", JStr state);
            ("vp_token", Demo.obj [("a", JNum 1 0)]);
            ("smart_artifacts", JArr [])].

Definition valid_result : jsval :=
  Demo.obj [("state", JStr state);
            ("vp_token", Demo.obj [("coverage-1", JArr [Demo.obj [("artifact", JNum 0 0)]])]);
            ("smart_artifacts", JArr [Artifact fhir_resource coverage])].

Definition success_hash : string :=
  "#" +:+ Demo.form_urlencoded
            [("state", state);
             ("vp_token",
              Demo.platform.(JSON_stringify)
                (Demo.obj [("coverage-1", JArr [Demo.obj [("artifact", JNum 0 0)]])]));
             ("smart_artifacts",
              Demo.platform.(JSON_stringify)
                (JArr [Demo.obj [("type", JStr "fhir_resource"); ("data", coverage)]]))].

Definition declined_hash : string :=
  "#state=0b30557a9fc4e90e33587da2c7ec1136&error=access_denied&error_description=The+user+declined".

Definition options (ui : option bool) : Return.HandleReturnOptions :=
  {| Return.renderUI := ui |}.

Definition app : Picker.AppConfig :=
  {| Picker.id := "flexpa"; Picker.category := Some "phr";
     Picker.launchBase := "https://source.example.org/launch" |}.

(** The apps of the configuration for local hosts. *)
Definition apps : list Picker.AppConfig :=
  [ {| Picker.id := "premera"; Picker.category := Some "healthplan";
       Picker.launchBase := "http://premera.localhost:3004" |};
    {| Picker.id := "flexpa"; Picker.category := Some "phr";
       Picker.launchBase := "http://flexpa.localhost:3002" |};
    {| Picker.id := "bwell"; Picker.category := Some "phr";
       Picker.launchBase := "http://bwell.localhost:3003" |} ].

Definition search : string :=
  "?client_id=redirect_uri%3Ahttps%3A%2F%2Fclinic.example.org%2F&state=abc&nonce=n-1".

End Samples.

(* ===================================================================== *)
(** ** More notions the statements use *)
(* ===================================================================== *)

(** A lower-case hexadecimal digit. *)
Definition is_lower_hex (c : ascii) : bool :=
  let k := N_of_ascii c in
  (((48 <=? k) && (k <=? 57)) || ((97 <=? k) && (k <=? 102)))%N.

(** A character of the base64url alphabet: a letter, a digit, [-] or [_]. *)
Definition is_base64url (c : ascii) : bool :=
  let k := N_of_ascii c in
  (((48 <=? k) && (k <=? 57)) || ((65 <=? k) && (k <=? 90))
   || ((97 <=? k) && (k <=? 122)) || (k =? 45) || (k =? 95))%N.

(** What the alphabet of [b64u] needs of the character of a sextet. *)
Definition urlsafe_check (n : N) : bool :=
  let c := b64_char n in
  is_base64url (to_urlsafe c) && negb (Ascii.eqb c "-") && negb (Ascii.eqb c "_").

(** A character no base64 text has: not of either alphabet, not [=], not
    white space. *)
Definition foreign (c : ascii) : bool :=
  negb (is_base64url c || Ascii.eqb c "+" || Ascii.eqb c "/" || Ascii.eqb c "="
        || is_ascii_whitespace c).

(** The base64url text of a byte sequence, which [b64u] returns when it
    returns, and the text of an envelope, which [encJ] returns when it
    returns. *)
Definition base64url (buf : list byte) : string :=
  strip_trailing "=" (replace_all "/" "_" (replace_all "+" "-" (btoa (string_of_list_byte buf)))).

Definition encoded `{Platform} (o : jsval) : string :=
  base64url (te_encode (JSON_stringify o)).

(** The bytes of a buffer are more than one call may have arguments. *)
Definition too_large `{Platform} (buf : list byte) : Prop :=
  (max_arguments < N.of_nat (length buf))%N.

(** The credential an exchange of [shl.js] resolves with, for a response
    envelope: the payload as JSON text. *)
Definition credential `{Platform} (ex : ZTWR.Exchange) (ret : jsval) : ZTWRFlow.Credential :=
  {| ZTWRFlow.cred_type := "digital_credential";
     ZTWRFlow.cred_protocol := ZTWR.ex_protocol ex;
     ZTWRFlow.cred_data := if is_undefined (get_prop ret "payload") then None
                           else Some (JSON_stringify (get_prop ret "payload")) |}.

(** A message the handler of [shl.js] lets pass: it is falsy, carries
    another state or no [res], or its [res] decodes to an envelope of
    another state. *)
Definition passes `{Platform} (expected : string) (data : option ZTWRFlow.Message) : bool :=
  match data with
  | None => true
  | Some msg =>
      negb (bool_decide (ZTWRFlow.zm_state msg = Some expected))
      || negb (opt_truthy (ZTWRFlow.zm_res msg))
      || match ZTWR.decJ (default "" (ZTWRFlow.zm_res msg)) with
         | Normal (JObj props) =>
             negb (ZTWRFlow.is_string (default JUndef (props !! "state")) expected)
         | Normal (JBool _ | JNum _ _ | JStr _ | JArr _) => true
         | _ => false
         end
  end.

(** The timer, the channel and the popup of an exchange are gone. *)
Definition released (ex : ZTWR.Exchange) : Prop :=
  ZTWR.ex_timer ex = None ∧ ZTWR.ex_chan_open ex = false ∧ ZTWR.ex_popup_open ex = false.

(** No message among the events carries the state an exchange of [shl.js]
    awaits. *)
Definition no_response (expected : string) (evs : list ZTWRFlow.Event) : Prop :=
  Forall (λ ev, match ev with
                | ZTWRFlow.Deliver (Some msg) => ZTWRFlow.zm_state msg ≠ Some expected
                | _ => True
                end) evs.

(** Milliseconds that pass during a run of events. *)
Definition waited (evs : list ZTWRFlow.Event) : Z :=
  foldr (λ ev t, match ev with ZTWRFlow.Elapse dt => Z.of_N dt + t | _ => t end) 0 evs.

(** While the promise is pending the channel is open and the timer armed. *)
Definition waiting (ex : Exchange) : Prop :=
  ex_outcome ex = None ∧ ex_chan_open ex = true ∧ is_Some (ex_timer ex).

(** [cleanup()] has run: the timer, the channel and the popup are gone. *)
Definition cleaned (ex : Exchange) : Prop :=
  ex_timer ex = None ∧ ex_chan_open ex = false ∧ ex_popup_open ex = false.

(** What an event can make of an exchange, a message being any value.
    Where [Untyped.step] does not model the outcome of a message,
    [cleanup()] has run, and then the handler has thrown or has settled the
    promise, with a value that [o] stands for. *)
Definition follows (ex : Exchange) (ev : Untyped.Event) (ex' : Exchange) : Prop :=
  match Untyped.step ex ev with
  | Some after => ex' = after
  | None => ex' = cleanup ex ∨ ∃ o, ex' = settle (cleanup ex) o
  end.

Inductive reaches : Exchange → list Untyped.Event → Exchange → Prop :=
| reaches_nil ex : reaches ex [] ex
| reaches_cons ex ev ex1 evs ex' :
    follows ex ev ex1 → reaches ex1 evs ex' → reaches ex (ev :: evs) ex'.

(** The parameters [request] puts in the address it opens. *)
Definition sent_params `{Platform} (env : Env) (q : jsval) : list (string * string) :=
  [("client_id", "redirect_uri:" +:+ redirect_uri env); ("response_type", "vp_token");
   ("response_mode", "fragment"); ("nonce", generateRandomState env 16);
   ("state", generateRandomState env 0); ("dcql_query", JSON_stringify q)].

(** The first request of a credential request, and the gateway address
    without its trailing slashes, as [ZTWR.request] reads them. *)
Definition first_request (credentialRequest : jsval) : jsval :=
  ZTWR.opt_first (opt_get_prop (opt_get_prop credentialRequest "digital") "requests").

Definition gateway (opts : option ZTWR.RequestOptions) : string :=
  strip_trailing "/"
    (match opts with
     | Some o => match ZTWR.gatewayBase o with
                 | Some g => if str_truthy g then g else ""
                 | None => ""
                 end
     | None => ""
     end).

(** The envelope [ZTWR.request] encodes. *)
Definition request_envelope (env : Env) (credentialRequest : jsval) : jsval :=
  JObj (<["v" := JNum 1 0]>
       (<["state" := JStr (generateRandomState env 0)]>
       (<["returnUrl" := JStr (location_origin env +:+ location_pathname env)]>
       (<["digital" := get_prop credentialRequest "digital"]> ∅)))).

(** The section an app belongs to: that of its category when it is one of
    the three, connected apps otherwise. *)
Definition section_of (app : Picker.AppConfig) : string :=
  let category := Picker.or_else (Picker.category app) "phr" in
  if bool_decide (category ∈ ["ehr"; "phr"; "healthplan"]) then category else "phr".

(** The apps on the cards of a page, section after section. *)
Definition shown (sections : list Picker.Section) : list Picker.AppConfig :=
  concat (map (λ s, map fst (Picker.cards s)) sections).






(* ===================================================================== *)
(** * Theorems *)
(* ===================================================================== *)

(* --------------------------------------------------------------------- *)
(** ** rehydrateResponse *)
(* --------------------------------------------------------------------- *)

Lemma array_get_referenced r p :
  array_get (smart_artifacts r) (artifact p) = default JUndef (referenced_artifact r p).
Proof. unfold array_get, referenced_artifact. by destruct (0 <=? artifact p). Qed.

Lemma resolve_presentation_entry r p : resolve_presentation r p = rehydrated_entry r p.
Proof.
  unfold resolve_presentation, rehydrated_entry.
  rewrite array_get_referenced.
  destruct (referenced_artifact r p) as [a|]; simpl; [|done].
  destruct a; simpl; try done.
  destruct (props !! "data") as [d|]; simpl; [|done].
  by destruct d.
Qed.

Lemma referenced_artifact_out_of_range r p :
  ¬ (0 <= artifact p < Z.of_nat (length (smart_artifacts r))) →
  referenced_artifact r p = None.
Proof.
  intros Hout. unfold referenced_artifact.
  destruct (0 <=? artifact p) eqn:Hle; [|done].
  apply lookup_ge_None_2. apply Z.leb_le in Hle. lia.
Qed.

(** The loop of [rehydrateResponse] over entries with distinct keys assigns
    each key but [__proto__] once. *)
Lemma foldl_js_set {A B} (f : A → B) (l : list (string * A)) (acc : gmap string B) k :
  NoDup l.*1 →
  foldl (λ c '(id, x), js_set c id (f x)) acc l !! k =
    if decide (k = "__proto__") then acc !! k
    else match (list_to_map l : gmap string A) !! k with
         | Some x => Some (f x)
         | None => acc !! k
         end.
Proof.
  revert acc. induction l as [|[id x] l IH]; intros acc Hnd; simpl.
  - rewrite lookup_empty. by case_decide.
  - apply NoDup_cons in Hnd as [Hid Hnd]. rewrite IH by done.
    case_decide as Hk.
    + subst k. unfold js_set. case_decide; [done|]. by rewrite lookup_insert_ne.
    + destruct (decide (id = k)) as [->|Hne].
      * rewrite lookup_insert_eq.
        rewrite (not_elem_of_list_to_map_1 _ k) by done.
        unfold js_set. rewrite decide_False by done. by rewrite lookup_insert_eq.
      * rewrite lookup_insert_ne by done.
        destruct (list_to_map l !! k); [done|].
        unfold js_set. case_decide; [done|]. by rewrite lookup_insert_ne.
Qed.

Lemma credentials_lookup r id :
  credentials (rehydrateResponse r) !! id =
    if decide (id = "__proto__") then None
    else map (rehydrated_entry r) <$> vp_token r !! id.
Proof.
  unfold rehydrateResponse, Object_entries. simpl.
  rewrite foldl_js_set by apply NoDup_fst_map_to_list.
  rewrite list_to_map_to_list, lookup_empty.
  case_decide; [done|].
  destruct (vp_token r !! id) as [ps|]; simpl; [|done].
  f_equal. apply map_ext. intros p. apply resolve_presentation_entry.
Qed.

(** C3 (as amended).  [rehydrateResponse] maps a credential id of
    [vp_token] to the list with one entry per presentation, in order: the
    referenced artifact's data, the artifact itself when its data is
    undefined, [undefined] when the index refers to no artifact.  This is
    said of every id but [__proto__], a name that is no ordinary property
    name of an object.  With [a] referring to artifacts 0 and 1 and [b] to
    artifact 0 of [{type: "fhir_resource", data: X}, {type: "shl", data: Y}],
    and [X], [Y] not undefined, the credentials are [{a: [X, Y], b: [X]}]; an
    id with an empty presentation list maps to the empty list. *)
Theorem rehydrateResponse_credentials :
  (∀ (r : RawResponse) (id : string),
     id ≠ "__proto__" →
     credentials (rehydrateResponse r) !! id
     = map (rehydrated_entry r) <$> vp_token r !! id)
  ∧ (∀ (st : string) (X Y : jsval),
       X ≠ JUndef → Y ≠ JUndef →
       credentials (rehydrateResponse
         {| state := st;
            vp_token := <["a" := [ {| artifact := 0 |}; {| artifact := 1 |} ]]>
                        (<["b" := [ {| artifact := 0 |} ]]> ∅);
            smart_artifacts := [Artifact fhir_resource X; Artifact shl Y] |})
       = <["a" := [X; Y]]> (<["b" := [X]]> ∅))
  ∧ (∀ (r : RawResponse) (id : string),
       id ≠ "__proto__" → vp_token r !! id = Some [] →
       credentials (rehydrateResponse r) !! id = Some []).
Proof.
  split; [|split].
  - intros r id Hid. by rewrite credentials_lookup, decide_False.
  - intros st X Y HX HY. apply map_eq. intros id.
    rewrite credentials_lookup. simpl.
    assert (HeX : rehydrated_entry
              {| state := st;
                 vp_token := <["a" := [ {| artifact := 0 |}; {| artifact := 1 |} ]]>
                             (<["b" := [ {| artifact := 0 |} ]]> ∅);
                 smart_artifacts := [Artifact fhir_resource X; Artifact shl Y] |}
              {| artifact := 0 |} = X).
    { unfold rehydrated_entry, referenced_artifact, Artifact. simpl.
      rewrite lookup_insert_ne by done. rewrite lookup_insert_eq. simpl.
      by destruct X. }
    assert (HeY : rehydrated_entry
              {| state := st;
                 vp_token := <["a" := [ {| artifact := 0 |}; {| artifact := 1 |} ]]>
                             (<["b" := [ {| artifact := 0 |} ]]> ∅);
                 smart_artifacts := [Artifact fhir_resource X; Artifact shl Y] |}
              {| artifact := 1 |} = Y).
    { unfold rehydrated_entry, referenced_artifact, Artifact. simpl.
      rewrite lookup_insert_ne by done. rewrite lookup_insert_eq. simpl.
      by destruct Y. }
    case_decide as Hp.
    + subst id. by rewrite !lookup_insert_ne, lookup_empty.
    + destruct (decide (id = "a")) as [->|Ha].
      * rewrite !lookup_insert_eq. simpl. by rewrite HeX, HeY.
      * rewrite !(lookup_insert_ne _ "a") by done.
        destruct (decide (id = "b")) as [->|Hb].
        -- rewrite !lookup_insert_eq. simpl. by rewrite HeX.
        -- by rewrite !lookup_insert_ne, !lookup_empty.
  - intros r id Hid Hps. rewrite credentials_lookup, decide_False by done.
    by rewrite Hps.
Qed.

Lemma rehydrateResponse_credentials_witness :
  credentials (rehydrateResponse
    {| state := "s";
       vp_token := <["a" := [ {| artifact := 0 |}; {| artifact := 1 |} ]]>
                   (<["b" := [ {| artifact := 0 |} ]]> ∅);
       smart_artifacts := [Artifact fhir_resource (JStr "X"); Artifact shl (JNum 7 0)] |})
  = <["a" := [JStr "X"; JNum 7 0]]> (<["b" := [JStr "X"]]> ∅).
Proof.
  apply (proj1 (proj2 rehydrateResponse_credentials)); discriminate.
Defined.

(** C3 as stated fails: an artifact whose data is undefined is handed over
    whole instead of its data value. *)
Lemma rehydrateResponse_credentials_counterexample :
  let p0 := {| artifact := 0 |} in
  let r := {| state := "s";
              vp_token := <["a" := [p0]]> ∅;
              smart_artifacts := [Artifact shl JUndef] |} in
  vp_token r !! "a" = Some [p0]
  ∧ referenced_artifact r p0 = Some (Artifact shl JUndef)
  ∧ get_prop (Artifact shl JUndef) "data" = JUndef
  ∧ credentials (rehydrateResponse r) !! "a" = Some [Artifact shl JUndef]
  ∧ credentials (rehydrateResponse r) !! "a" ≠ Some [JUndef].
Proof.
  cbv zeta. repeat split; try (vm_compute; reflexivity).
  vm_compute. discriminate.
Qed.

(** C9.  A presentation whose artifact index lies outside [smart_artifacts]
    makes the callback return [undefined]; the entry at its position in the
    credentials list is [undefined], and the list is there: rehydration does
    not abort. *)
Theorem rehydrateResponse_out_of_range
    (r : RawResponse) (id : string) (ps : list Presentation) (k : nat) (p : Presentation) :
  vp_token r !! id = Some ps →
  ps !! k = Some p →
  ¬ (0 <= artifact p < Z.of_nat (length (smart_artifacts r))) →
  resolve_presentation r p = JUndef
  ∧ (∀ l, credentials (rehydrateResponse r) !! id = Some l → l !! k = Some JUndef)
  ∧ (id ≠ "__proto__" →
     ∃ l, credentials (rehydrateResponse r) !! id = Some l ∧ length l = length ps).
Proof.
  intros Hid Hk Hout.
  assert (He : rehydrated_entry r p = JUndef).
  { unfold rehydrated_entry. by rewrite referenced_artifact_out_of_range. }
  split; [by rewrite resolve_presentation_entry|split].
  - intros l. rewrite credentials_lookup, Hid. case_decide; [done|].
    simpl. intros [= <-]. by rewrite list_lookup_fmap, Hk, <- He.
  - intros Hne. rewrite credentials_lookup, Hid, decide_False by done.
    eexists. split; [done|]. by rewrite length_map.
Qed.

Lemma rehydrateResponse_out_of_range_witness :
  let r := {| state := "s";
              vp_token := <["a" := [ {| artifact := 0 |}; {| artifact := 5 |} ]]> ∅;
              smart_artifacts := [Artifact shl (JStr "shlink:/x")] |} in
  resolve_presentation r {| artifact := 5 |} = JUndef
  ∧ (∀ l, credentials (rehydrateResponse r) !! "a" = Some l → l !! 1%nat = Some JUndef)
  ∧ ("a" ≠ "__proto__" →
     ∃ l, credentials (rehydrateResponse r) !! "a" = Some l ∧ length l = 2%nat).
Proof.
  cbv zeta.
  apply (rehydrateResponse_out_of_range _ "a"
           [ {| artifact := 0 |}; {| artifact := 5 |} ] 1 {| artifact := 5 |}).
  - reflexivity.
  - reflexivity.
  - simpl. lia.
Defined.

(** C10.  The state, vp_token and smart_artifacts of the result are those
    of the input; the result has one more field, credentials. *)
Theorem rehydrateResponse_frame (r : RawResponse) :
  rr_state (rehydrateResponse r) = state r
  ∧ rr_vp_token (rehydrateResponse r) = vp_token r
  ∧ rr_smart_artifacts (rehydrateResponse r) = smart_artifacts r.
Proof. by unfold rehydrateResponse. Qed.

(* --------------------------------------------------------------------- *)
(** ** The pending exchange *)
(* --------------------------------------------------------------------- *)

Lemma finished_cleanup_settle ex o :
  ex_outcome ex = None → finished (settle (cleanup ex) o).
Proof. intros Hp. unfold finished, settle, cleanup; simpl. rewrite Hp; simpl. eauto. Qed.

Lemma settle_cleanup_outcome ex o :
  ex_outcome ex = None → ex_outcome (settle (cleanup ex) o) = Some o.
Proof. intros Hp. unfold settle, cleanup; simpl. by rewrite Hp. Qed.

Lemma step_finished ex ev : finished ex → step ex ev = ex.
Proof.
  intros (_ & Ht & Hc & Hpop). destruct ex as [st rh tm ch pop out]; simpl in *; subst.
  by destruct ev.
Qed.

Lemma run_finished ex evs : finished ex → run ex evs = ex.
Proof.
  intros Hf. unfold run. induction evs as [|ev evs IH]; simpl; [done|].
  by rewrite step_finished.
Qed.

Lemma run_app ex evs1 evs2 : run ex (evs1 ++ evs2) = run (run ex evs1) evs2.
Proof. apply foldl_app. Qed.

Lemma onmessage_mismatch ex data :
  state_matches (ex_state ex) data = false → onmessage ex data = ex.
Proof.
  unfold state_matches, onmessage. destruct data as [msg|]; [|done].
  destruct (msg_state msg) as [s|]; [|done]. by intros ->.
Qed.

Lemma onmessage_ineffective ex data :
  effective (ex_state ex) data = false → onmessage ex data = ex.
Proof.
  unfold effective. destruct data as [msg|]; [|done].
  destruct (state_matches (ex_state ex) (Some msg)) eqn:Hm;
    [|intros _; by apply onmessage_mismatch].
  unfold well_formed, state_matches, onmessage in *.
  destruct (msg_state msg) as [s|]; [|done]. rewrite Hm. simpl.
  destruct (msg_error msg) as [[|c e]|]; simpl;
    destruct (msg_vp_token msg), (msg_smart_artifacts msg); simpl; try done.
Qed.

Lemma onmessage_effective ex msg :
  ex_outcome ex = None →
  effective (ex_state ex) (Some msg) = true →
  onmessage ex (Some msg)
  = settle (cleanup ex) (derived_outcome (ex_state ex) (ex_rehydrate ex) msg).
Proof.
  intros Hp. unfold effective, well_formed, state_matches, onmessage, derived_outcome.
  destruct (msg_state msg) as [s|]; [|done].
  destruct (String.eqb_spec s (ex_state ex)) as [->|]; [|done]. simpl.
  destruct (msg_error msg) as [[|c e]|]; simpl; try done;
    destruct (msg_vp_token msg), (msg_smart_artifacts msg); simpl; try done.
Qed.

(** C2.  A message whose state differs from the awaited one, a message
    without a state, and an empty message leave the exchange as it is:
    the outcome, the timer and the subscription are untouched. *)
Theorem mismatched_message_ignored (ex : Exchange) (data : option RelayMessage) :
  (∀ msg, data = Some msg → msg_state msg ≠ Some (ex_state ex)) →
  onmessage ex data = ex
  ∧ step ex (Deliver data) = ex
  ∧ ex_outcome (step ex (Deliver data)) = ex_outcome ex
  ∧ ex_timer (step ex (Deliver data)) = ex_timer ex
  ∧ ex_chan_open (step ex (Deliver data)) = ex_chan_open ex.
Proof.
  intros Hne.
  assert (Hm : state_matches (ex_state ex) data = false).
  { unfold state_matches. destruct data as [msg|]; [|done].
    specialize (Hne msg eq_refl). destruct (msg_state msg) as [s|]; [|done].
    destruct (String.eqb_spec s (ex_state ex)); [congruence|done]. }
  assert (Hs : step ex (Deliver data) = ex).
  { simpl. rewrite onmessage_mismatch by done. by destruct (ex_chan_open ex). }
  rewrite Hs. by rewrite onmessage_mismatch.
Qed.

Lemma mismatched_message_ignored_witness :
  step Demo.pending (Deliver (Some Demo.stray)) = Demo.pending.
Proof.
  refine (proj1 (proj2 (mismatched_message_ignored Demo.pending (Some Demo.stray) _))).
  intros msg [= <-]. discriminate.
Defined.

(** Messages of the declared types.  Of the messages delivered to a pending
    exchange, those before the first one that matches the state and is
    well-formed change nothing; that one settles the promise with the
    outcome it stands for and releases the timer and the subscription;
    every event after it is a no-op, so the final outcome is the one derived
    from that message. *)
Theorem first_message_wins
    (ex : Exchange) (pre : list (option RelayMessage)) (msg : RelayMessage)
    (post : list Event) :
  ex_outcome ex = None →
  ex_chan_open ex = true →
  Forall (λ data, effective (ex_state ex) data = false) pre →
  effective (ex_state ex) (Some msg) = true →
  let settled := run ex (map Deliver pre ++ [Deliver (Some msg)]) in
  run ex (map Deliver pre) = ex
  ∧ ex_outcome settled = Some (derived_outcome (ex_state ex) (ex_rehydrate ex) msg)
  ∧ ex_timer settled = None
  ∧ ex_chan_open settled = false
  ∧ (∀ ev, step settled ev = settled)
  ∧ run ex (map Deliver pre ++ Deliver (Some msg) :: post) = settled.
Proof.
  intros Hp Hc Hpre Hmsg settled.
  assert (Hrun : run ex (map Deliver pre) = ex).
  { clear settled. unfold run. induction Hpre as [|d pre Hd _ IH]; simpl; [done|].
    rewrite Hc, onmessage_ineffective by done. apply IH. }
  assert (Hset : settled
            = settle (cleanup ex) (derived_outcome (ex_state ex) (ex_rehydrate ex) msg)).
  { unfold settled. rewrite run_app, Hrun. unfold run; simpl.
    rewrite Hc. by apply onmessage_effective. }
  assert (Hfin : finished settled).
  { rewrite Hset. by apply finished_cleanup_settle. }
  split; [done|]. split; [rewrite Hset; by apply settle_cleanup_outcome|].
  destruct Hfin as (Ho & Ht & Hch & Hpop).
  repeat split; try done.
  - intros ev. by apply step_finished.
  - replace (map Deliver pre ++ Deliver (Some msg) :: post)
      with ((map Deliver pre ++ [Deliver (Some msg)]) ++ post)
      by (by rewrite <- app_assoc).
    rewrite run_app. by apply run_finished.
Qed.

Lemma first_message_wins_witness :
  ex_outcome (run Demo.pending
                [Deliver (Some Demo.stray); Deliver None;
                 Deliver (Some (Demo.success (JStr "first")));
                 Deliver (Some (Demo.success (JStr "second"))); Elapse 120000])
  = Some (Resolved (Rehydrated
      {| rr_state := "0b30557a9fc4e90e33587da2c7ec1136";
         rr_vp_token := <["coverage-1" := [ {| artifact := 0 |} ]]> ∅;
         rr_smart_artifacts := [Artifact fhir_resource (JStr "first")];
         credentials := <["coverage-1" := [JStr "first"]]> ∅ |})).
Proof.
  pose proof (first_message_wins Demo.pending [Some Demo.stray; None]
                (Demo.success (JStr "first"))
                [Deliver (Some (Demo.success (JStr "second"))); Elapse 120000]
                eq_refl eq_refl) as Hfirst.
  destruct Hfirst as (_ & Hout & _ & _ & _ & Hrun).
  - repeat constructor.
  - reflexivity.
  - simpl map in *. simpl app in *. rewrite Hrun, Hout. vm_compute. reflexivity.
Defined.

(* --------------------------------------------------------------------- *)
(** ** The timer *)
(* --------------------------------------------------------------------- *)

Lemma elapsed_nonneg evs : 0 <= elapsed evs.
Proof. induction evs as [|[d|dt|] evs IH]; simpl; lia. Qed.

Lemma elapsed_pos_ticked evs : 0 < elapsed evs → ticked evs = true.
Proof. induction evs as [|[d|dt|] evs IH]; simpl; auto; lia. Qed.

Lemma finished_ontimeout ex : ex_outcome ex = None → finished (ontimeout ex).
Proof. apply finished_cleanup_settle. Qed.

(** A pending exchange whose timer has [r] milliseconds to go, under events
    that bring no message with the awaited state. *)
Lemma run_timer evs : ∀ ex r,
  ex_timer ex = Some r → ex_outcome ex = None → ex_chan_open ex = true →
  no_matching_message (ex_state ex) evs →
  (elapsed evs < r →
     ex_outcome (run ex evs) = None ∧ ex_chan_open (run ex evs) = true
     ∧ ex_timer (run ex evs) = Some (r - elapsed evs))
  ∧ (r <= elapsed evs → ticked evs = true →
     ex_outcome (run ex evs) = Some (Rejected (Error "Request timeout"))
     ∧ finished (run ex evs)).
Proof.
  induction evs as [|ev evs IH]; intros ex r Ht Hp Hc Hno.
  - simpl. split; [intros; by rewrite Z.sub_0_r|discriminate].
  - apply Forall_cons in Hno as [Hev Hno].
    unfold run in *.
    destruct ev as [data|dt|]; simpl foldl; simpl elapsed; simpl ticked.
    + (* a message for someone else *)
      rewrite Hc, onmessage_mismatch by done. by apply IH.
    + (* time passes *)
      rewrite Ht. destruct (Z.leb_spec r (Z.of_N dt)) as [Hdue|Hnot].
      * pose proof (finished_ontimeout ex Hp) as Hfin.
        fold (run (ontimeout ex) evs). rewrite run_finished by done.
        pose proof (elapsed_nonneg evs).
        split; [lia|]. intros _ _. split; [|done].
        unfold ontimeout. by rewrite settle_cleanup_outcome.
      * set (ex' := {| ex_state := ex_state ex; ex_rehydrate := ex_rehydrate ex;
                       ex_timer := Some (r - Z.of_N dt);
                       ex_chan_open := ex_chan_open ex;
                       ex_popup_open := ex_popup_open ex;
                       ex_outcome := ex_outcome ex |}).
        destruct (IH ex' (r - Z.of_N dt) eq_refl Hp Hc Hno) as (H1 & H2).
        split.
        -- intros Hlt. destruct H1 as (Ho & Hch & Htm); [lia|].
           repeat split; try done. rewrite Htm. f_equal. lia.
        -- intros Hr _. apply H2; [lia|]. apply elapsed_pos_ticked. lia.
    + (* the user closes the popup *)
      set (ex' := {| ex_state := ex_state ex; ex_rehydrate := ex_rehydrate ex;
                     ex_timer := ex_timer ex; ex_chan_open := ex_chan_open ex;
                     ex_popup_open := false; ex_outcome := ex_outcome ex |}).
      by apply (IH ex' r).
Qed.

(* --------------------------------------------------------------------- *)
(** ** request: how it starts *)
(* --------------------------------------------------------------------- *)

Section Request.
Context `{Platform}.

(** The ways a call of [request] can go, in the order of its checks. *)
Lemma request_cases env q opts :
  let st := generateRandomState env 0 in
  let T := default 120000 (timeout opts) in
  (* the base address or the query is refused: nothing has happened *)
  (∃ message, request env q opts = ([], Throws (Error message))
              ∧ (str_truthy (strip_trailing "/" (checkinBase opts)) = false
                 ∨ query_accepted q = false))
  (* the callback throws *)
  ∨ (∃ fx e, request env q opts
             = ([FxRandom 16; FxRandom 16; FxChannelOpen ("shl-" +:+ st); FxSetTimeout T]
                  ++ fx, Throws e)
             ∧ query_accepted q = true
             ∧ (∀ url, FxWindowOpen url ∉ fx))
  (* the popup is blocked *)
  ∨ (∃ fx, request env q opts
           = ([FxRandom 16; FxRandom 16; FxChannelOpen ("shl-" +:+ st); FxSetTimeout T]
                ++ fx ++ [FxChannelClose ("shl-" +:+ st)],
              Throws (Error "Popup blocked - please allow popups for this site"))
           ∧ query_accepted q = true
           ∧ popup_allowed env = false)
  (* the exchange is under way *)
  ∨ (∃ fx url, request env q opts
               = ([FxRandom 16; FxRandom 16; FxChannelOpen ("shl-" +:+ st); FxSetTimeout T]
                    ++ fx ++ [FxWindowOpen url],
                  Normal {| ex_state := st;
                            ex_rehydrate := match rehydrate opts with
                                            | Some false => false
                                            | _ => true
                                            end;
                            ex_timer := Some (setTimeout_delay T); ex_chan_open := true;
                            ex_popup_open := true; ex_outcome := None |})
               ∧ query_accepted q = true
               ∧ popup_allowed env = true).
Proof.
  intros st T. unfold request, query_accepted.
  destruct (str_truthy (strip_trailing "/" (checkinBase opts))) eqn:Hbase; simpl;
    [|left; eauto].
  destruct (truthy q) eqn:Hq; simpl; [|left; eauto].
  destruct (Array_isArray (get_prop q "credentials")) eqn:Harr; simpl; [|left; eauto].
  right. fold st.
  destruct (onRequestStart opts) as [callback|].
  - destruct (callback _) as [[]|e].
    + destruct (popup_allowed env) eqn:Hpop; simpl.
      * right. right. exists [FxCallback st]. eexists. done.
      * right. left. eexists [FxCallback st; FxWindowOpen _]. done.
    + left. exists [FxCallback st], e. split; [done|]. split; [done|].
      intros url Hin. apply list_elem_of_singleton in Hin. discriminate.
  - destruct (popup_allowed env) eqn:Hpop; simpl.
    + right. right. exists []. eexists. done.
    + right. left. eexists [FxWindowOpen _]. done.
Qed.

(** An exchange that [request] returns is pending, its channel open. *)
Lemma request_pending env q opts fx ex :
  request env q opts = (fx, Normal ex) →
  ex_outcome ex = None ∧ ex_chan_open ex = true
  ∧ ex_state ex = generateRandomState env 0.
Proof.
  intros Hreq.
  destruct (request_cases env q opts)
    as [(m & Hr & _)|[(fx' & e & Hr & _)|[(fx' & Hr & _)|(fx' & url & Hr & _)]]];
    rewrite Hr in Hreq; try discriminate.
  by injection Hreq as <- <-.
Qed.

(** However the exchange of [request] has fared, it is pending with its
    channel open, or finished. *)
Lemma step_pending_or_finished ex ev :
  (ex_outcome ex = None ∧ ex_chan_open ex = true) ∨ finished ex →
  (ex_outcome (step ex ev) = None ∧ ex_chan_open (step ex ev) = true)
  ∨ finished (step ex ev).
Proof.
  intros [[Hp Hc]|Hf]; [|right; by rewrite step_finished].
  destruct ev as [data|dt|]; simpl.
  - rewrite Hc. destruct (effective (ex_state ex) data) eqn:He.
    + destruct data as [msg|]; [|done]. right.
      rewrite onmessage_effective by done. by apply finished_cleanup_settle.
    + left. by rewrite onmessage_ineffective.
  - destruct (ex_timer ex) as [r|]; [|by left].
    destruct (r <=? Z.of_N dt); [right; by apply finished_ontimeout|by left].
  - by left.
Qed.

Lemma run_pending_open env q opts fx ex evs :
  request env q opts = (fx, Normal ex) →
  ex_outcome (run ex evs) = None →
  ex_chan_open (run ex evs) = true.
Proof.
  intros Hreq Hp. destruct (request_pending env q opts fx ex Hreq) as (Ho & Hc & _).
  assert (Hinv : (ex_outcome (run ex evs) = None ∧ ex_chan_open (run ex evs) = true)
                 ∨ finished (run ex evs)).
  { clear Hreq Hp. unfold run. revert ex Ho Hc.
    induction evs as [|ev evs IH] using rev_ind; intros ex Ho Hc; [by left|].
    rewrite foldl_app. simpl. apply step_pending_or_finished. by apply IH. }
  destruct Hinv as [[_ Hopen]|(Hs & _)]; [done|].
  rewrite Hp in Hs. by destruct Hs.
Qed.

End Request.

(** A delay in the range of a 32-bit signed integer is the delay asked
    for. *)
Lemma setTimeout_delay_in_range T : 0 <= T < 2 ^ 31 → setTimeout_delay T = T.
Proof. intros HT. unfold setTimeout_delay. rewrite Z.mod_small; lia. Qed.

(** The timer of [request]: armed with [opts.timeout], or with 120000 ms
    when none is given, it fires once the delay [setTimeout] makes of that
    has passed. *)
Lemma request_timer `{Platform}
    (env : Env) (q : jsval) (opts : RequestOptions)
    (fx : list Effect) (ex : Exchange) (evs : list Event) :
  request env q opts = (fx, Normal ex) →
  no_matching_message (ex_state ex) evs →
  let T := default 120000 (timeout opts) in
  FxSetTimeout T ∈ fx
  ∧ ex_timer ex = Some (setTimeout_delay T)
  ∧ (elapsed evs < setTimeout_delay T →
     ex_outcome (run ex evs) = None ∧ ex_chan_open (run ex evs) = true)
  ∧ (setTimeout_delay T <= elapsed evs → ticked evs = true →
     ex_outcome (run ex evs) = Some (Rejected (Error "Request timeout"))
     ∧ ex_chan_open (run ex evs) = false
     ∧ ex_timer (run ex evs) = None).
Proof.
  intros Hreq Hno T.
  destruct (request_cases env q opts)
    as [(m & Hr & _)|[(fx' & e & Hr & _)|[(fx' & Hr & _)|(fx' & url & Hr & _)]]];
    rewrite Hr in Hreq; try discriminate.
  injection Hreq as <- <-. cbn [ex_state] in Hno.
  split; [do 3 right; left|]. split; [done|].
  match goal with
  | |- context [run ?e evs] =>
      pose proof (run_timer evs e (setTimeout_delay T) eq_refl eq_refl eq_refl Hno)
        as (Hbefore & Hafter)
  end.
  split.
  - intros Hlt. by destruct (Hbefore Hlt) as (? & ? & _).
  - intros Hge Htk. destruct (Hafter Hge Htk) as (Ho & _ & Htm & Hch & _). done.
Qed.

(** The older library shl.js arms a fixed timer instead: five minutes,
    whatever the options. *)
Lemma ZTWR_request_timer `{Platform} env credentialRequest opts fx ex :
  ZTWR.request env credentialRequest opts = (fx, Normal ex) →
  ZTWR.ex_timer ex = Some 300000 ∧ FxSetTimeout 300000 ∈ fx.
Proof.
  unfold ZTWR.request.
  destruct (negb (truthy _)); [discriminate|].
  destruct (negb (str_truthy _)); [discriminate|].
  destruct (ZTWR.encJ _); [|discriminate].
  destruct (negb (popup_allowed env)); [discriminate|].
  intros [= <- <-]. split; [done|]. do 2 right. left.
Qed.

(** C4.  When [window.open] hands back no window, the call that tried to
    open it fails there and then with the popup-blocked error, and its last
    act is to close the relay channel it had opened; no timer is awaited.
    This holds for [request] of smart-health-checkin.ts and for [request] of
    shl.js. *)
Theorem popup_blocked_fails_fast `{Platform} (env : Env) :
  popup_allowed env = false →
  let chan := "shl-" +:+ generateRandomState env 0 in
  let blocked := Error "Popup blocked - please allow popups for this site" in
  (∀ q opts fx res url,
     request env q opts = (fx, res) → FxWindowOpen url ∈ fx →
     res = Throws blocked
     ∧ FxChannelOpen chan ∈ fx
     ∧ last fx = Some (FxChannelClose chan))
  ∧ (∀ credentialRequest opts fx res url,
       ZTWR.request env credentialRequest opts = (fx, res) → FxWindowOpen url ∈ fx →
       res = Throws blocked
       ∧ FxChannelOpen chan ∈ fx
       ∧ last fx = Some (FxChannelClose chan)).
Proof.
  intros Hpop chan blocked. split.
  - intros q opts fx res url Hreq Hin.
    destruct (request_cases env q opts)
      as [(m & Hr & _)|[(fx' & e & Hr & _ & Hno)|[(fx' & Hr & _)|(fx' & u & Hr & _ & Hp)]]];
      rewrite Hr in Hreq; injection Hreq as <- <-.
    + inversion Hin.
    + exfalso. apply (Hno url).
      repeat (apply elem_of_cons in Hin as [Hin|Hin]; [discriminate|]). done.
    + split; [done|]. split; [do 2 right; left|].
      rewrite !app_comm_cons. apply last_snoc.
    + congruence.
  - intros creq opts fx res url Hreq Hin. unfold ZTWR.request in Hreq.
    destruct (negb (truthy _)); [injection Hreq as <- <-; inversion Hin|].
    destruct (negb (str_truthy _)); [injection Hreq as <- <-; inversion Hin|].
    destruct (ZTWR.encJ _) as [reqEnvelope|e].
    + rewrite Hpop in Hreq. simpl in Hreq. injection Hreq as <- <-.
      split; [done|]. split; [right; left|]. done.
    + injection Hreq as <- <-. exfalso.
      repeat (apply elem_of_cons in Hin as [Hin|Hin]; [discriminate|]).
      inversion Hin.
Qed.

Lemma popup_blocked_fails_fast_witness :
  snd (request (Demo.env false) Demo.query Demo.opts)
    = Throws (Error "Popup blocked - please allow popups for this site")
  ∧ snd (ZTWR.request (Demo.env false) Demo.credentialRequest Demo.gateway_opts)
    = Throws (Error "Popup blocked - please allow popups for this site").
Proof.
  pose proof (popup_blocked_fails_fast (Demo.env false) eq_refl) as [Hc Hz].
  split.
  - refine (proj1 (Hc Demo.query Demo.opts _ _
                     (default EmptyString
                        (match last (removelast (fst (request (Demo.env false) Demo.query Demo.opts))) with
                         | Some (FxWindowOpen u) => Some u
                         | _ => None
                         end))
                     (surjective_pairing _) _)).
    vm_compute. apply list_elem_of_In. vm_compute. tauto.
  - refine (proj1 (Hz Demo.credentialRequest Demo.gateway_opts _ _
                     (default EmptyString
                        (match last (removelast (fst (ZTWR.request (Demo.env false)
                                         Demo.credentialRequest Demo.gateway_opts))) with
                         | Some (FxWindowOpen u) => Some u
                         | _ => None
                         end))
                     (surjective_pairing _) _)).
    vm_compute. apply list_elem_of_In. vm_compute. tauto.
Defined.

(** C5 (as amended).  [request] checks that the query is a value with a
    credentials array, whatever the array holds: when it is not, the call
    fails at once with an error and has done nothing (no state generated, no
    channel opened, no window opened); when it is, and the base address is
    not empty, the call goes on to generate the state. *)
Theorem request_validates_query `{Platform}
    (env : Env) (q : jsval) (opts : RequestOptions) :
  (query_accepted q = false →
     (∃ message, request env q opts = ([], Throws (Error message)))
     ∧ (str_truthy (strip_trailing "/" (checkinBase opts)) = true →
        request env q opts
        = ([], Throws (Error "dcqlQuery must be an object with a credentials array"))))
  ∧ (query_accepted q = true →
     str_truthy (strip_trailing "/" (checkinBase opts)) = true →
     ∃ fx res, request env q opts
               = (FxRandom 16 :: FxRandom 16
                    :: FxChannelOpen ("shl-" +:+ generateRandomState env 0) :: fx, res)).
Proof.
  unfold query_accepted, request.
  destruct (str_truthy (strip_trailing "/" (checkinBase opts))); simpl.
  - destruct (truthy q); simpl.
    + destruct (Array_isArray (get_prop q "credentials")); simpl.
      * split; [discriminate|]. intros _ _.
        destruct (onRequestStart opts) as [callback|];
          [destruct (callback _) as [[]|e]|]; destruct (popup_allowed env); simpl;
          do 2 eexists; reflexivity.
      * split; [intros _; split; [by eexists|done]|discriminate].
    + split; [intros _; split; [by eexists|done]|discriminate].
  - split; [intros _; split; [by eexists|done]|done].
Qed.

Lemma request_validates_query_witness :
  request (Demo.env true) (JObj ∅) Demo.opts
  = ([], Throws (Error "dcqlQuery must be an object with a credentials array")).
Proof.
  refine (proj2 (proj1 (request_validates_query (Demo.env true) (JObj ∅) Demo.opts) _) _);
    reflexivity.
Defined.

(** C5 as stated fails: a query with no credential item, and a query whose
    two items share their id, are both let through; the state is generated,
    the channel and the window are opened, and the exchange is pending. *)
Lemma request_validates_query_counterexample :
  let st := generateRandomState (Demo.env true) 0 in
  let pending := {| ex_state := st; ex_rehydrate := true; ex_timer := Some 120000;
                    ex_chan_open := true; ex_popup_open := true; ex_outcome := None |} in
  let started (q : jsval) :=
    snd (request (Demo.env true) q Demo.opts) = Normal pending
    ∧ take 4 (fst (request (Demo.env true) q Demo.opts))
      = [FxRandom 16; FxRandom 16; FxChannelOpen ("shl-" +:+ st); FxSetTimeout 120000]
    ∧ ∃ url, last (fst (request (Demo.env true) q Demo.opts)) = Some (FxWindowOpen url) in
  (credential_ids Demo.empty_query = []
   ∧ ¬ query_valid Demo.empty_query
   ∧ started Demo.empty_query)
  ∧ (credential_ids Demo.duplicate_query = [JStr "a"; JStr "a"]
     ∧ ¬ query_valid Demo.duplicate_query
     ∧ started Demo.duplicate_query).
Proof.
  cbv zeta.
  assert (Hdup : credential_ids Demo.duplicate_query = [JStr "a"; JStr "a"])
    by (vm_compute; reflexivity).
  repeat split; try (vm_compute; reflexivity); try (vm_compute; eexists; reflexivity).
  - intros [Hne _]. by apply Hne.
  - intros [_ Hnd]. rewrite Hdup in Hnd.
    apply NoDup_cons in Hnd as [Hin _]. apply Hin. left.
Qed.

(* --------------------------------------------------------------------- *)
(** ** The envelope codec *)
(* --------------------------------------------------------------------- *)

Lemma list_ind3 {A} (P : list A → Prop) :
  P [] → (∀ a, P [a]) → (∀ a b, P [a; b]) →
  (∀ a b c l, P l → P (a :: b :: c :: l)) → ∀ l, P l.
Proof.
  intros H0 H1 H2 H3.
  assert (Hall : ∀ l, P l ∧ (∀ a, P (a :: l)) ∧ (∀ a b, P (a :: b :: l))).
  { induction l as [|x l (IH0 & IH1 & IH2)]; [by repeat split|].
    split; [apply IH1|]. split; [intros a; apply IH2|]. intros a b. by apply H3. }
  intros l. apply Hall.
Qed.

Ltac euclid := zify; Z.to_euclidean_division_equations; lia.

Lemma sextets_bytes bs :
  Forall (λ b, (b < 256)%N) bs →
  bytes_of_sextets (sextets_of_bytes bs) = bs.
Proof.
  induction bs as [|a|a b|a b c l IH] using list_ind3; intros Hb.
  - done.
  - apply Forall_cons in Hb as [Ha _]. simpl. f_equal. euclid.
  - apply Forall_cons in Hb as [Ha Hb]. apply Forall_cons in Hb as [Hb _].
    simpl. f_equal; [euclid|]. f_equal. euclid.
  - apply Forall_cons in Hb as [Ha Hb]. apply Forall_cons in Hb as [Hb Hc].
    apply Forall_cons in Hc as [Hc Hl].
    cbn [sextets_of_bytes bytes_of_sextets]. rewrite IH by done.
    f_equal; [euclid|]. f_equal; [euclid|]. f_equal. euclid.
Qed.

Lemma sextets_bound bs :
  Forall (λ b, (b < 256)%N) bs → Forall (λ s, (s < 64)%N) (sextets_of_bytes bs).
Proof.
  induction bs as [|a|a b|a b c l IH] using list_ind3; intros Hb; simpl.
  - done.
  - apply Forall_cons in Hb as [Ha _]. repeat constructor; euclid.
  - apply Forall_cons in Hb as [Ha Hb]. apply Forall_cons in Hb as [Hb _].
    repeat constructor; euclid.
  - apply Forall_cons in Hb as [Ha Hb]. apply Forall_cons in Hb as [Hb Hc].
    apply Forall_cons in Hc as [Hc Hl].
    repeat (constructor; [euclid|]). by apply IH.
Qed.

(** The length of the sextets: four for each three bytes, two or three for
    a final one or two. *)
Lemma sextets_length (bs : list N) :
  ∃ q r : nat, (r < 3)%nat ∧ length bs = (3 * q + r)%nat
    ∧ length (sextets_of_bytes bs) = (4 * q + (if decide (r = 0%nat) then 0 else r + 1))%nat.
Proof.
  induction bs as [|a|a b|a b c l (q & r & Hr & Hl & Hs)] using list_ind3.
  - exists 0%nat, 0%nat. simpl. lia.
  - exists 0%nat, 1%nat. simpl. lia.
  - exists 0%nat, 2%nat. simpl. lia.
  - exists (S q), r. cbn [sextets_of_bytes length]. rewrite Hl, Hs.
    split; [done|]. split; lia.
Qed.

Lemma alphabet_checked n : (n < 64)%N → alphabet_check n = true.
Proof.
  intros Hn.
  assert (Hall : forallb alphabet_check (map N.of_nat (seq 0 64)) = true)
    by (vm_compute; reflexivity).
  rewrite forallb_forall in Hall. apply Hall.
  apply in_map_iff. exists (N.to_nat n). split; [lia|].
  apply in_seq. lia.
Qed.

Lemma b64_char_facts n :
  (n < 64)%N →
  b64_index (b64_char n) = Some n
  ∧ is_ascii_whitespace (b64_char n) = false
  ∧ b64_char n ≠ "="%char
  ∧ to_urlsafe (b64_char n) ≠ "="%char
  ∧ from_urlsafe (to_urlsafe (b64_char n)) = b64_char n.
Proof.
  intros Hn. pose proof (alphabet_checked n Hn) as Hc. unfold alphabet_check in Hc.
  repeat (apply andb_prop in Hc as [Hc ?]).
  apply bool_decide_eq_true in Hc.
  repeat split; try done.
  - by destruct (is_ascii_whitespace _).
  - intros He. rewrite He in *. done.
  - intros He. rewrite He in *. done.
  - by apply Ascii.eqb_eq.
Qed.

(** *** Strings as lists of characters *)

Lemma string_of_list_ascii_app l1 l2 :
  string_of_list_ascii (l1 ++ l2) = string_of_list_ascii l1 +:+ string_of_list_ascii l2.
Proof. induction l1 as [|c l1 IH]; simpl; [done|]. by rewrite IH. Qed.

Lemma string_of_list_ascii_length l : String.length (string_of_list_ascii l) = length l.
Proof. induction l as [|c l IH]; simpl; [done|]. by rewrite IH. Qed.

Lemma repeat_char_list c n : repeat_char c n = string_of_list_ascii (repeat c n).
Proof. induction n as [|n IH]; simpl; [done|]. by rewrite IH. Qed.

Lemma replace_all_list a b l :
  replace_all a b (string_of_list_ascii l)
  = string_of_list_ascii (map (λ c, if Ascii.eqb c a then b else c) l).
Proof. induction l as [|c l IH]; simpl; [done|]. by rewrite IH. Qed.

Lemma strip_trailing_repeat c k :
  strip_trailing c (string_of_list_ascii (repeat c k)) = EmptyString.
Proof. induction k as [|k IH]; simpl; [done|]. by rewrite IH, Ascii.eqb_refl. Qed.

Lemma strip_trailing_list c l k :
  Forall (λ a, a ≠ c) l →
  strip_trailing c (string_of_list_ascii (l ++ repeat c k)) = string_of_list_ascii l.
Proof.
  induction 1 as [|a l Ha _ IH]; simpl; [apply strip_trailing_repeat|].
  rewrite IH. destruct l; simpl; [|done].
  destruct (Ascii.eqb_spec a c); [done|done].
Qed.

Lemma strip_padding_repeat body k :
  (k ≤ 2)%nat →
  Forall (λ a, a ≠ "="%char) body →
  strip_padding (body ++ repeat "="%char k) = body.
Proof.
  intros Hk Hbody. unfold strip_padding. rewrite rev_app_distr, rev_repeat.
  assert (Hne : ∀ c r, rev body = c :: r → Ascii.eqb c "=" = false).
  { intros c r Hrev. apply Ascii.eqb_neq.
    rewrite Forall_forall in Hbody. apply Hbody.
    apply list_elem_of_In, in_rev. rewrite Hrev. by left. }
  assert (Hnil : rev body = [] → body = []).
  { intros Hrev. apply (f_equal (@rev _)) in Hrev. by rewrite rev_involutive in Hrev. }
  destruct k as [|[|[|k]]]; simpl; [| | |lia].
  - rewrite app_nil_r. destruct (rev body) as [|c r] eqn:Hrev; [done|].
    by rewrite (Hne c r).
  - destruct (rev body) as [|c r] eqn:Hrev; [by rewrite Hnil|].
    rewrite (Hne c r) by done. by rewrite <- Hrev, rev_involutive.
  - apply rev_involutive.
Qed.

Lemma mod_by (a d q r : nat) : (r < d)%nat → a = (d * q + r)%nat → (a mod d = r)%nat.
Proof.
  intros Hr ->. replace (d * q + r)%nat with (r + q * d)%nat by lia.
  rewrite Nat.Div0.mod_add. by apply Nat.mod_small.
Qed.

(** *** The body of a base64 text *)

(** *** The body of a base64 text *)

Section Body.
Variable sx : list N.
Hypothesis Hsx : Forall (λ s, (s < 64)%N) sx.

Lemma body_no_pad : Forall (λ a, a ≠ "="%char) (map b64_char sx).
Proof.
  apply Forall_map. eapply Forall_impl; [exact Hsx|].
  intros n Hn. simpl. by apply b64_char_facts.
Qed.

Lemma body_urlsafe_no_pad :
  Forall (λ a, a ≠ "="%char) (map to_urlsafe (map b64_char sx)).
Proof.
  rewrite map_map. apply Forall_map. eapply Forall_impl; [exact Hsx|].
  intros n Hn. simpl. by apply b64_char_facts.
Qed.

Lemma body_from_urlsafe :
  map from_urlsafe (map to_urlsafe (map b64_char sx)) = map b64_char sx.
Proof.
  rewrite !map_map. apply map_ext_Forall.
  eapply Forall_impl; [exact Hsx|]. intros n Hn. by apply b64_char_facts.
Qed.

Lemma body_no_whitespace k :
  List.filter (λ c, negb (is_ascii_whitespace c)) (map b64_char sx ++ repeat "="%char k)
  = map b64_char sx ++ repeat "="%char k.
Proof.
  apply forallb_filter_id. rewrite forallb_app. apply andb_true_intro. split.
  - apply forallb_forall. intros c Hc. apply in_map_iff in Hc as (n & <- & Hn).
    rewrite Forall_forall in Hsx. apply list_elem_of_In in Hn.
    destruct (b64_char_facts n (Hsx n Hn)) as (_ & -> & _). done.
  - apply forallb_forall. intros c Hc. apply repeat_spec in Hc. by subst c.
Qed.

Lemma body_index : mapM b64_index (map b64_char sx) = Some sx.
Proof.
  apply mapM_fmap_Forall_Some. eapply Forall_impl; [exact Hsx|].
  intros n Hn. by apply b64_char_facts.
Qed.

End Body.

(** *** atob after btoa, ZTWR.ub64 after ZTWR.b64u *)

Lemma codes_bound bin : Forall (λ b, (b < 256)%N) (codes bin).
Proof. apply Forall_map, Forall_forall. intros c _. apply N_ascii_bounded. Qed.

Lemma btoa_list bin :
  btoa bin = string_of_list_ascii
               (map b64_char (sextets_of_bytes (codes bin)) ++ repeat "="%char (padding bin)).
Proof. done. Qed.

(** Lengths of body and padding, by the number of bytes in the last group. *)
Lemma body_padding_lengths bin :
  ∃ q : nat,
    (padding bin = 0%nat ∧ length (sextets_of_bytes (codes bin)) = (4 * q)%nat)
    ∨ (padding bin = 2%nat ∧ length (sextets_of_bytes (codes bin)) = (4 * q + 2)%nat)
    ∨ (padding bin = 1%nat ∧ length (sextets_of_bytes (codes bin)) = (4 * q + 3)%nat).
Proof.
  unfold padding. destruct (sextets_length (codes bin)) as (q & r & Hr & Hl & Hs).
  exists q. rewrite Hl, Hs, (mod_by (3 * q + r) 3 q r) by done.
  destruct r as [|[|[|r]]]; simpl; [left|right; left|right; right|]; lia.
Qed.

Lemma atob_btoa bin : atob (btoa bin) = Normal bin.
Proof.
  pose proof (sextets_bound _ (codes_bound bin)) as Hsx.
  rewrite btoa_list. unfold atob.
  rewrite list_ascii_of_string_of_list_ascii, body_no_whitespace by done.
  pose proof (body_no_pad _ Hsx) as Hpad.
  destruct (body_padding_lengths bin) as (q & Hcases).
  assert (Hk : (padding bin ≤ 2)%nat) by (destruct Hcases as [[-> _]|[[-> _]|[-> _]]]; lia).
  assert (Hlen : (length (map b64_char (sextets_of_bytes (codes bin))
                          ++ repeat "="%char (padding bin)) mod 4 = 0)%nat).
  { rewrite length_app, length_map, repeat_length.
    destruct Hcases as [[-> ->]|[[-> ->]|[-> ->]]].
    - apply (mod_by _ 4 q 0); lia.
    - apply (mod_by _ 4 (S q) 0); lia.
    - apply (mod_by _ 4 (S q) 0); lia. }
  rewrite Hlen. change (0 =? 0)%nat with true. cbv iota.
  rewrite strip_padding_repeat by done.
  assert (Hbody : (length (map b64_char (sextets_of_bytes (codes bin))) mod 4 =? 1)%nat = false).
  { rewrite length_map. apply Nat.eqb_neq.
    destruct Hcases as [[_ ->]|[[_ ->]|[_ ->]]].
    - rewrite (mod_by _ 4 q 0) by lia. lia.
    - rewrite (mod_by _ 4 q 2) by lia. lia.
    - rewrite (mod_by _ 4 q 3) by lia. lia. }
  rewrite Hbody, body_index by done.
  rewrite sextets_bytes by apply codes_bound.
  unfold codes. rewrite map_map.
  rewrite (map_ext _ id), map_id by (intros c; apply ascii_N_embedding).
  by rewrite string_of_list_ascii_of_string.
Qed.

Lemma b64u_list buf :
  base64url buf = string_of_list_ascii
               (map to_urlsafe (map b64_char (sextets_of_bytes (codes (string_of_list_byte buf))))).
Proof.
  unfold base64url. rewrite btoa_list.
  pose proof (sextets_bound _ (codes_bound (string_of_list_byte buf))) as Hsx.
  rewrite !replace_all_list, map_map, map_app.
  assert (Hrep : map (λ x, if Ascii.eqb (if Ascii.eqb x "+" then "-"%char else x) "/"
                           then "_"%char else if Ascii.eqb x "+" then "-"%char else x)
                     (repeat "="%char (padding (string_of_list_byte buf)))
                 = repeat "="%char (padding (string_of_list_byte buf))).
  { induction (padding _) as [|k IH]; simpl; [done|]. by rewrite IH. }
  rewrite Hrep. rewrite strip_trailing_list; [done|].
  apply (body_urlsafe_no_pad _ Hsx).
Qed.

Lemma ub64_b64u buf : ZTWR.ub64 (base64url buf) = Normal buf.
Proof.
  pose proof (sextets_bound _ (codes_bound (string_of_list_byte buf))) as Hsx.
  unfold ZTWR.ub64. rewrite b64u_list.
  rewrite string_of_list_ascii_length, !length_map.
  rewrite !replace_all_list, map_map.
  assert (Hback : map (λ x, if Ascii.eqb (if Ascii.eqb x "-" then "+"%char else x) "_"
                            then "/"%char else if Ascii.eqb x "-" then "+"%char else x)
                      (map to_urlsafe (map b64_char (sextets_of_bytes (codes (string_of_list_byte buf)))))
                  = map b64_char (sextets_of_bytes (codes (string_of_list_byte buf))))
    by apply (body_from_urlsafe _ Hsx).
  rewrite Hback.
  assert (Hpad : (if (length (sextets_of_bytes (codes (string_of_list_byte buf))) mod 4 =? 0)%nat
                  then EmptyString
                  else repeat_char "=" (4 - length (sextets_of_bytes (codes (string_of_list_byte buf))) mod 4))
                 = string_of_list_ascii (repeat "="%char (padding (string_of_list_byte buf)))).
  { destruct (body_padding_lengths (string_of_list_byte buf)) as (q & [[-> ->]|[[-> ->]|[-> ->]]]).
    - by rewrite (mod_by _ 4 q 0) by lia.
    - by rewrite (mod_by _ 4 q 2) by lia.
    - by rewrite (mod_by _ 4 q 3) by lia. }
  rewrite Hpad, <- string_of_list_ascii_app, <- btoa_list, atob_btoa.
  by rewrite list_byte_of_string_of_list_byte.
Qed.

(** What [String.fromCharCode], [b64u] and [encJ] do: the text, unless the
    bytes are more than a call may have arguments. *)
Lemma String_fromCharCode_cases `{Platform} buf :
  (¬ too_large buf ∧ ZTWR.String_fromCharCode buf = Normal (string_of_list_byte buf))
  ∨ (too_large buf ∧ ZTWR.String_fromCharCode buf = Throws RangeError).
Proof.
  unfold ZTWR.String_fromCharCode, too_large.
  destruct (N.leb_spec (N.of_nat (length buf)) max_arguments); [left|right];
    (split; [lia|done]).
Qed.

Lemma b64u_cases `{Platform} buf :
  (¬ too_large buf ∧ ZTWR.b64u buf = Normal (base64url buf))
  ∨ (too_large buf ∧ ZTWR.b64u buf = Throws RangeError).
Proof.
  unfold ZTWR.b64u.
  destruct (String_fromCharCode_cases buf) as [[Hfit ->]|[Hbig ->]]; [by left|by right].
Qed.

Lemma encJ_cases `{Platform} e :
  (¬ too_large (te_encode (JSON_stringify e)) ∧ ZTWR.encJ e = Normal (encoded e))
  ∨ (too_large (te_encode (JSON_stringify e)) ∧ ZTWR.encJ e = Throws RangeError).
Proof. apply b64u_cases. Qed.

(** The envelope codec is reversible on the text of an envelope: for an
    envelope that is JSON-representable ([JSON.parse] gives it back from
    its text, and the decoder gives that text back from its encoding),
    [ZTWR.decJ] gives the envelope back. *)
Lemma decJ_encoded `{Platform} (e : jsval) :
  td_decode (te_encode (JSON_stringify e)) = JSON_stringify e →
  JSON.parse (JSON_stringify e) = Normal e →
  ZTWR.decJ (encoded e) = Normal e.
Proof.
  intros Htext Hjson. unfold ZTWR.decJ, encoded. by rewrite ub64_b64u, Htext.
Qed.

(** C7, where the code departs from it.  An envelope whose JSON text has
    more bytes than one call may have arguments is not encoded: [encJ]
    throws a [RangeError], from [String.fromCharCode(...bytes)].  The
    envelope is a valid one all the same: when JSON represents it, [decJ],
    which reads its bytes in a loop, gives it back from the text [encJ] was
    to return. *)
Theorem encJ_argument_limit `{Platform} (e : jsval) :
  too_large (te_encode (JSON_stringify e)) →
  ZTWR.encJ e = Throws RangeError
  ∧ (td_decode (te_encode (JSON_stringify e)) = JSON_stringify e →
     JSON.parse (JSON_stringify e) = Normal e →
     ZTWR.decJ (encoded e) = Normal e).
Proof.
  intros Hbig. split; [|apply decJ_encoded].
  by destruct (encJ_cases e) as [[Hfit _]|[_ ->]].
Qed.

Lemma encJ_argument_limit_witness :
  ZTWR.encJ Samples.large_response = Throws RangeError.
Proof.
  apply (encJ_argument_limit Samples.large_response). vm_compute. reflexivity.
Defined.

(** Within the limit [encJ] returns the text, and the round trip holds. *)
Lemma decJ_encJ `{Platform} (e : jsval) (text : string) :
  td_decode (te_encode (JSON_stringify e)) = JSON_stringify e →
  JSON.parse (JSON_stringify e) = Normal e →
  (¬ too_large (te_encode (JSON_stringify e)) → ZTWR.encJ e = Normal (encoded e))
  ∧ (ZTWR.encJ e = Normal text → ZTWR.decJ text = Normal e).
Proof.
  intros Htext Hjson. split.
  - intros Hfit. by destruct (encJ_cases e) as [[_ ->]|[Hbig _]].
  - destruct (encJ_cases e) as [[_ ->]|[_ ->]]; [|done].
    intros [= <-]. by apply decJ_encoded.
Qed.

(* --------------------------------------------------------------------- *)
(** ** JSON.parse: the fuel is enough *)
(* --------------------------------------------------------------------- *)

Section JSONParser.
Import JSON.

Lemma skip_ws_length s : (length (skip_ws s) ≤ length s)%nat.
Proof. induction s as [|c s IH]; simpl; [done|]. destruct (is_ws c); simpl; lia. Qed.

Lemma digits_length s : ∀ acc n v k r, digits s acc n = (v, k, r) → (length r ≤ length s)%nat.
Proof.
  induction s as [|c s IH]; simpl; intros acc n v k r.
  - intros [= <- <- <-]. done.
  - destruct (digit_val c).
    + intros Hd. apply IH in Hd. lia.
    + intros [= <- <- <-]. done.
Qed.

Lemma parse_number_length s v r : parse_number s = Some (v, r) → (length r ≤ length s)%nat.
Proof.
  unfold parse_number.
  set (sign := match s with "-"%char :: r0 => (true, r0) | _ => (false, s) end).
  assert (Hsign : (length sign.2 ≤ length s)%nat).
  { unfold sign. destruct s as [|c s0]; [done|].
    destruct c as [[] [] [] [] [] [] [] []]; simpl; lia. }
  destruct sign as [neg s1]. simpl in Hsign.
  destruct (digits s1 0 0%nat) as [[ip ni] s2] eqn:Hd1. apply digits_length in Hd1.
  destruct (_ || _); [discriminate|].
  match goal with
  | |- context [match ?f with Some _ => _ | None => None end] => set (frac := f)
  end.
  assert (Hfrac : ∀ m nf s3, frac = Some (m, nf, s3) → (length s3 ≤ length s2)%nat).
  { intros m nf s3. unfold frac. destruct s2 as [|c s2']; [by intros [= <- <- <-]|].
    destruct c as [[] [] [] [] [] [] [] []]; try (by intros [= <- <- <-]).
    destruct (digits s2' ip 0%nat) as [[m' nf'] s3'] eqn:Hd2. apply digits_length in Hd2.
    destruct (nf' =? 0)%nat; [discriminate|]. intros [= <- <- <-]. simpl. lia. }
  clearbody frac. destruct frac as [[[m nf] s3]|]; [|discriminate].
  specialize (Hfrac m nf s3 eq_refl).
  destruct s3 as [|c r0]; [intros [= <- <-]; simpl in *; lia|].
  destruct (_ || _)%N.
  - set (esign := match r0 with
                  | "-"%char :: r' => (true, r')
                  | "+"%char :: r' => (false, r')
                  | _ => (false, r0)
                  end).
    assert (Hes : (length esign.2 ≤ length r0)%nat).
    { unfold esign. destruct r0 as [|c0 r0']; [done|].
      destruct c0 as [[] [] [] [] [] [] [] []]; simpl; lia. }
    destruct esign as [eneg r1]. simpl in Hes.
    destruct (digits r1 0 0%nat) as [[ev ne] s4] eqn:Hd3. apply digits_length in Hd3.
    destruct (ne =? 0)%nat; [discriminate|]. intros [= <- <-]. simpl in *. lia.
  - intros [= <- <-]. simpl in *. lia.
Qed.

Ltac break_match_hyp H :=
  repeat match type of H with
         | context [match ?x with _ => _ end] => destruct x eqn:?; try discriminate H
         end.

Lemma parse_chars_length_aux : ∀ n s, (length s ≤ n)%nat →
  ∀ acc t r, parse_chars s acc = Some (t, r) → (length r ≤ length s)%nat.
Proof.
  induction n as [|n IH]; intros s Hn acc t r Hp.
  - destruct s; [discriminate|simpl in Hn; lia].
  - destruct s as [|c s]; [discriminate|]. simpl in Hn.
    cbn [parse_chars] in Hp. cbv zeta in Hp.
    break_match_hyp Hp; subst;
      first [ injection Hp as <- <-; simpl in *; lia
            | apply IH in Hp; simpl in *; lia ].
Qed.

Lemma parse_chars_length s acc t r :
  parse_chars s acc = Some (t, r) → (length r ≤ length s)%nat.
Proof. by apply (parse_chars_length_aux (length s)). Qed.

Lemma expect_length lit v s x r : expect lit v s = Some (x, r) → (length r ≤ length s)%nat.
Proof.
  unfold expect. case_decide; [|discriminate]. intros [= <- <-].
  rewrite length_drop. lia.
Qed.

Ltac break_all :=
  repeat match goal with
         | H : context [match ?x with _ => _ end] |- _ => destruct x eqn:?; try discriminate
         end.

Ltac lengths IH :=
  repeat match goal with
         | H : skip_ws ?x = ?y |- _ =>
             assert (length y ≤ length x)%nat by (rewrite <- H; apply skip_ws_length); clear H
         | H : parse_chars _ _ = Some _ |- _ => apply parse_chars_length in H
         | H : parse_number _ = Some _ |- _ => apply parse_number_length in H
         | H : expect _ _ _ = Some _ |- _ => apply expect_length in H
         | H : parse_value _ _ = POk _ _ |- _ => apply IH in H
         | H : parse_elements _ _ _ = POk _ _ |- _ => apply IH in H
         | H : parse_members _ _ _ = POk _ _ |- _ => apply IH in H
         end.

Lemma parse_rest_length fuel :
  (∀ s v r, parse_value fuel s = POk v r → (length r ≤ length s)%nat)
  ∧ (∀ s acc v r, parse_elements fuel s acc = POk v r → (length r ≤ length s)%nat)
  ∧ (∀ s acc v r, parse_members fuel s acc = POk v r → (length r ≤ length s)%nat).
Proof.
  induction fuel as [|fuel (IHv & IHe & IHm)]; [by repeat split|].
  split; [|split].
  - intros s v r Hp. cbn [parse_value] in Hp. unfold of_option, option_map in Hp.
    break_all; simplify_eq;
      lengths IHv; lengths IHe; lengths IHm; simpl in *; lia.
  - intros s acc v r Hp. cbn [parse_elements] in Hp.
    break_all; simplify_eq;
      lengths IHv; lengths IHe; lengths IHm; simpl in *; lia.
  - intros s acc v r Hp. cbn [parse_members] in Hp.
    break_all; simplify_eq;
      lengths IHv; lengths IHe; lengths IHm; simpl in *; lia.
Qed.

Lemma parse_value_rest fuel s v r :
  parse_value fuel s = POk v r → (length r ≤ length s)%nat.
Proof. apply parse_rest_length. Qed.

Lemma parse_elements_rest fuel s acc v r :
  parse_elements fuel s acc = POk v r → (length r ≤ length s)%nat.
Proof. apply parse_rest_length. Qed.

Lemma parse_members_rest fuel s acc v r :
  parse_members fuel s acc = POk v r → (length r ≤ length s)%nat.
Proof. apply parse_rest_length. Qed.

Ltac out_of_fuel IHv IHe IHm :=
  lengths parse_value_rest; lengths parse_elements_rest; lengths parse_members_rest;
  match goal with
  | H : parse_value _ _ = PFuel |- _ => revert H; apply IHv; simpl in *; lia
  | H : parse_elements _ _ _ = PFuel |- _ => revert H; apply IHe; simpl in *; lia
  | H : parse_members _ _ _ = PFuel |- _ => revert H; apply IHm; simpl in *; lia
  end.

(** Fuel for two steps a character, and one more, is never exhausted. *)
Lemma parse_fuel fuel :
  (∀ s, (2 * length s + 1 ≤ fuel)%nat → parse_value fuel s ≠ PFuel)
  ∧ (∀ s acc, (2 * length s + 2 ≤ fuel)%nat → parse_elements fuel s acc ≠ PFuel)
  ∧ (∀ s acc, (2 * length s + 2 ≤ fuel)%nat → parse_members fuel s acc ≠ PFuel).
Proof.
  induction fuel as [|fuel (IHv & IHe & IHm)]; [repeat split; intros; lia|].
  split; [|split].
  - intros s Hf Hp. cbn [parse_value] in Hp. unfold of_option, option_map in Hp.
    break_all; simplify_eq; out_of_fuel IHv IHe IHm.
  - intros s acc Hf Hp. cbn [parse_elements] in Hp.
    break_all; simplify_eq; out_of_fuel IHv IHe IHm.
  - intros s acc Hf Hp. cbn [parse_members] in Hp.
    break_all; simplify_eq; out_of_fuel IHv IHe IHm.
Qed.

Lemma parse_value_fuel (text : string) :
  parse_value (2 * length (list_ascii_of_string text) + 2) (list_ascii_of_string text) ≠ PFuel.
Proof. apply parse_fuel. lia. Qed.

End JSONParser.

(* --------------------------------------------------------------------- *)
(** ** parseReturnHash *)
(* --------------------------------------------------------------------- *)

(** Without a state parameter the result is [null]. *)
Lemma parseReturnHash_no_state hash :
  URLSearchParams.get (fragment_params hash) "state" = None →
  parseReturnHash hash = Normal ParsedNull.
Proof.
  intros Hstate. unfold parseReturnHash. fold (fragment_params hash).
  destruct (negb (str_truthy hash) || String.eqb hash "#"); [done|].
  by rewrite Hstate.
Qed.

Lemma parseReturnHash_empty :
  parseReturnHash EmptyString = Normal ParsedNull
  ∧ parseReturnHash "#" = Normal ParsedNull
  ∧ parseReturnHash "#section-2" = Normal ParsedNull.
Proof. repeat split; vm_compute; reflexivity. Qed.

(** The only way out of [parseReturnHash] by an exception: the fragment has
    both JSON parameters, and [JSON.parse] refuses one of them. *)
Lemma parseReturnHash_throws_only hash e :
  parseReturnHash hash = Throws e →
  ∃ vpToken smartArtifacts,
    URLSearchParams.get (fragment_params hash) "vp_token" = Some vpToken
    ∧ URLSearchParams.get (fragment_params hash) "smart_artifacts" = Some smartArtifacts
    ∧ (JSON.parse vpToken = Throws e
       ∨ (∃ vp, JSON.parse vpToken = Normal vp ∧ JSON.parse smartArtifacts = Throws e)).
Proof.
  unfold parseReturnHash. fold (fragment_params hash). intros Hthrow.
  destruct (negb (str_truthy hash) || String.eqb hash "#"); [discriminate|].
  destruct (URLSearchParams.get _ "state") as [st|]; [|discriminate].
  destruct (negb (str_truthy st)); [discriminate|].
  assert (Hrest :
    match URLSearchParams.get (fragment_params hash) "vp_token",
          URLSearchParams.get (fragment_params hash) "smart_artifacts" with
    | Some (String _ _ as vpToken), Some (String _ _ as smartArtifacts) =>
        match JSON.parse vpToken with
        | Throws e => Throws e
        | Normal vp =>
            match JSON.parse smartArtifacts with
            | Throws e => Throws e
            | Normal sa => Normal (ParsedReturnSuccess st vp sa)
            end
        end
    | _, _ => Normal ParsedNull
    end = Throws e).
  { destruct (URLSearchParams.get _ "error") as [[|c err]|]; done. }
  clear Hthrow.
  destruct (URLSearchParams.get _ "vp_token") as [[|c1 vp]|]; try discriminate.
  destruct (URLSearchParams.get _ "smart_artifacts") as [[|c2 sa]|]; try discriminate.
  exists (String c1 vp), (String c2 sa). split; [done|]. split; [done|].
  destruct (JSON.parse (String c1 vp)) as [v|e1].
  - destruct (JSON.parse (String c2 sa)) as [w|e2]; [discriminate|].
    injection Hrest as <-. right. by exists v.
  - injection Hrest as <-. by left.
Qed.

(** C8, at the input where the code departs from it: a fragment with a
    state and both result parameters, the first of which is not JSON, makes
    [parseReturnHash] throw a SyntaxError instead of returning an envelope
    or [null]. *)
Theorem parseReturnHash_throws :
  parseReturnHash "#state=abc&vp_token=x&smart_artifacts=[]"
  = Throws (SyntaxError "Unexpected token in JSON").
Proof. vm_compute. reflexivity. Qed.

(* --------------------------------------------------------------------- *)
(** ** The model at work *)
(* --------------------------------------------------------------------- *)

Example btoa_atob_vectors :
  btoa "Man" = "TWFu" ∧ btoa "Ma" = "TWE=" ∧ btoa "M" = "TQ=="
  ∧ atob "TWFu" = Normal "Man" ∧ atob "TWE=" = Normal "Ma" ∧ atob "TQ" = Normal "M"
  ∧ atob "T" = Throws InvalidCharacterError
  ∧ atob "TQ=a" = Throws InvalidCharacterError.
Proof. repeat split; vm_compute; reflexivity. Qed.

Example b64u_is_urlsafe :
  ZTWR.b64u [xfb; xff; xfe] = Normal "-__-" ∧ ZTWR.ub64 "-__-" = Normal [xfb; xff; xfe]
  ∧ ZTWR.b64u [xfb; xff] = Normal "-_8" ∧ ZTWR.ub64 "-_8" = Normal [xfb; xff].
Proof. repeat split; vm_compute; reflexivity. Qed.

Example JSON_parse_vectors :
  JSON.parse "[1, 2.50, -3e2, true, null]"
    = Normal (JArr [JNum 1 0; JNum 25 (-1); JNum (-3) 2; JBool true; JNull])
  ∧ JSON.parse " {} " = Normal (JObj ∅)
  ∧ JSON.parse "x" = Throws (SyntaxError "Unexpected token in JSON")
  ∧ JSON.parse "[1,]" = Throws (SyntaxError "Unexpected token in JSON")
  ∧ JSON.parse "01" = Throws (SyntaxError "Unexpected token in JSON")
  ∧ JSON.parse "1 2" = Throws (SyntaxError "Unexpected non-whitespace character after JSON")
  ∧ JSON.parse EmptyString = Throws (SyntaxError "Unexpected token in JSON").
Proof. repeat split; vm_compute; reflexivity. Qed.

Example parseReturnHash_vectors :
  parseReturnHash "#error=access_denied&state=abc&error_description=User+declined"
    = Normal (ParsedReturnError "abc" "access_denied" (Some "User declined"))
  ∧ parseReturnHash "#vp_token=%7B%7D&smart_artifacts=%5B%5D&state=abc"
    = Normal (ParsedReturnSuccess "abc" (JObj ∅) (JArr []))
  ∧ parseReturnHash "#vp_token=%7B%7D&state=abc" = Normal ParsedNull
  ∧ parseReturnHash "#vp_token=%7B%7D&smart_artifacts=%5B%5D" = Normal ParsedNull.
Proof. repeat split; vm_compute; reflexivity. Qed.

Example request_runs :
  snd (request (Demo.env true) Demo.query Demo.opts) = Normal Demo.pending
  ∧ last (fst (request (Demo.env true) Demo.query Demo.opts))
    = Some (FxWindowOpen
        ("https://picker.example.org/?client_id=redirect_uri%3Ahttps%3A%2F%2Fclinic.example.org%2Fportal%2F"
         +:+ "&response_type=vp_token&response_mode=fragment"
         +:+ "&nonce=5b80a5caef14395e83a8cdf2173c6186&state=0b30557a9fc4e90e33587da2c7ec1136"
         +:+ "&dcql_query=%7B%22credentials%22%3A%5B%7B%22meta%22%3A%7B%22profile%22%3A%22http%3A%2F%2Fhl7.org"
         +:+ "%2Ffhir%2Fus%2Finsurance-card%2FStructureDefinition%2FC4DIC-Coverage%22%7D%2C%22id%22%3A%22coverage-1"
         +:+ "%22%2C%22format%22%3A%22smart_artifact%22%7D%5D%7D")).
Proof. split; vm_compute; reflexivity. Qed.

(* ===================================================================== *)
(** * More of the code *)
(* ===================================================================== *)

(* --------------------------------------------------------------------- *)
(** ** generateRandomState *)
(* --------------------------------------------------------------------- *)

(** The two digits of a byte. *)
Lemma hex2_list b :
  list_ascii_of_string (hex2 b)
  = [hex_digit (Byte.to_N b / 16)%N; hex_digit (Byte.to_N b mod 16)%N].
Proof. done. Qed.

Lemma concat_hex2 (l : list byte) :
  list_ascii_of_string (String.concat "" (map hex2 l))
  = flat_map (λ b, [hex_digit (Byte.to_N b / 16)%N; hex_digit (Byte.to_N b mod 16)%N]) l.
Proof.
  induction l as [|b l IH]; [done|].
  destruct l as [|b' l]; [done|].
  change (String.concat "" (map hex2 (b :: b' :: l)))
    with (hex2 b +:+ String.concat "" (map hex2 (b' :: l))).
  set (f := λ b : byte, [hex_digit (Byte.to_N b / 16)%N; hex_digit (Byte.to_N b mod 16)%N]) in *.
  change (flat_map f (b :: b' :: l)) with (f b ++ flat_map f (b' :: l)).
  by rewrite <- IH.
Qed.

Lemma hex_digit_lower d : (d < 16)%N → is_lower_hex (hex_digit d) = true.
Proof.
  intros Hd.
  assert (Hall : forallb (λ d, is_lower_hex (hex_digit d)) (map N.of_nat (seq 0 16)) = true)
    by (vm_compute; reflexivity).
  rewrite forallb_forall in Hall. apply Hall.
  apply in_map_iff. exists (N.to_nat d). split; [lia|]. apply in_seq. lia.
Qed.

Lemma hex_digit_inj d1 d2 : (d1 < 16)%N → (d2 < 16)%N → hex_digit d1 = hex_digit d2 → d1 = d2.
Proof.
  intros H1 H2 He. unfold hex_digit in He.
  apply (f_equal N_of_ascii) in He.
  rewrite !N_ascii_embedding in He
    by (repeat match goal with |- context [(?a <? ?b)%N] => destruct (N.ltb_spec a b) end; lia).
  repeat match goal with H : context [(?a <? ?b)%N] |- _ => destruct (N.ltb_spec a b) end; lia.
Qed.

Lemma byte_bound b : (Byte.to_N b < 256)%N.
Proof. by destruct b. Qed.

Lemma byte_digits_inj b1 b2 :
  (Byte.to_N b1 / 16)%N = (Byte.to_N b2 / 16)%N →
  (Byte.to_N b1 mod 16)%N = (Byte.to_N b2 mod 16)%N → b1 = b2.
Proof.
  intros Hq Hr.
  assert (Byte.to_N b1 = Byte.to_N b2) as Hn.
  { rewrite (N.div_mod (Byte.to_N b1) 16), (N.div_mod (Byte.to_N b2) 16) by lia. congruence. }
  apply (f_equal Byte.of_N) in Hn. rewrite !Byte.of_to_N in Hn. congruence.
Qed.

Lemma digits_inj (l1 l2 : list byte) :
  length l1 = length l2 →
  flat_map (λ b, [hex_digit (Byte.to_N b / 16)%N; hex_digit (Byte.to_N b mod 16)%N]) l1
  = flat_map (λ b, [hex_digit (Byte.to_N b / 16)%N; hex_digit (Byte.to_N b mod 16)%N]) l2 →
  l1 = l2.
Proof.
  revert l2. induction l1 as [|b1 l1 IH]; intros [|b2 l2] Hlen Heq; try done.
  cbn [flat_map app] in Heq. injection Heq as H1 H2 Hrest.
  pose proof (byte_bound b1). pose proof (byte_bound b2).
  apply hex_digit_inj in H1; [|euclid|euclid].
  apply hex_digit_inj in H2; [|euclid|euclid].
  f_equal; [by apply byte_digits_inj|].
  apply IH; [simpl in Hlen; lia|done].
Qed.

Lemma generateRandomState_length env offset :
  String.length (generateRandomState env offset) = 32%nat.
Proof.
  unfold generateRandomState.
  rewrite <- (string_of_list_ascii_of_string (String.concat _ _)).
  rewrite string_of_list_ascii_length, concat_hex2.
  unfold crypto_getRandomValues. generalize (random_bytes env). intros f.
  by cbn.
Qed.

Lemma generateRandomState_truthy env offset :
  str_truthy (generateRandomState env offset) = true.
Proof.
  pose proof (generateRandomState_length env offset) as Hlen.
  by destruct (generateRandomState env offset).
Qed.

(** X1.  A state token (and a nonce) is 32 lower-case hexadecimal digits,
    and two tokens are equal exactly when the sixteen random bytes they
    were made from are equal: the encoding loses nothing of the 128 bits. *)
Theorem generateRandomState_format (env : Env) (offset : nat) :
  String.length (generateRandomState env offset) = 32%nat
  ∧ Forall (λ c, is_lower_hex c = true)
           (list_ascii_of_string (generateRandomState env offset))
  ∧ (∀ env' offset',
       generateRandomState env offset = generateRandomState env' offset'
       ↔ crypto_getRandomValues env offset 16 = crypto_getRandomValues env' offset' 16).
Proof.
  split; [apply generateRandomState_length|]. unfold generateRandomState. split.
  - rewrite concat_hex2. apply Forall_forall. intros c Hc.
    apply list_elem_of_In, in_flat_map in Hc as (b & _ & Hc).
    pose proof (byte_bound b).
    destruct Hc as [<-|[<-|[]]]; apply hex_digit_lower; euclid.
  - intros env' offset'. split; [|by intros ->].
    intros Heq. apply (f_equal list_ascii_of_string) in Heq.
    rewrite !concat_hex2 in Heq. apply digits_inj in Heq; [done|].
    unfold crypto_getRandomValues. by rewrite !length_map, !length_seq.
Qed.

(* --------------------------------------------------------------------- *)
(** ** b64u and ub64 *)
(* --------------------------------------------------------------------- *)

Lemma urlsafe_checked n : (n < 64)%N → urlsafe_check n = true.
Proof.
  intros Hn.
  assert (Hall : forallb urlsafe_check (map N.of_nat (seq 0 64)) = true)
    by (vm_compute; reflexivity).
  rewrite forallb_forall in Hall. apply Hall.
  apply in_map_iff. exists (N.to_nat n). split; [lia|]. apply in_seq. lia.
Qed.

Lemma b64_char_urlsafe n :
  (n < 64)%N →
  is_base64url (to_urlsafe (b64_char n)) = true
  ∧ b64_char n ≠ "-"%char ∧ b64_char n ≠ "_"%char.
Proof.
  intros Hn. pose proof (urlsafe_checked n Hn) as Hc. unfold urlsafe_check in Hc.
  repeat (apply andb_prop in Hc as [Hc ?]).
  repeat split; try done.
  - intros He. rewrite He in *. done.
  - intros He. rewrite He in *. done.
Qed.

Lemma codes_length (buf : list byte) :
  length (codes (string_of_list_byte buf)) = length buf.
Proof.
  unfold codes.
  rewrite length_map.
  rewrite <- (length_map byte_of_ascii).
  change (map byte_of_ascii (list_ascii_of_string ?s)) with (list_byte_of_string s).
  by rewrite list_byte_of_string_of_list_byte.
Qed.

Lemma b64u_chars (buf : list byte) :
  Forall (λ c, is_base64url c = true) (list_ascii_of_string (base64url buf)).
Proof.
  pose proof (sextets_bound _ (codes_bound (string_of_list_byte buf))) as Hsx.
  rewrite b64u_list, list_ascii_of_string_of_list_ascii, map_map. apply Forall_map.
  eapply Forall_impl; [exact Hsx|]. intros n Hn. by apply b64_char_urlsafe.
Qed.

Lemma b64u_length (buf : list byte) :
  String.length (base64url buf) = ((4 * length buf + 2) / 3)%nat.
Proof.
  rewrite b64u_list, string_of_list_ascii_length, !length_map.
  destruct (sextets_length (codes (string_of_list_byte buf))) as (q & r & Hr & Hl & ->).
  rewrite codes_length in Hl. rewrite Hl.
  destruct r as [|[|[|r]]]; [| | |lia]; case_decide; try done.
  - apply (Nat.div_unique _ _ _ 2); lia.
  - apply (Nat.div_unique _ _ _ 0); lia.
  - apply (Nat.div_unique _ _ _ 1); lia.
Qed.

(** X2.  What [b64u] returns has only letters, digits, [-] and [_] (no
    [+], [/] or [=]), and 4n/3 characters, rounded up, for n bytes; and
    [b64u] returns unless the bytes are more than a call may have
    arguments, when it throws a [RangeError]. *)
Theorem b64u_alphabet `{Platform} (buf : list byte) :
  match ZTWR.b64u buf with
  | Normal text =>
      Forall (λ c, is_base64url c = true) (list_ascii_of_string text)
      ∧ String.length text = ((4 * length buf + 2) / 3)%nat
  | Throws e => e = RangeError ∧ too_large buf
  end.
Proof.
  destruct (b64u_cases buf) as [[_ ->]|[Hbig ->]]; [|done].
  split; [apply b64u_chars|apply b64u_length].
Qed.

Lemma append_list s1 s2 :
  list_ascii_of_string (s1 +:+ s2) = list_ascii_of_string s1 ++ list_ascii_of_string s2.
Proof.
  induction s1 as [|c s1 IH]; [done|].
  change (String c s1 +:+ s2) with (String c (s1 +:+ s2)). simpl. by rewrite IH.
Qed.

Lemma append_empty s : s +:+ "" = s.
Proof.
  induction s as [|c s IH]; [done|].
  change (String c s +:+ "") with (String c (s +:+ "")). by rewrite IH.
Qed.

Lemma string_length_list s : String.length s = length (list_ascii_of_string s).
Proof. induction s as [|c s IH]; simpl; [done|]. by rewrite IH. Qed.

Lemma replace_all_chars a b s :
  list_ascii_of_string (replace_all a b s)
  = map (λ c, if Ascii.eqb c a then b else c) (list_ascii_of_string s).
Proof. induction s as [|c s IH]; simpl; [done|]. by rewrite IH. Qed.

(** X3.  [ub64] also reads standard base64 with its padding: it undoes
    [btoa] as it undoes [b64u]. *)
Theorem ub64_btoa (buf : list byte) :
  ZTWR.ub64 (btoa (string_of_list_byte buf)) = Normal buf.
Proof.
  set (bin := string_of_list_byte buf).
  pose proof (sextets_bound _ (codes_bound bin)) as Hsx.
  unfold ZTWR.ub64.
  assert (Hlen : (String.length (btoa bin) mod 4 = 0)%nat).
  { rewrite btoa_list, string_of_list_ascii_length, length_app, length_map, repeat_length.
    destruct (body_padding_lengths bin) as (q & [[-> ->]|[[-> ->]|[-> ->]]]).
    - apply (mod_by _ 4 q 0); lia.
    - apply (mod_by _ 4 (S q) 0); lia.
    - apply (mod_by _ 4 (S q) 0); lia. }
  rewrite Hlen. change (0 =? 0)%nat with true. cbv iota.
  rewrite append_empty.
  assert (Hsame : replace_all "_" "/" (replace_all "-" "+" (btoa bin)) = btoa bin).
  { rewrite btoa_list, !replace_all_list, map_map.
    f_equal. rewrite <- (map_id (_ ++ _)) at 2. apply map_ext_Forall.
    apply Forall_app. split.
    - apply Forall_map. eapply Forall_impl; [exact Hsx|]. intros n Hn. simpl.
      destruct (b64_char_urlsafe n Hn) as (_ & Hm & Hu).
      apply Ascii.eqb_neq in Hm. rewrite Hm.
      apply Ascii.eqb_neq in Hu. by rewrite Hu.
    - apply Forall_forall. intros c Hc. apply list_elem_of_In, repeat_spec in Hc.
      by subst c. }
  rewrite Hsame, atob_btoa.
  unfold bin. by rewrite list_byte_of_string_of_list_byte.
Qed.

(** *** What atob refuses *)

Lemma strip_padding_keeps (d : list ascii) c :
  c ∈ d → c ≠ "="%char → c ∈ strip_padding d.
Proof.
  intros Hin Hne. unfold strip_padding.
  destruct (rev d) as [|c1 r1] eqn:Hrev; [done|].
  assert (Hd : d = rev r1 ++ [c1]).
  { rewrite <- (rev_involutive d), Hrev. done. }
  destruct (Ascii.eqb_spec c1 "="); [|done]. subst c1.
  assert (Hin1 : c ∈ rev r1).
  { rewrite Hd in Hin. apply elem_of_app in Hin as [?|Hin]; [done|].
    apply list_elem_of_singleton in Hin. done. }
  destruct r1 as [|c2 r2]; [done|].
  destruct (Ascii.eqb_spec c2 "="); [|done]. subst c2.
  simpl in Hin1. apply elem_of_app in Hin1 as [?|Hin1]; [done|].
  apply list_elem_of_singleton in Hin1. done.
Qed.

Lemma atob_foreign data c :
  c ∈ list_ascii_of_string data →
  b64_index c = None → c ≠ "="%char → is_ascii_whitespace c = false →
  atob data = Throws InvalidCharacterError.
Proof.
  intros Hin Hidx Hne Hws. unfold atob.
  set (d := List.filter _ _).
  assert (Hd : c ∈ d).
  { apply list_elem_of_In, filter_In. split; [by apply list_elem_of_In|]. by rewrite Hws. }
  assert (Hd' : c ∈ (if (length d mod 4 =? 0)%nat then strip_padding d else d)).
  { destruct (_ =? _)%nat; [by apply strip_padding_keeps|done]. }
  destruct (_ =? 1)%nat; [done|].
  rewrite (mapM_None_2 b64_index); [done|].
  apply Exists_exists. by exists c.
Qed.

Lemma atob_three_pads x : atob (x +:+ "===") = Throws InvalidCharacterError.
Proof.
  unfold atob. rewrite append_list, List.filter_app.
  change (List.filter _ (list_ascii_of_string "==="))
    with (["="; "="; "="]%char).
  set (F := List.filter _ _).
  assert (Hpad : ∀ l, "="%char ∈ l → mapM b64_index l = None).
  { intros l Hl. apply mapM_None_2, Exists_exists. by exists "="%char. }
  destruct (_ =? 0)%nat.
  - assert (Hs : strip_padding (F ++ ["="; "="; "="]%char) = F ++ ["="%char]).
    { unfold strip_padding. rewrite rev_app_distr. simpl.
      rewrite rev_involutive. done. }
    rewrite Hs. destruct (_ =? 1)%nat; [done|].
    rewrite Hpad; [done|]. apply elem_of_app. right. by left.
  - destruct (_ =? 1)%nat; [done|].
    rewrite Hpad; [done|]. apply elem_of_app. right. by left.
Qed.

Lemma foreign_facts c :
  foreign c = true →
  b64_index c = None ∧ c ≠ "="%char ∧ is_ascii_whitespace c = false
  ∧ c ≠ "-"%char ∧ c ≠ "_"%char.
Proof.
  destruct c as [[] [] [] [] [] [] [] []]; vm_compute; intros Hf;
    try discriminate Hf; repeat split; discriminate.
Qed.

Lemma ub64_length_1 s :
  (String.length s mod 4 = 1)%nat → ZTWR.ub64 s = Throws InvalidCharacterError.
Proof.
  intros Hlen. unfold ZTWR.ub64.
  rewrite Hlen. change (1 =? 0)%nat with false. cbv iota.
  change (repeat_char "=" (4 - 1)) with "===".
  by rewrite atob_three_pads.
Qed.

Lemma ub64_foreign s :
  Exists (λ c, foreign c = true) (list_ascii_of_string s) →
  ZTWR.ub64 s = Throws InvalidCharacterError.
Proof.
  intros Hex. unfold ZTWR.ub64.
  apply Exists_exists in Hex as (c & Hin & Hf).
  apply foreign_facts in Hf as (Hidx & Hne & Hws & Hm & Hu).
  rewrite (atob_foreign _ c); try done.
  rewrite append_list, !replace_all_chars, map_map. apply elem_of_app. left.
  apply list_elem_of_In, in_map_iff. exists c. split; [|by apply list_elem_of_In].
  apply Ascii.eqb_neq in Hm. rewrite Hm.
  apply Ascii.eqb_neq in Hu. by rewrite Hu.
Qed.

(** What [ub64] cannot read: a length of 1 modulo 4, or a character that
    no base64 text has. *)
Lemma ub64_invalid s :
  (String.length s mod 4 = 1)%nat
  ∨ Exists (λ c, foreign c = true) (list_ascii_of_string s) →
  ZTWR.ub64 s = Throws InvalidCharacterError.
Proof. intros [?|?]; [by apply ub64_length_1|by apply ub64_foreign]. Qed.

(** X4.  [ub64] refuses, with [InvalidCharacterError], every string whose
    length is 1 modulo 4 and every string with a character that is not of
    the base64 or base64url alphabet, not [=] and not white space; so does
    [decJ], before any JSON is parsed. *)
Theorem ub64_rejects `{Platform} (s : string) :
  (String.length s mod 4 = 1)%nat
  ∨ Exists (λ c, foreign c = true) (list_ascii_of_string s) →
  ZTWR.ub64 s = Throws InvalidCharacterError
  ∧ ZTWR.decJ s = Throws InvalidCharacterError.
Proof.
  intros Hs. apply ub64_invalid in Hs. unfold ZTWR.decJ. by rewrite Hs.
Qed.

Lemma ub64_rejects_witness :
  ZTWR.ub64 "a" = Throws InvalidCharacterError
  ∧ ZTWR.decJ "ab*d" = Throws InvalidCharacterError.
Proof.
  split.
  - apply (ub64_rejects "a"). left. reflexivity.
  - apply (ub64_rejects "ab*d"). right. vm_compute.
    apply Exists_cons_tl, Exists_cons_tl, Exists_cons_hd. reflexivity.
Defined.

(* --------------------------------------------------------------------- *)
(** ** shl.js: the exchange *)
(* --------------------------------------------------------------------- *)

Section ZTWRExchange.
Context `{Platform}.
Import ZTWRFlow.

Lemma ztwr_settled_step p ev :
  is_Some (outcome p) → released (exchange p) → step p ev = p.
Proof.
  intros [o Ho] (Ht & Hc & Hp). destruct p as [[st pr t c w] out]. simpl in *. subst.
  by destruct ev.
Qed.

Lemma ztwr_settled_run p evs :
  is_Some (outcome p) → released (exchange p) → run p evs = p.
Proof.
  intros Ho Hr. induction evs as [|ev evs IH]; [done|].
  unfold run in *. simpl. by rewrite ztwr_settled_step.
Qed.

Lemma ztwr_run_app p evs1 evs2 : run p (evs1 ++ evs2) = run (run p evs1) evs2.
Proof. apply foldl_app. Qed.

Lemma ztwr_settle_cleanup p o :
  outcome p = None →
  settle (cleanup p) o
  = {| exchange := {| ZTWR.ex_state := ZTWR.ex_state (exchange p);
                      ZTWR.ex_protocol := ZTWR.ex_protocol (exchange p);
                      ZTWR.ex_timer := None; ZTWR.ex_chan_open := false;
                      ZTWR.ex_popup_open := false |};
       outcome := Some o |}.
Proof. intros Ho. unfold settle, cleanup. simpl. by rewrite Ho. Qed.

Lemma onmessage_passes p data :
  passes (ZTWR.ex_state (exchange p)) data = true → onmessage p data = p.
Proof.
  unfold passes, onmessage. destruct data as [msg|]; [|done].
  destruct (negb (bool_decide _) || negb (opt_truthy _)); [done|]. simpl.
  destruct (ZTWR.decJ _) as [[| |b|m e|s|l|props]|e]; try done.
  unfold get_prop. by intros ->.
Qed.

(** What a response that does not pass does to a pending exchange. *)
Lemma onmessage_settles p res :
  outcome p = None → str_truthy res = true →
  onmessage p (Some {| zm_state := Some (ZTWR.ex_state (exchange p)); zm_res := Some res |})
  = match ZTWR.decJ res with
    | Throws e => settle (cleanup p) (Rejected e)
    | Normal JUndef =>
        settle (cleanup p)
          (Rejected (TypeError "Cannot read properties of undefined (reading 'state')"))
    | Normal JNull =>
        settle (cleanup p)
          (Rejected (TypeError "Cannot read properties of null (reading 'state')"))
    | Normal ret =>
        if is_string (get_prop ret "state") (ZTWR.ex_state (exchange p))
        then settle (cleanup p) (Resolved (credential (exchange p) ret))
        else p
    end.
Proof.
  intros Ho Hres. unfold onmessage. cbn [zm_state zm_res].
  rewrite (bool_decide_eq_true_2 _ eq_refl). unfold opt_truthy. rewrite Hres.
  cbn [negb orb from_option id].
  destruct (ZTWR.decJ res) as [[| |b|m e|s|l|props]|e]; try done;
    by destruct (is_string _ _).
Qed.

Lemma ztwr_run_passes p pre :
  Forall (λ data, passes (ZTWR.ex_state (exchange p)) data = true) pre →
  run p (map Deliver pre) = p.
Proof.
  induction 1 as [|data pre Hd _ IH]; [done|].
  unfold run in *. simpl. destruct (ZTWR.ex_chan_open _); by rewrite ?onmessage_passes.
Qed.

Lemma waited_nonneg evs : 0 <= waited evs.
Proof. induction evs as [|[| |] evs IH]; simpl; lia. Qed.

Lemma ztwr_run_timer evs : ∀ p r,
  ZTWR.ex_timer (exchange p) = Some r → outcome p = None →
  ZTWR.ex_chan_open (exchange p) = true → 0 < r →
  no_response (ZTWR.ex_state (exchange p)) evs →
  (waited evs < r →
     outcome (run p evs) = None ∧ ZTWR.ex_chan_open (exchange (run p evs)) = true)
  ∧ (r <= waited evs →
     outcome (run p evs) = Some (Rejected (Error "Request timeout after 5 minutes"))
     ∧ released (exchange (run p evs))).
Proof.
  induction evs as [|ev evs IH]; intros p r Ht Ho Hc Hr Hno.
  { simpl. split; [done|lia]. }
  apply Forall_cons in Hno as [Hev Hno].
  change (run p (ev :: evs)) with (run (step p ev) evs).
  destruct ev as [data|dt|].
  - assert (Hstep : step p (Deliver data) = p).
    { simpl. rewrite Hc. apply onmessage_passes. unfold passes.
      destruct data as [msg|]; [|done]. by rewrite bool_decide_eq_false_2. }
    rewrite Hstep. by apply IH.
  - simpl step. rewrite Ht. simpl waited.
    destruct (Z.leb_spec r (Z.of_N dt)) as [Hle|Hgt].
    + pose proof (waited_nonneg evs).
      split; [lia|]. intros _.
      unfold ontimeout. rewrite ztwr_settle_cleanup by done.
      rewrite ztwr_settled_run; [done|by eexists|done].
    + destruct p as [[st pr t c w] out]. simpl in *.
      destruct (IH {| exchange := {| ZTWR.ex_state := st; ZTWR.ex_protocol := pr;
                                     ZTWR.ex_timer := Some (r - Z.of_N dt);
                                     ZTWR.ex_chan_open := c; ZTWR.ex_popup_open := w |};
                      outcome := out |} (r - Z.of_N dt)) as [IH1 IH2]; try done; [lia|].
      split; intros; [apply IH1|apply IH2]; lia.
  - destruct p as [[st pr t c w] out]. simpl in *.
    apply (IH {| exchange := {| ZTWR.ex_state := st; ZTWR.ex_protocol := pr;
                                ZTWR.ex_timer := t; ZTWR.ex_chan_open := c;
                                ZTWR.ex_popup_open := false |};
                 outcome := out |} r); done.
Qed.

Lemma ZTWR_request_exchange env credentialRequest opts fx ex :
  ZTWR.request env credentialRequest opts = (fx, Normal ex) →
  ex = {| ZTWR.ex_state := generateRandomState env 0;
          ZTWR.ex_protocol :=
            get_prop (ZTWR.opt_first
                        (opt_get_prop (opt_get_prop credentialRequest "digital") "requests"))
                     "protocol";
          ZTWR.ex_timer := Some 300000; ZTWR.ex_chan_open := true;
          ZTWR.ex_popup_open := true |}.
Proof.
  unfold ZTWR.request. intros Hreq.
  destruct (negb (truthy _)); [discriminate|].
  destruct (negb (str_truthy _)); [discriminate|].
  destruct (ZTWR.encJ _); [|discriminate].
  destruct (negb (popup_allowed env)); [discriminate|].
  by injection Hreq as _ <-.
Qed.

End ZTWRExchange.

(** *** The timers of the two libraries *)

(** C6 (as amended).  When no message with the awaited state arrives, the
    exchange fails with a timeout error once its timer fires, and not
    before; the subscription is open until then and released then.  The
    timer of [request] of smart-health-checkin.ts is armed with
    [opts.timeout], or with 120000 ms when none is given; this is said of
    a timeout in the range of [setTimeout], from 0 to 2^31 - 1 ms.  The
    timer of [request] of shl.js is armed with 300000 ms, whatever the
    options. *)
Theorem timeout_rejects `{Platform} :
  (∀ (env : Env) (q : jsval) (opts : RequestOptions)
     (fx : list Effect) (ex : Exchange) (evs : list Event),
     request env q opts = (fx, Normal ex) →
     no_matching_message (ex_state ex) evs →
     let T := default 120000 (timeout opts) in
     0 <= T < 2 ^ 31 →
     FxSetTimeout T ∈ fx
     ∧ ex_timer ex = Some T
     ∧ (elapsed evs < T →
        ex_outcome (run ex evs) = None ∧ ex_chan_open (run ex evs) = true)
     ∧ (T <= elapsed evs → ticked evs = true →
        ex_outcome (run ex evs) = Some (Rejected (Error "Request timeout"))
        ∧ ex_chan_open (run ex evs) = false
        ∧ ex_timer (run ex evs) = None))
  ∧ (∀ (env : Env) (credentialRequest : jsval) (opts : option ZTWR.RequestOptions)
       (fx : list Effect) (ex : ZTWR.Exchange) (evs : list ZTWRFlow.Event),
       ZTWR.request env credentialRequest opts = (fx, Normal ex) →
       no_response (ZTWR.ex_state ex) evs →
       let after := ZTWRFlow.run (ZTWRFlow.pending ex) evs in
       FxSetTimeout 300000 ∈ fx
       ∧ ZTWR.ex_timer ex = Some 300000
       ∧ (waited evs < 300000 →
          ZTWRFlow.outcome after = None
          ∧ ZTWR.ex_chan_open (ZTWRFlow.exchange after) = true)
       ∧ (300000 <= waited evs →
          ZTWRFlow.outcome after
          = Some (ZTWRFlow.Rejected (Error "Request timeout after 5 minutes"))
          ∧ ZTWR.ex_chan_open (ZTWRFlow.exchange after) = false
          ∧ ZTWR.ex_timer (ZTWRFlow.exchange after) = None)).
Proof.
  split.
  - intros env q opts fx ex evs Hreq Hno T HT.
    pose proof (request_timer env q opts fx ex evs Hreq Hno) as Htimer.
    cbv zeta in Htimer. fold T in Htimer.
    rewrite (setTimeout_delay_in_range T HT) in Htimer. exact Htimer.
  - intros env creq opts fx ex evs Hreq Hno after.
    destruct (ZTWR_request_timer env creq opts fx ex Hreq) as [Ht Hfx].
    split; [done|]. split; [done|].
    apply ZTWR_request_exchange in Hreq. subst ex.
    destruct (ztwr_run_timer evs
                (ZTWRFlow.pending
                   {| ZTWR.ex_state := generateRandomState env 0;
                      ZTWR.ex_protocol :=
                        get_prop (ZTWR.opt_first
                                    (opt_get_prop (opt_get_prop creq "digital") "requests"))
                                 "protocol";
                      ZTWR.ex_timer := Some 300000; ZTWR.ex_chan_open := true;
                      ZTWR.ex_popup_open := true |}) 300000) as [Hbefore Hafter];
      try done.
    split; [exact Hbefore|]. intros Hge.
    destruct (Hafter Hge) as (Ho & Htm & Hch & _). done.
Qed.

Lemma timeout_rejects_witness :
  let ex := {| ex_state := generateRandomState (Demo.env true) 0;
               ex_rehydrate := true; ex_timer := Some 120000;
               ex_chan_open := true; ex_popup_open := true; ex_outcome := None |} in
  let stray := {| msg_state := Some "ffffffffffffffffffffffffffffffff";
                  msg_error := Some "access_denied";
                  msg_error_description := None;
                  msg_vp_token := None; msg_smart_artifacts := None |} in
  let evs := [Elapse 60000; Deliver (Some stray); Elapse 60000] in
  let after := ZTWRFlow.run (ZTWRFlow.pending Samples.exchange)
                 [ZTWRFlow.Elapse 200000; ZTWRFlow.Elapse 100000] in
  (ex_outcome (run ex evs) = Some (Rejected (Error "Request timeout"))
   ∧ ex_chan_open (run ex evs) = false
   ∧ ex_timer (run ex evs) = None)
  ∧ (ZTWRFlow.outcome after
     = Some (ZTWRFlow.Rejected (Error "Request timeout after 5 minutes"))
     ∧ ZTWR.ex_chan_open (ZTWRFlow.exchange after) = false
     ∧ ZTWR.ex_timer (ZTWRFlow.exchange after) = None).
Proof.
  intros ex stray evs after. split.
  - refine (proj2 (proj2 (proj2
              (proj1 timeout_rejects (Demo.env true) Demo.query Demo.opts
                 (fst (request (Demo.env true) Demo.query Demo.opts)) ex evs _ _ _))) _ _).
    + vm_compute. reflexivity.
    + repeat constructor.
    + vm_compute. split; [discriminate|reflexivity].
    + vm_compute. discriminate.
    + reflexivity.
  - refine (proj2 (proj2 (proj2
              (proj2 timeout_rejects (Demo.env true) Demo.credentialRequest
                 Demo.gateway_opts
                 (fst (ZTWR.request (Demo.env true) Demo.credentialRequest
                         Demo.gateway_opts))
                 Samples.exchange [ZTWRFlow.Elapse 200000; ZTWRFlow.Elapse 100000] _ _))) _).
    + vm_compute. reflexivity.
    + repeat constructor.
    + vm_compute. discriminate.
Defined.

(** C6 as stated fails.  In shl.js no timeout can be given and the
    default is not two minutes: after 120000 ms without a message the
    exchange is still pending, its channel open.  And in
    smart-health-checkin.ts a timeout of 2^31 ms does not wait that long:
    the exchange is rejected as soon as any time has passed. *)
Lemma timeout_rejects_counterexample :
  let after := ZTWRFlow.run (ZTWRFlow.pending Samples.exchange) [ZTWRFlow.Elapse 120000] in
  let opts := {| checkinBase := "https://picker.example.org/"; onRequestStart := None;
                 rehydrate := None; timeout := Some 2147483648 |} in
  let ex := {| ex_state := generateRandomState (Demo.env true) 0;
               ex_rehydrate := true; ex_timer := Some 0;
               ex_chan_open := true; ex_popup_open := true; ex_outcome := None |} in
  (snd (ZTWR.request (Demo.env true) Demo.credentialRequest Demo.gateway_opts)
   = Normal Samples.exchange
   ∧ ZTWRFlow.outcome after = None
   ∧ ZTWR.ex_chan_open (ZTWRFlow.exchange after) = true
   ∧ ZTWR.ex_timer (ZTWRFlow.exchange after) = Some 180000)
  ∧ (snd (request (Demo.env true) Demo.query opts) = Normal ex
     ∧ FxSetTimeout 2147483648 ∈ fst (request (Demo.env true) Demo.query opts)
     ∧ ex_outcome (run ex [Elapse 1]) = Some (Rejected (Error "Request timeout"))).
Proof.
  cbv zeta. repeat split; try (vm_compute; reflexivity).
  apply list_elem_of_In. vm_compute. tauto.
Qed.

(** X5.  shl.js, at most one settlement.  Messages that pass leave a pending
    exchange as it is; the first response that carries the awaited state,
    outside and inside its envelope, resolves it with the payload as JSON
    text and the protocol of the request, and releases timer, channel and
    popup; no later event changes anything. *)
Theorem ZTWR_first_response_wins `{Platform}
    (p : ZTWRFlow.Pending) (pre : list (option ZTWRFlow.Message))
    (res : string) (ret : jsval) (post : list ZTWRFlow.Event) :
  ZTWRFlow.outcome p = None →
  ZTWR.ex_chan_open (ZTWRFlow.exchange p) = true →
  Forall (λ data, passes (ZTWR.ex_state (ZTWRFlow.exchange p)) data = true) pre →
  str_truthy res = true →
  ZTWR.decJ res = Normal ret →
  get_prop ret "state" = JStr (ZTWR.ex_state (ZTWRFlow.exchange p)) →
  let msg := {| ZTWRFlow.zm_state := Some (ZTWR.ex_state (ZTWRFlow.exchange p));
                ZTWRFlow.zm_res := Some res |} in
  let settled := ZTWRFlow.run p (map ZTWRFlow.Deliver pre ++ [ZTWRFlow.Deliver (Some msg)]) in
  ZTWRFlow.run p (map ZTWRFlow.Deliver pre) = p
  ∧ ZTWRFlow.outcome settled = Some (ZTWRFlow.Resolved (credential (ZTWRFlow.exchange p) ret))
  ∧ released (ZTWRFlow.exchange settled)
  ∧ (∀ ev, ZTWRFlow.step settled ev = settled)
  ∧ ZTWRFlow.run p (map ZTWRFlow.Deliver pre ++ ZTWRFlow.Deliver (Some msg) :: post) = settled.
Proof.
  intros Ho Hc Hpre Hres Hdec Hst msg settled.
  pose proof (ztwr_run_passes p pre Hpre) as Hrun.
  assert (Hset : settled
                 = ZTWRFlow.settle (ZTWRFlow.cleanup p)
                     (ZTWRFlow.Resolved (credential (ZTWRFlow.exchange p) ret))).
  { unfold settled. rewrite ztwr_run_app, Hrun.
    change (ZTWRFlow.run p [ZTWRFlow.Deliver (Some msg)])
      with (ZTWRFlow.step p (ZTWRFlow.Deliver (Some msg))).
    cbn [ZTWRFlow.step]. rewrite Hc. unfold msg.
    rewrite onmessage_settles, Hdec by done.
    destruct ret; try discriminate Hst.
    rewrite Hst. unfold ZTWRFlow.is_string. by rewrite String.eqb_refl. }
  rewrite ztwr_settle_cleanup in Hset by done.
  split; [done|]. rewrite Hset. split; [done|]. split; [done|]. split.
  - intros ev. apply ztwr_settled_step; [by eexists|done].
  - rewrite <- Hset.
    change (map ZTWRFlow.Deliver pre ++ ZTWRFlow.Deliver (Some msg) :: post)
      with (map ZTWRFlow.Deliver pre ++ [ZTWRFlow.Deliver (Some msg)] ++ post).
    rewrite app_assoc, ztwr_run_app. fold settled. rewrite Hset.
    apply ztwr_settled_run; [by eexists|done].
Qed.

Lemma ZTWR_first_response_wins_witness :
  let p := ZTWRFlow.pending Samples.exchange in
  let stray := {| ZTWRFlow.zm_state := Some "ffffffffffffffffffffffffffffffff";
                  ZTWRFlow.zm_res := Some (encoded Samples.other_response) |} in
  let inner := {| ZTWRFlow.zm_state := Some Samples.state;
                  ZTWRFlow.zm_res := Some (encoded Samples.other_response) |} in
  let msg := {| ZTWRFlow.zm_state := Some Samples.state;
                ZTWRFlow.zm_res := Some (encoded Samples.response) |} in
  ZTWRFlow.outcome
    (ZTWRFlow.run p (map ZTWRFlow.Deliver [None; Some stray; Some inner]
                       ++ ZTWRFlow.Deliver (Some msg)
                       :: [ZTWRFlow.Deliver (Some inner); ZTWRFlow.Elapse 300000]))
  = Some (ZTWRFlow.Resolved (credential Samples.exchange Samples.response)).
Proof.
  intros p stray inner msg.
  destruct (ZTWR_first_response_wins p [None; Some stray; Some inner]
              (encoded Samples.response) Samples.response
              [ZTWRFlow.Deliver (Some inner); ZTWRFlow.Elapse 300000])
    as (_ & Hout & _ & _ & Hrun);
    [reflexivity | reflexivity
     | repeat constructor; vm_compute; reflexivity
     | vm_compute; reflexivity | vm_compute; reflexivity | reflexivity |].
  exact (eq_trans (f_equal ZTWRFlow.outcome Hrun) Hout).
Defined.

(** X6.  shl.js, a response that cannot be decoded.  A message that
    carries the awaited state and a [res] that is no base64url text is not
    ignored: it rejects the pending exchange with [InvalidCharacterError]
    and releases timer, channel and popup. *)
Theorem ZTWR_undecodable_response_rejects `{Platform}
    (p : ZTWRFlow.Pending) (res : string) :
  ZTWRFlow.outcome p = None →
  ZTWR.ex_chan_open (ZTWRFlow.exchange p) = true →
  (String.length res mod 4 = 1)%nat
  ∨ Exists (λ c, foreign c = true) (list_ascii_of_string res) →
  let msg := {| ZTWRFlow.zm_state := Some (ZTWR.ex_state (ZTWRFlow.exchange p));
                ZTWRFlow.zm_res := Some res |} in
  let rejected := ZTWRFlow.step p (ZTWRFlow.Deliver (Some msg)) in
  ZTWRFlow.outcome rejected = Some (ZTWRFlow.Rejected InvalidCharacterError)
  ∧ released (ZTWRFlow.exchange rejected)
  ∧ ∀ evs, ZTWRFlow.run rejected evs = rejected.
Proof.
  intros Ho Hc Hbad msg rejected.
  assert (Hres : str_truthy res = true).
  { destruct res; [|done]. destruct Hbad as [Hlen|Hex]; [done|]. by apply Exists_nil in Hex. }
  assert (Hrej : rejected
                 = ZTWRFlow.settle (ZTWRFlow.cleanup p) (ZTWRFlow.Rejected InvalidCharacterError)).
  { unfold rejected. cbn [ZTWRFlow.step]. rewrite Hc. unfold msg.
    rewrite onmessage_settles by done.
    unfold ZTWR.decJ. by rewrite ub64_invalid. }
  rewrite ztwr_settle_cleanup in Hrej by done. rewrite Hrej.
  split; [done|]. split; [done|].
  intros evs. apply ztwr_settled_run; [by eexists|done].
Qed.

Lemma ZTWR_undecodable_response_rejects_witness :
  let msg := {| ZTWRFlow.zm_state := Some Samples.state; ZTWRFlow.zm_res := Some "e30=*" |} in
  let rejected := ZTWRFlow.step (ZTWRFlow.pending Samples.exchange)
                    (ZTWRFlow.Deliver (Some msg)) in
  ZTWRFlow.outcome rejected = Some (ZTWRFlow.Rejected InvalidCharacterError)
  ∧ released (ZTWRFlow.exchange rejected)
  ∧ ∀ evs, ZTWRFlow.run rejected evs = rejected.
Proof.
  apply (ZTWR_undecodable_response_rejects (ZTWRFlow.pending Samples.exchange) "e30=*");
    [reflexivity | reflexivity | left; reflexivity].
Defined.

(** X7.  shl.js, the timer.  The exchange [request] returns is pending
    with its channel open while less than five minutes have passed and no
    message carried its state; once five minutes have passed it is
    rejected with the timeout error and timer, channel and popup are
    released. *)
Theorem ZTWR_timeout `{Platform}
    (env : Env) (credentialRequest : jsval) (opts : option ZTWR.RequestOptions)
    (fx : list Effect) (ex : ZTWR.Exchange) (evs : list ZTWRFlow.Event) :
  ZTWR.request env credentialRequest opts = (fx, Normal ex) →
  no_response (ZTWR.ex_state ex) evs →
  let after := ZTWRFlow.run (ZTWRFlow.pending ex) evs in
  (waited evs < 300000 →
     ZTWRFlow.outcome after = None ∧ ZTWR.ex_chan_open (ZTWRFlow.exchange after) = true)
  ∧ (300000 <= waited evs →
     ZTWRFlow.outcome after
     = Some (ZTWRFlow.Rejected (Error "Request timeout after 5 minutes"))
     ∧ released (ZTWRFlow.exchange after)).
Proof.
  intros Hreq Hno after. apply ZTWR_request_exchange in Hreq. subst ex.
  apply ztwr_run_timer; done.
Qed.

Lemma ZTWR_timeout_witness :
  let stray := {| ZTWRFlow.zm_state := Some "ffffffffffffffffffffffffffffffff";
                  ZTWRFlow.zm_res := Some (encoded Samples.other_response) |} in
  let evs := [ZTWRFlow.Elapse 200000; ZTWRFlow.Deliver (Some stray); ZTWRFlow.Elapse 100000] in
  let after := ZTWRFlow.run (ZTWRFlow.pending Samples.exchange) evs in
  ZTWRFlow.outcome after
  = Some (ZTWRFlow.Rejected (Error "Request timeout after 5 minutes"))
  ∧ released (ZTWRFlow.exchange after).
Proof.
  intros stray evs after.
  refine (proj2 (ZTWR_timeout (Demo.env true) Demo.credentialRequest Demo.gateway_opts
                   (fst (ZTWR.request (Demo.env true) Demo.credentialRequest
                           Demo.gateway_opts))
                   Samples.exchange evs _ _) _).
  - vm_compute. reflexivity.
  - repeat constructor. discriminate.
  - vm_compute. discriminate.
Defined.

(* --------------------------------------------------------------------- *)
(** ** shl.js: from the return context to the promise *)
(* --------------------------------------------------------------------- *)

(** *** One parameter whose value needs no escaping *)

Lemma base64url_plain c :
  is_base64url c = true →
  Ascii.eqb c "&" = false ∧ Ascii.eqb c "=" = false
  ∧ Ascii.eqb c "+" = false ∧ Ascii.eqb c "%" = false.
Proof.
  destruct c as [[] [] [] [] [] [] [] []]; vm_compute; intros Hc;
    try discriminate Hc; done.
Qed.

Lemma split_plain (v : list ascii) :
  Forall (λ c, is_base64url c = true) v → URLSearchParams.split "&" v = [v].
Proof.
  induction 1 as [|c v Hc _ IH]; [done|].
  simpl. destruct (base64url_plain c Hc) as (-> & _). by rewrite IH.
Qed.

Lemma decode_plain (v : list ascii) :
  Forall (λ c, is_base64url c = true) v →
  URLSearchParams.percent_decode (URLSearchParams.plus_to_space v) = v.
Proof.
  induction 1 as [|c v Hc _ IH]; [done|].
  destruct (base64url_plain c Hc) as (_ & _ & Hplus & Hpct).
  unfold URLSearchParams.plus_to_space in *. cbn [map]. rewrite Hplus.
  cbn [URLSearchParams.percent_decode]. rewrite Hpct. by rewrite IH.
Qed.

Lemma parse_res (v : string) :
  Forall (λ c, is_base64url c = true) (list_ascii_of_string v) →
  URLSearchParams.parse ("res=" +:+ v) = [("res", v)].
Proof.
  intros Hv. unfold URLSearchParams.parse.
  rewrite append_list.
  change (list_ascii_of_string "res=") with (["r"; "e"; "s"; "="]%char).
  cbn [app].
  assert (Hsplit : URLSearchParams.split "&" ("r" :: "e" :: "s" :: "=" :: list_ascii_of_string v)%char
                   = [("r" :: "e" :: "s" :: "=" :: list_ascii_of_string v)%char]).
  { cbn [URLSearchParams.split]. cbn [Ascii.eqb Bool.eqb]. cbv iota.
    rewrite (split_plain _ Hv). done. }
  rewrite Hsplit. cbn [List.filter length Nat.eqb negb map URLSearchParams.name_value].
  cbn [Ascii.eqb Bool.eqb]. cbv iota.
  unfold URLSearchParams.decode_component.
  rewrite (decode_plain _ Hv), string_of_list_ascii_of_string. done.
Qed.

(** X8.  shl.js, from the return context to the caller.  For the exchange
    [request] returns and a response envelope that carries its state (and
    that JSON represents), [maybeHandleReturn] on the fragment [#res=] with
    the encoded envelope posts one message, with that state and that [res],
    renders, closes the window and returns [true]; the message resolves the
    exchange with the payload as JSON text and releases timer, channel and
    popup. *)
Theorem ZTWR_return_resolves `{Platform}
    (env : Env) (credentialRequest : jsval) (opts : option ZTWR.RequestOptions)
    (fx : list Effect) (ex : ZTWR.Exchange) (ret : jsval) :
  ZTWR.request env credentialRequest opts = (fx, Normal ex) →
  get_prop ret "state" = JStr (ZTWR.ex_state ex) →
  td_decode (te_encode (JSON_stringify ret)) = JSON_stringify ret →
  JSON.parse (JSON_stringify ret) = Normal ret →
  te_encode (JSON_stringify ret) ≠ [] →
  let res := encoded ret in
  let state := JStr (ZTWR.ex_state ex) in
  let after := ZTWRFlow.step (ZTWRFlow.pending ex)
                 (ZTWRFlow.Deliver (Some (ZTWRFlow.posted state res))) in
  ZTWRFlow.maybeHandleReturn ("#res=" +:+ res)
  = ([ZTWRFlow.Post state res; ZTWRFlow.Render; ZTWRFlow.WindowClose], true)
  ∧ ZTWRFlow.outcome after = Some (ZTWRFlow.Resolved (credential ex ret))
  ∧ released (ZTWRFlow.exchange after).
Proof.
  intros Hreq Hst Htext Hjson Hne res state after.
  assert (Hdec : ZTWR.decJ res = Normal ret).
  { by apply decJ_encoded. }
  assert (Hres : str_truthy res = true).
  { pose proof (b64u_length (te_encode (JSON_stringify ret))) as Hlen.
    fold (encoded ret) in Hlen. fold res in Hlen.
    destruct (te_encode (JSON_stringify ret)) as [|b buf]; [done|].
    assert (1 ≤ String.length res)%nat as Hpos.
    { rewrite Hlen. apply Nat.div_le_lower_bound; [lia|]. cbn [length]. lia. }
    destruct res; [simpl in Hpos; lia|done]. }
  assert (Htruthy : str_truthy (ZTWR.ex_state ex) = true).
  { apply ZTWR_request_exchange in Hreq. subst ex. apply generateRandomState_truthy. }
  split.
  - unfold ZTWRFlow.maybeHandleReturn.
    change (ZTWRFlow.slice1 ("#res=" +:+ res)) with ("res=" +:+ res). cbv zeta.
    change (str_truthy ("res=" +:+ res)) with true. cbn [negb].
    rewrite parse_res by apply b64u_chars.
    cbn [URLSearchParams.get String.eqb Ascii.eqb Bool.eqb]. cbv iota.
    destruct res as [|c r] eqn:Hr; [done|]. rewrite Hdec.
    destruct ret; try discriminate Hst.
    unfold opt_get_prop. rewrite Hst. cbn [truthy]. by rewrite Htruthy.
  - unfold after. cbn [ZTWRFlow.step ZTWRFlow.pending ZTWRFlow.exchange].
    assert (Hopen : ZTWR.ex_chan_open ex = true)
      by (apply ZTWR_request_exchange in Hreq; by subst ex).
    rewrite Hopen. unfold ZTWRFlow.posted, state.
    change ({| ZTWRFlow.exchange := ex; ZTWRFlow.outcome := None |})
      with (ZTWRFlow.pending ex).
    change (Some (ZTWR.ex_state ex))
      with (Some (ZTWR.ex_state (ZTWRFlow.exchange (ZTWRFlow.pending ex)))).
    rewrite onmessage_settles, Hdec by done.
    destruct ret; try discriminate Hst.
    rewrite Hst. cbn [ZTWRFlow.is_string ZTWRFlow.exchange ZTWRFlow.pending].
    rewrite String.eqb_refl.
    change ({| ZTWRFlow.exchange := ex; ZTWRFlow.outcome := None |})
      with (ZTWRFlow.pending ex).
    rewrite ztwr_settle_cleanup by done. done.
Qed.

Lemma ZTWR_return_resolves_witness :
  let res := encoded Samples.response in
  let state := JStr Samples.state in
  let after := ZTWRFlow.step (ZTWRFlow.pending Samples.exchange)
                 (ZTWRFlow.Deliver (Some (ZTWRFlow.posted state res))) in
  ZTWRFlow.maybeHandleReturn ("#res=" +:+ res)
  = ([ZTWRFlow.Post state res; ZTWRFlow.Render; ZTWRFlow.WindowClose], true)
  ∧ ZTWRFlow.outcome after
    = Some (ZTWRFlow.Resolved (credential Samples.exchange Samples.response))
  ∧ released (ZTWRFlow.exchange after).
Proof.
  refine (ZTWR_return_resolves (Demo.env true) Demo.credentialRequest Demo.gateway_opts
            (fst (ZTWR.request (Demo.env true) Demo.credentialRequest Demo.gateway_opts))
            Samples.exchange Samples.response _ _ _ _ _);
    vm_compute; first [reflexivity | discriminate].
Defined.

(* --------------------------------------------------------------------- *)
(** ** smart-health-checkin.ts: the return context *)
(* --------------------------------------------------------------------- *)

(** *** What parseReturnHash makes of the parameters *)

Lemma fragment_with_state hash st :
  URLSearchParams.get (fragment_params hash) "state" = Some st →
  (negb (str_truthy hash) || String.eqb hash "#") = false.
Proof.
  destruct hash as [|c [|c' r]]; [done| |].
  - destruct (Ascii.eqb_spec c "#") as [->|Hc]; [done|].
    intros _. simpl. by apply Ascii.eqb_neq in Hc as ->.
  - intros _. simpl. by destruct (Ascii.eqb c "#").
Qed.

Lemma fragment_params_eq hash :
  fragment_params hash
  = URLSearchParams.parse (match hash with
                           | String "#" r => r
                           | _ => hash
                           end).
Proof. done. Qed.

Lemma parseReturnHash_error hash st err :
  URLSearchParams.get (fragment_params hash) "state" = Some st →
  str_truthy st = true →
  URLSearchParams.get (fragment_params hash) "error" = Some err →
  str_truthy err = true →
  let description := URLSearchParams.get (fragment_params hash) "error_description" in
  parseReturnHash hash
  = Normal (ParsedReturnError st err (if opt_truthy description then description else None)).
Proof.
  intros Hst Hs Herr He description. unfold parseReturnHash.
  rewrite (fragment_with_state hash st Hst). rewrite <- fragment_params_eq.
  rewrite Hst, Hs, Herr. cbn [negb]. by destruct err.
Qed.

Lemma parseReturnHash_success hash st vpToken smartArtifacts vp sa :
  URLSearchParams.get (fragment_params hash) "state" = Some st →
  str_truthy st = true →
  opt_truthy (URLSearchParams.get (fragment_params hash) "error") = false →
  URLSearchParams.get (fragment_params hash) "vp_token" = Some vpToken →
  URLSearchParams.get (fragment_params hash) "smart_artifacts" = Some smartArtifacts →
  JSON.parse vpToken = Normal vp →
  JSON.parse smartArtifacts = Normal sa →
  parseReturnHash hash = Normal (ParsedReturnSuccess st vp sa).
Proof.
  intros Hst Hs Herr Hvp Hsa Hpvp Hpsa. unfold parseReturnHash.
  rewrite (fragment_with_state hash st Hst). rewrite <- fragment_params_eq.
  rewrite Hst, Hs, Hvp, Hsa. cbn [negb].
  assert (vpToken ≠ "") as Hv by (intros ->; vm_compute in Hpvp; discriminate).
  assert (smartArtifacts ≠ "") as Ha by (intros ->; vm_compute in Hpsa; discriminate).
  destruct (URLSearchParams.get (fragment_params hash) "error") as [[|c e]|];
    try discriminate Herr;
    destruct vpToken; try done; destruct smartArtifacts; try done;
    by rewrite Hpvp, Hpsa.
Qed.

(** The state of a parsed return is the state parameter, and never empty. *)
Lemma parseReturnHash_state hash parsed :
  parseReturnHash hash = Normal parsed →
  match parsed with
  | ParsedReturnSuccess st _ _ | ParsedReturnError st _ _ =>
      URLSearchParams.get (fragment_params hash) "state" = Some st ∧ str_truthy st = true
  | ParsedNull => True
  end.
Proof.
  unfold parseReturnHash.
  destruct (negb (str_truthy hash) || String.eqb hash "#"); [by intros [= <-]|].
  rewrite <- fragment_params_eq.
  destruct (URLSearchParams.get (fragment_params hash) "state") as [st|]; [|by intros [= <-]].
  destruct (str_truthy st) eqn:Hs; [|by intros [= <-]]. cbn [negb].
  destruct (URLSearchParams.get _ "error") as [[|c e]|].
  2: by intros [= <-].
  all: destruct (URLSearchParams.get _ "vp_token") as [[|c1 v]|]; try by intros [= <-].
  all: destruct (URLSearchParams.get _ "smart_artifacts") as [[|c2 a]|]; try by intros [= <-].
  all: destruct (JSON.parse (String c1 v)); try done.
  all: destruct (JSON.parse (String c2 a)); try done.
  all: by intros [= <-].
Qed.

(** *** The message on the channel *)

Lemma as_optional_some {A} (read : jsval → option A) v x :
  read v = Some x → v ≠ JUndef → as_optional read (Some v) = Some (Some x).
Proof. intros Hr Hv. destruct v; try done; simpl; by rewrite Hr. Qed.

Lemma broadcast_error_message st err description :
  typed_message (<["error" := JStr err]>
                   (<["error_description" := Return.opt_value description]> ∅)
                 ∪ {["state" := JStr st]})
  = Some {| msg_state := Some st; msg_error := Some err;
            msg_error_description := description;
            msg_vp_token := None; msg_smart_artifacts := None |}.
Proof.
  unfold typed_message. rewrite !lookup_union. simplify_map_eq.
  by destruct description.
Qed.

Lemma broadcast_success_message st vp sa VP :
  as_vp_token vp = Some VP →
  typed_message (<["vp_token" := vp]> (<["smart_artifacts" := JArr sa]> ∅)
                 ∪ {["state" := JStr st]})
  = Some {| msg_state := Some st; msg_error := None; msg_error_description := None;
            msg_vp_token := Some VP; msg_smart_artifacts := Some sa |}.
Proof.
  intros Hvp. set (m := _ ∪ _).
  assert (H1 : m !! "state" = Some (JStr st))
    by (unfold m; rewrite lookup_union; by simplify_map_eq).
  assert (H2 : m !! "error" = None)
    by (unfold m; rewrite lookup_union; by simplify_map_eq).
  assert (H3 : m !! "error_description" = None)
    by (unfold m; rewrite lookup_union; by simplify_map_eq).
  assert (H4 : m !! "vp_token" = Some vp)
    by (unfold m; rewrite lookup_union; by simplify_map_eq).
  assert (H5 : m !! "smart_artifacts" = Some (JArr sa))
    by (unfold m; rewrite lookup_union; by simplify_map_eq).
  unfold typed_message. rewrite H1, H2, H3, H4, H5.
  rewrite (as_optional_some as_vp_token vp VP) by (try done; by destruct vp).
  done.
Qed.

Lemma other_state_ignored other msg st :
  msg_state msg = Some st → ex_state other ≠ st →
  step other (Deliver (Some msg)) = other.
Proof.
  intros Hmsg Hother. cbn [step]. destruct (ex_chan_open other); [|done].
  apply onmessage_mismatch. unfold state_matches. rewrite Hmsg.
  apply String.eqb_neq. congruence.
Qed.

(** X9.  The return context either is none or reports once.  When
    [maybeHandleReturn] returns [false] it has done nothing and the
    fragment is no protocol return; when it returns [true] it has posted
    exactly one message, on the channel named after the state parameter and
    carrying that state, followed by the page and the closing of the window
    unless [renderUI] is [false]. *)
Theorem maybeHandleReturn_reports_once
    (hash : string) (opts : Return.HandleReturnOptions)
    (fx : list Return.Effect) (handled : bool) :
  Return.maybeHandleReturn hash opts = Normal (fx, handled) →
  if handled
  then ∃ st m rest,
         fx = Return.Post ("shl-" +:+ st) m :: rest
         ∧ URLSearchParams.get (fragment_params hash) "state" = Some st
         ∧ str_truthy st = true
         ∧ m !! "state" = Some (JStr st)
         ∧ (Return.renderUI opts = Some false → rest = [])
         ∧ (Return.renderUI opts ≠ Some false →
            ∃ ok text, rest = [Return.Render ok text; Return.WindowClose])
  else fx = [] ∧ parseReturnHash hash = Normal ParsedNull.
Proof.
  unfold Return.maybeHandleReturn.
  destruct (parseReturnHash hash) as [parsed|e] eqn:Hparse; [|done].
  apply parseReturnHash_state in Hparse.
  destruct parsed as [st vp sa|st err description|]; intros [= <- <-]; [| |done].
  - destruct Hparse as [Hst Hs]. eexists st, _, _. split; [done|].
    split; [done|]. split; [done|]. split.
    { rewrite lookup_union. by simplify_map_eq. }
    destruct (Return.renderUI opts) as [[]|]; split; try done; by eauto.
  - destruct Hparse as [Hst Hs]. eexists st, _, _. split; [done|].
    split; [done|]. split; [done|]. split.
    { rewrite lookup_union. by simplify_map_eq. }
    destruct (Return.renderUI opts) as [[]|]; split; try done; by eauto.
Qed.

Lemma maybeHandleReturn_reports_once_witness :
  ∃ st m rest,
    [Return.Post ("shl-" +:+ Samples.state)
       (<["error" := JStr "access_denied"]>
          (<["error_description" := JStr "The user declined"]> ∅)
        ∪ {["state" := JStr Samples.state]})]
    = Return.Post ("shl-" +:+ st) m :: rest
    ∧ URLSearchParams.get (fragment_params Samples.declined_hash) "state" = Some st
    ∧ str_truthy st = true
    ∧ m !! "state" = Some (JStr st)
    ∧ (Return.renderUI (Samples.options (Some false)) = Some false → rest = [])
    ∧ (Return.renderUI (Samples.options (Some false)) ≠ Some false →
       ∃ ok text, rest = [Return.Render ok text; Return.WindowClose]).
Proof.
  apply (maybeHandleReturn_reports_once Samples.declined_hash (Samples.options (Some false))
           _ true).
  vm_compute. reflexivity.
Defined.

(** X10.  A refusal reaches the caller, and no one else.  For a fragment
    with a state and an error, whatever else it holds, [maybeHandleReturn]
    posts on the channel of that state a message which, delivered to the
    pending exchange that awaits the state, rejects it with the error as
    code, the description (the error when there is none) as message, and
    releases timer, channel and popup; an exchange that awaits another
    state is left as it is. *)
Theorem declined_return_rejects
    (hash st err : string) (opts : Return.HandleReturnOptions) (ex : Exchange) :
  URLSearchParams.get (fragment_params hash) "state" = Some st →
  str_truthy st = true →
  URLSearchParams.get (fragment_params hash) "error" = Some err →
  str_truthy err = true →
  ex_state ex = st → ex_outcome ex = None → ex_chan_open ex = true →
  let description := URLSearchParams.get (fragment_params hash) "error_description" in
  ∃ m rest msg,
    Return.maybeHandleReturn hash opts
    = Normal (Return.Post ("shl-" +:+ ex_state ex) m :: rest, true)
    ∧ typed_message m = Some msg
    ∧ ex_outcome (step ex (Deliver (Some msg)))
      = Some (Rejected {| err_name := "Error";
                          err_message := if opt_truthy description
                                         then default err description else err;
                          err_code := Some err;
                          err_state := Some st |})
    ∧ finished (step ex (Deliver (Some msg)))
    ∧ ∀ other, ex_state other ≠ st → step other (Deliver (Some msg)) = other.
Proof.
  intros Hst Hs Herr He Hex Ho Hc description.
  pose proof (parseReturnHash_error hash st err Hst Hs Herr He) as Hparse.
  cbv zeta in Hparse. fold description in Hparse.
  unfold Return.maybeHandleReturn. rewrite Hparse. unfold Return.broadcastResponse.
  eexists _, _, _. split; [by rewrite Hex|].
  split; [apply broadcast_error_message|].
  set (d := if opt_truthy description then description else None).
  assert (Hstep : step ex (Deliver (Some {| msg_state := Some st; msg_error := Some err;
                                            msg_error_description := d;
                                            msg_vp_token := None;
                                            msg_smart_artifacts := None |}))
                  = settle (cleanup ex) (Rejected (SHLError st err d))).
  { cbn [step]. rewrite Hc. unfold onmessage.
    cbn [msg_state msg_error msg_error_description].
    rewrite Hex, String.eqb_refl. cbn [negb]. by destruct err. }
  rewrite Hstep. split; [|split].
  - rewrite settle_cleanup_outcome by done. unfold SHLError, d.
    by destruct description as [[|c' s]|].
  - by apply finished_cleanup_settle.
  - intros other Hother. by apply (other_state_ignored other _ st).
Qed.

Lemma declined_return_rejects_witness :
  ∃ m rest msg,
    Return.maybeHandleReturn Samples.declined_hash (Samples.options None)
    = Normal (Return.Post ("shl-" +:+ ex_state Demo.pending) m :: rest, true)
    ∧ typed_message m = Some msg
    ∧ ex_outcome (step Demo.pending (Deliver (Some msg)))
      = Some (Rejected {| err_name := "Error";
                          err_message := "The user declined";
                          err_code := Some "access_denied";
                          err_state := Some Samples.state |})
    ∧ finished (step Demo.pending (Deliver (Some msg)))
    ∧ ∀ other, ex_state other ≠ Samples.state → step other (Deliver (Some msg)) = other.
Proof.
  apply (declined_return_rejects Samples.declined_hash Samples.state "access_denied"
           (Samples.options None) Demo.pending);
    vm_compute; reflexivity.
Defined.

(** X11.  A result reaches the caller, and no one else.  For a fragment
    with a state, no error, and [vp_token] and [smart_artifacts] parameters
    that are JSON of the declared types, [maybeHandleReturn] posts on the
    channel of that state a message which, delivered to the pending
    exchange that awaits the state, resolves it with the response of that
    state, token and artifacts, rehydrated when the exchange asks for it,
    and releases timer, channel and popup; an exchange that awaits another
    state is left as it is. *)
Theorem success_return_resolves
    (hash st vpToken smartArtifacts : string) (vp : jsval) (sa : list jsval) (VP : VPToken)
    (opts : Return.HandleReturnOptions) (ex : Exchange) :
  URLSearchParams.get (fragment_params hash) "state" = Some st →
  str_truthy st = true →
  opt_truthy (URLSearchParams.get (fragment_params hash) "error") = false →
  URLSearchParams.get (fragment_params hash) "vp_token" = Some vpToken →
  URLSearchParams.get (fragment_params hash) "smart_artifacts" = Some smartArtifacts →
  JSON.parse vpToken = Normal vp → as_vp_token vp = Some VP →
  JSON.parse smartArtifacts = Normal (JArr sa) →
  ex_state ex = st → ex_outcome ex = None → ex_chan_open ex = true →
  let response := {| state := st; vp_token := VP; smart_artifacts := sa |} in
  ∃ m rest msg,
    Return.maybeHandleReturn hash opts
    = Normal (Return.Post ("shl-" +:+ ex_state ex) m :: rest, true)
    ∧ typed_message m = Some msg
    ∧ ex_outcome (step ex (Deliver (Some msg)))
      = Some (Resolved (if ex_rehydrate ex
                        then Rehydrated (rehydrateResponse response)
                        else Raw response))
    ∧ finished (step ex (Deliver (Some msg)))
    ∧ ∀ other, ex_state other ≠ st → step other (Deliver (Some msg)) = other.
Proof.
  intros Hst Hs Herr Hvp Hsa Hpvp HVP Hpsa Hex Ho Hc response.
  pose proof (parseReturnHash_success hash st _ _ _ _ Hst Hs Herr Hvp Hsa Hpvp Hpsa) as Hparse.
  unfold Return.maybeHandleReturn. rewrite Hparse. unfold Return.broadcastResponse.
  eexists _, _, _. split; [by rewrite Hex|].
  split; [by apply broadcast_success_message|].
  assert (Hstep : step ex (Deliver (Some {| msg_state := Some st; msg_error := None;
                                            msg_error_description := None;
                                            msg_vp_token := Some VP;
                                            msg_smart_artifacts := Some sa |}))
                  = settle (cleanup ex)
                      (Resolved (if ex_rehydrate ex
                                 then Rehydrated (rehydrateResponse response)
                                 else Raw response))).
  { cbn [step]. rewrite Hc. unfold onmessage.
    cbn [msg_state msg_error msg_vp_token msg_smart_artifacts].
    by rewrite Hex, String.eqb_refl. }
  rewrite Hstep. split; [by rewrite settle_cleanup_outcome|].
  split; [by apply finished_cleanup_settle|].
  intros other Hother. by apply (other_state_ignored other _ st).
Qed.

Lemma success_return_resolves_witness :
  let response := {| state := Samples.state;
                     vp_token := <["coverage-1" := [ {| artifact := 0 |} ]]> ∅;
                     smart_artifacts := [Artifact fhir_resource Samples.coverage] |} in
  ∃ m rest msg,
    Return.maybeHandleReturn Samples.success_hash (Samples.options None)
    = Normal (Return.Post ("shl-" +:+ ex_state Demo.pending) m :: rest, true)
    ∧ typed_message m = Some msg
    ∧ ex_outcome (step Demo.pending (Deliver (Some msg)))
      = Some (Resolved (if ex_rehydrate Demo.pending
                        then Rehydrated (rehydrateResponse response)
                        else Raw response))
    ∧ finished (step Demo.pending (Deliver (Some msg)))
    ∧ ∀ other, ex_state other ≠ Samples.state → step other (Deliver (Some msg)) = other.
Proof.
  intros response.
  refine (success_return_resolves Samples.success_hash Samples.state
            (default "" (URLSearchParams.get (fragment_params Samples.success_hash) "vp_token"))
            (default "" (URLSearchParams.get (fragment_params Samples.success_hash)
                           "smart_artifacts"))
            (Demo.obj [("coverage-1", JArr [Demo.obj [("artifact", JNum 0 0)]])])
            [Artifact fhir_resource Samples.coverage]
            (<["coverage-1" := [ {| artifact := 0 |} ]]> ∅)
            (Samples.options None) Demo.pending _ _ _ _ _ _ _ _ _ _ _);
    vm_compute; reflexivity.
Defined.

(* --------------------------------------------------------------------- *)
(** ** smart-health-checkin.ts: the life of an exchange *)
(* --------------------------------------------------------------------- *)

Lemma step_waiting_or_finished ex ev :
  waiting ex ∨ finished ex → waiting (step ex ev) ∨ finished (step ex ev).
Proof.
  intros [(Ho & Hc & [r Ht])|Hfin]; [|right; by rewrite step_finished].
  destruct ev as [data|dt|].
  - simpl. rewrite Hc.
    destruct (effective (ex_state ex) data) eqn:He.
    + destruct data as [msg|]; [|done]. rewrite onmessage_effective by done.
      right. by apply finished_cleanup_settle.
    + rewrite onmessage_ineffective by done. left. by repeat split; eauto.
  - simpl. rewrite Ht. destruct (r <=? Z.of_N dt).
    + right. by apply finished_ontimeout.
    + left. by repeat split; eauto.
  - left. by repeat split; eauto.
Qed.

Lemma run_waiting_or_finished ex evs :
  waiting ex ∨ finished ex → waiting (run ex evs) ∨ finished (run ex evs).
Proof.
  revert ex. induction evs as [|ev evs IH]; intros ex Hex; [done|].
  change (run ex (ev :: evs)) with (run (step ex ev) evs).
  by apply IH, step_waiting_or_finished.
Qed.

Lemma request_waiting `{Platform} env q opts fx ex :
  request env q opts = (fx, Normal ex) → waiting ex.
Proof.
  intros Hreq. destruct (request_cases env q opts) as
    [(m & Hr & _)|[(fx' & e & Hr & _)|[(fx' & Hr & _)|(fx' & url & Hr & _)]]];
    rewrite Hr in Hreq; try discriminate Hreq.
  injection Hreq as _ <-. by repeat split; eauto.
Qed.

(** *** Messages of any type *)

(** What the handler can make of an exchange: nothing, or [cleanup()] and
    then perhaps a settlement. *)
Lemma untyped_onmessage_cases ex msg :
  match Untyped.onmessage ex msg with
  | Some after => after = ex ∨ after = cleanup ex ∨ ∃ o, after = settle (cleanup ex) o
  | None => True
  end.
Proof.
  unfold Untyped.onmessage.
  repeat case_match; simplify_eq;
    first [done | by left | by right; left | right; right; by eexists].
Qed.

Lemma cleaned_cleanup ex : cleaned (cleanup ex).
Proof. done. Qed.

Lemma cleaned_settle ex o : cleaned ex → cleaned (settle ex o).
Proof. unfold settle. by destruct (ex_outcome ex). Qed.

(** After [cleanup()] no event changes anything. *)
Lemma follows_cleaned ex ev ex' : cleaned ex → follows ex ev ex' → ex' = ex.
Proof.
  intros (Ht & Hc & Hp). unfold follows.
  destruct ex as [st rh tm ch pop out]. simpl in *. subst.
  by destruct ev.
Qed.

Lemma reaches_cleaned ex evs ex' : cleaned ex → reaches ex evs ex' → ex' = ex.
Proof.
  intros Hcl Hr. induction Hr as [|ex ev ex1 evs ex' Hf _ IH]; [done|].
  apply (follows_cleaned _ _ _ Hcl) in Hf. subst ex1. by apply IH.
Qed.

Lemma follows_waiting_or_cleaned ex ev ex' :
  waiting ex ∨ cleaned ex → follows ex ev ex' → waiting ex' ∨ cleaned ex'.
Proof.
  intros [(Ho & Hc & [r Ht])|Hcl] Hf.
  2: { right. by rewrite (follows_cleaned _ _ _ Hcl Hf). }
  unfold follows in Hf. destruct ev as [data|dt|]; cbn [Untyped.step] in Hf.
  - rewrite Hc in Hf. pose proof (untyped_onmessage_cases ex data) as Hcases.
    destruct (Untyped.onmessage ex data) as [after|].
    + subst ex'. destruct Hcases as [->|[->|[o ->]]].
      * left. by repeat split; eauto.
      * by right.
      * right. by apply cleaned_settle.
    + destruct Hf as [->|[o ->]]; right; [done|by apply cleaned_settle].
  - subst ex'. cbn [step]. rewrite Ht. destruct (r <=? Z.of_N dt).
    + right. by apply cleaned_settle.
    + left. by repeat split; eauto.
  - subst ex'. left. by repeat split; eauto.
Qed.

Lemma reaches_waiting_or_cleaned ex evs ex' :
  waiting ex ∨ cleaned ex → reaches ex evs ex' → waiting ex' ∨ cleaned ex'.
Proof.
  intros Hex Hr. induction Hr as [|ex ev ex1 evs ex' Hf _ IH]; [done|].
  by apply IH, (follows_waiting_or_cleaned ex ev).
Qed.

(** A run the model follows throughout is one of the runs. *)
Lemma run_reaches evs : ∀ ex ex', Untyped.run ex evs = Some ex' → reaches ex evs ex'.
Proof.
  induction evs as [|ev evs IH]; intros ex ex' Hrun.
  - injection Hrun as <-. constructor.
  - cbn [Untyped.run] in Hrun. destruct (Untyped.step ex ev) as [ex1|] eqn:Hstep; [|done].
    apply (reaches_cons ex ev ex1); [|by apply IH]. unfold follows. by rewrite Hstep.
Qed.

(** X12.  An exchange that has settled holds nothing, and one whose
    channel is closed never changes.  Whatever events follow [request],
    messages being any values: while the channel is open the promise is
    pending and the timer armed; otherwise [cleanup()] has run, the timer is
    cleared, the channel and the popup are closed, and no further event
    changes the outcome or anything else.  A settled promise is in the
    second case. *)
Theorem exchange_released_when_settled `{Platform}
    (env : Env) (q : jsval) (opts : RequestOptions) (fx : list Effect) (ex : Exchange)
    (evs : list Untyped.Event) (ex' : Exchange) :
  request env q opts = (fx, Normal ex) →
  reaches ex evs ex' →
  (ex_chan_open ex' = true → ex_outcome ex' = None ∧ is_Some (ex_timer ex'))
  ∧ (is_Some (ex_outcome ex') → ex_chan_open ex' = false)
  ∧ (ex_chan_open ex' = false →
     ex_timer ex' = None ∧ ex_popup_open ex' = false
     ∧ ∀ later ex'', reaches ex' later ex'' → ex'' = ex').
Proof.
  intros Hreq Hr. apply request_waiting in Hreq.
  destruct (reaches_waiting_or_cleaned ex evs ex' (or_introl Hreq) Hr)
    as [(Ho & Hc & Ht)|Hcl].
  - split; [done|]. split; [rewrite Ho; by intros [? ?]|]. by rewrite Hc.
  - pose proof Hcl as (Ht & Hc & Hp). split; [by rewrite Hc|]. split; [done|].
    intros _. repeat split; try done.
    intros later ex'' Hl. by apply (reaches_cleaned ex' later).
Qed.

Lemma exchange_released_when_settled_witness :
  let evs := [Untyped.Elapse 1000; Untyped.Deliver Samples.valid_result] in
  ∃ ex', Untyped.run Demo.pending evs = Some ex'
         ∧ is_Some (ex_outcome ex')
         ∧ ex_chan_open ex' = false.
Proof.
  intros evs.
  destruct (Untyped.run Demo.pending evs) as [ex'|] eqn:Hrun; [|by vm_compute in Hrun].
  exists ex'. split; [done|].
  assert (Hout : is_Some (ex_outcome ex')).
  { vm_compute in Hrun. injection Hrun as <-. by eexists. }
  split; [done|].
  refine (proj1 (proj2 (exchange_released_when_settled (Demo.env true) Demo.query Demo.opts
                   (fst (request (Demo.env true) Demo.query Demo.opts))
                   Demo.pending evs ex' _ (run_reaches _ _ _ Hrun))) Hout).
  vm_compute. reflexivity.
Defined.

(** C1, where the code departs from it.  The exchange of [request] awaits
    a state; a first message carries that state and both [vp_token] and
    [smart_artifacts], the token mapping an id to a number.  The handler
    runs [cleanup()], [rehydrateResponse] throws, and the promise is not
    settled: the outcome is derived from no message.  The result of the
    declared shape that comes next, which alone resolves the exchange, is
    not received, the channel being closed; nor does the timer fire, being
    cleared: no event settles the promise any more. *)
Theorem first_message_lost :
  let ex := Demo.pending in
  snd (request (Demo.env true) Demo.query Demo.opts) = Normal ex
  ∧ ex_outcome <$> Untyped.run ex [Untyped.Deliver Samples.valid_result]
    = Some (Some (Resolved (Rehydrated
        {| rr_state := Samples.state;
           rr_vp_token := <["coverage-1" := [ {| artifact := 0 |} ]]> ∅;
           rr_smart_artifacts := [Artifact fhir_resource Samples.coverage];
           credentials := <["coverage-1" := [Samples.coverage]]> ∅ |})))
  ∧ Untyped.run ex [Untyped.Deliver Samples.malformed_result] = Some (cleanup ex)
  ∧ ex_outcome (cleanup ex) = None
  ∧ ex_chan_open (cleanup ex) = false
  ∧ ex_timer (cleanup ex) = None
  ∧ Untyped.run ex [Untyped.Deliver Samples.malformed_result;
                    Untyped.Deliver Samples.valid_result; Untyped.Elapse 120000]
    = Some (cleanup ex)
  ∧ ∀ evs ex', reaches (cleanup ex) evs ex' → ex' = cleanup ex.
Proof.
  cbv zeta. repeat split; try (vm_compute; reflexivity).
  intros evs ex'. by apply reaches_cleaned.
Qed.

(** X13.  The [rehydrate] option.  A success message for the exchange
    [request] returns resolves it with the response as received when the
    option is [false], and with the response and its [credentials]
    otherwise, the option being absent or [true]. *)
Theorem request_rehydrate_option `{Platform}
    (env : Env) (q : jsval) (opts : RequestOptions) (fx : list Effect) (ex : Exchange)
    (msg : RelayMessage) (vp : VPToken) (sa : list jsval) :
  request env q opts = (fx, Normal ex) →
  msg_state msg = Some (ex_state ex) →
  opt_truthy (msg_error msg) = false →
  msg_vp_token msg = Some vp →
  msg_smart_artifacts msg = Some sa →
  let response := {| state := ex_state ex; vp_token := vp; smart_artifacts := sa |} in
  ex_outcome (step ex (Deliver (Some msg)))
  = Some (Resolved (match rehydrate opts with
                    | Some false => Raw response
                    | _ => Rehydrated (rehydrateResponse response)
                    end)).
Proof.
  intros Hreq Hst Herr Hvp Hsa response.
  destruct (request_cases env q opts) as
    [(m & Hr & _)|[(fx' & e & Hr & _)|[(fx' & Hr & _)|(fx' & url & Hr & _)]]];
    rewrite Hr in Hreq; try discriminate Hreq.
  injection Hreq as _ <-. cbn [step ex_chan_open]. unfold onmessage.
  rewrite Hst, Hvp, Hsa. cbn [ex_state]. rewrite String.eqb_refl. cbn [negb].
  assert (Hout : ∀ o, ex_outcome (settle (cleanup
            {| ex_state := generateRandomState env 0;
               ex_rehydrate := match rehydrate opts with Some false => false | _ => true end;
               ex_timer := Some (default 120000 (timeout opts));
               ex_chan_open := true; ex_popup_open := true; ex_outcome := None |}) o)
          = Some o) by done.
  destruct (msg_error msg) as [[|c e]|]; try discriminate Herr;
    rewrite Hout; cbn [ex_rehydrate]; by destruct (rehydrate opts) as [[]|].
Qed.

Lemma request_rehydrate_option_witness :
  let raw := {| checkinBase := "https://picker.example.org/"; onRequestStart := None;
                rehydrate := Some false; timeout := None |} in
  ex_outcome (step {| ex_state := generateRandomState (Demo.env true) 0;
                      ex_rehydrate := false; ex_timer := Some 120000;
                      ex_chan_open := true; ex_popup_open := true; ex_outcome := None |}
                   (Deliver (Some (Demo.success Samples.coverage))))
  = Some (Resolved (Raw {| state := generateRandomState (Demo.env true) 0;
                           vp_token := <["coverage-1" := [ {| artifact := 0 |} ]]> ∅;
                           smart_artifacts := [Artifact fhir_resource Samples.coverage] |})).
Proof.
  intros raw.
  refine (request_rehydrate_option (Demo.env true) Demo.query raw
            (fst (request (Demo.env true) Demo.query raw)) _
            (Demo.success Samples.coverage) _ _ _ _ _ _ _);
    vm_compute; reflexivity.
Defined.

(** X14.  The [onRequestStart] callback.  When the base address and the
    query are accepted, the callback is called once, after the channel is
    open and the timer armed and before any popup, with the state of the
    channel, the nonce and the query; if it throws, [request] fails with
    its exception, opens no popup, and leaves the channel open. *)
Theorem onRequestStart_before_popup `{Platform}
    (env : Env) (q : jsval) (opts : RequestOptions)
    (callback : OID4VPRequestParams → completion unit) :
  str_truthy (strip_trailing "/" (checkinBase opts)) = true →
  query_accepted q = true →
  onRequestStart opts = Some callback →
  let st := generateRandomState env 0 in
  let params := {| client_id := "redirect_uri:" +:+ redirect_uri env;
                   response_type := "vp_token"; response_mode := "fragment";
                   params_state := st; nonce := generateRandomState env 16;
                   dcql_query := q |} in
  let before := [FxRandom 16; FxRandom 16; FxChannelOpen ("shl-" +:+ st);
                 FxSetTimeout (default 120000 (timeout opts)); FxCallback st] in
  ∃ fx res,
    request env q opts = (before ++ fx, res)
    ∧ (∀ st', FxCallback st' ∉ fx)
    ∧ (∀ e, callback params = Throws e → fx = [] ∧ res = Throws e)
    ∧ (callback params = Normal tt → ∃ url rest, fx = FxWindowOpen url :: rest).
Proof.
  intros Hbase Hq Hcb st params before. unfold request.
  rewrite Hbase. unfold query_accepted in Hq. apply andb_prop in Hq as [-> ->].
  cbn [negb orb]. rewrite Hcb. fold st. fold params.
  destruct (callback params) as [[]|e] eqn:Hcall.
  - destruct (popup_allowed env); cbn [negb];
      eexists _, _; (split; [rewrite <- !app_assoc; reflexivity|]);
      (split; [intros st' Hin; repeat (apply elem_of_cons in Hin as [Hin|Hin]; [done|]);
               by apply elem_of_nil in Hin|]);
      (split; [done|]); intros _; by eexists _, _.
  - exists [], (Throws e). split; [by rewrite app_nil_r|].
    split; [intros st' Hin; by apply elem_of_nil in Hin|].
    split; [by intros e' [= <-]|done].
Qed.

Lemma onRequestStart_before_popup_witness :
  let refuse : OID4VPRequestParams → completion unit :=
    λ params, Throws (Error ("no request for " +:+ params_state params)) in
  let opts := {| checkinBase := "https://picker.example.org/";
                 onRequestStart := Some refuse; rehydrate := None; timeout := None |} in
  let st := generateRandomState (Demo.env true) 0 in
  request (Demo.env true) Demo.query opts
  = ([FxRandom 16; FxRandom 16; FxChannelOpen ("shl-" +:+ st); FxSetTimeout 120000;
      FxCallback st],
     Throws (Error ("no request for " +:+ st))).
Proof.
  intros refuse opts st.
  destruct (onRequestStart_before_popup (Demo.env true) Demo.query opts refuse)
    as (fx & res & Hreq & _ & Hthrow & _); [reflexivity..|].
  destruct (Hthrow (Error ("no request for " +:+ st)) eq_refl) as [-> ->].
  exact Hreq.
Defined.

(* --------------------------------------------------------------------- *)
(** ** The picker: parseRequest and the click on a card *)
(* --------------------------------------------------------------------- *)

Lemma or_else_truthy o d : str_truthy d = true → str_truthy (Picker.or_else o d) = true.
Proof. by destruct o as [[|c s]|]. Qed.

Lemma opt_truthy_some o : opt_truthy o = true → ∃ s, o = Some s ∧ s ≠ "".
Proof. destruct o as [[|c s]|]; try done. by exists (String c s). Qed.

(** X15.  What the picker accepts.  A request that [parseRequest] returns
    has the client id, the state and the nonce of the query string, none of
    them empty, a response type and a response mode that are not empty, and
    as its query the JSON value of the [dcql_query] parameter (of [{}] when
    there is none). *)
Theorem parseRequest_accepts (search : string) (req : Picker.Request) :
  Picker.parseRequest search = Picker.Parsed_request req →
  let get := URLSearchParams.get (URLSearchParams.parse search) in
  (get "client_id" = Some (Picker.client_id req) ∧ Picker.client_id req ≠ "")
  ∧ (get "state" = Some (Picker.state req) ∧ Picker.state req ≠ "")
  ∧ (get "nonce" = Some (Picker.nonce req) ∧ Picker.nonce req ≠ "")
  ∧ Picker.protocol req = "smart-health-checkin-v1"
  ∧ Picker.response_type req ≠ ""
  ∧ Picker.response_mode req ≠ ""
  ∧ JSON.parse (Picker.or_else (get "dcql_query") "{}") = Normal (Picker.dcql_query req).
Proof.
  intros Hparse get. unfold Picker.parseRequest in Hparse.
  fold get in Hparse.
  destruct (_ || _) in Hparse; [|discriminate Hparse].
  destruct (opt_truthy (get "client_id")) eqn:Hc; [|discriminate Hparse].
  destruct (opt_truthy (get "state")) eqn:Hs; [|discriminate Hparse].
  destruct (opt_truthy (get "nonce")) eqn:Hn; [|discriminate Hparse].
  cbn [negb orb] in Hparse.
  destruct (JSON.parse _) as [query|e] eqn:Hq; [|discriminate Hparse].
  injection Hparse as <-. cbn.
  apply opt_truthy_some in Hc as (c & -> & ?).
  apply opt_truthy_some in Hs as (s & -> & ?).
  apply opt_truthy_some in Hn as (n & -> & ?).
  repeat split; try done.
  - pose proof (or_else_truthy (get "response_type") "vp_token" eq_refl) as Ht.
    intros He. by rewrite He in Ht.
  - pose proof (or_else_truthy (get "response_mode") "fragment" eq_refl) as Ht.
    intros He. by rewrite He in Ht.
Qed.

Lemma parseRequest_accepts_witness :
  let search := "?client_id=redirect_uri%3Ahttps%3A%2F%2Fclinic.example.org%2F&state=abc&nonce=n-1" in
  let get := URLSearchParams.get (URLSearchParams.parse search) in
  let req := {| Picker.protocol := "smart-health-checkin-v1";
                Picker.client_id := "redirect_uri:https://clinic.example.org/";
                Picker.response_type := "vp_token"; Picker.response_mode := "fragment";
                Picker.nonce := "n-1"; Picker.state := "abc";
                Picker.dcql_query := JObj ∅ |} in
  (get "client_id" = Some (Picker.client_id req) ∧ Picker.client_id req ≠ "")
  ∧ (get "state" = Some (Picker.state req) ∧ Picker.state req ≠ "")
  ∧ (get "nonce" = Some (Picker.nonce req) ∧ Picker.nonce req ≠ "")
  ∧ Picker.protocol req = "smart-health-checkin-v1"
  ∧ Picker.response_type req ≠ ""
  ∧ Picker.response_mode req ≠ ""
  ∧ JSON.parse (Picker.or_else (get "dcql_query") "{}") = Normal (Picker.dcql_query req).
Proof.
  intros search get req.
  apply (parseRequest_accepts search req). vm_compute. reflexivity.
Defined.

(** X16.  The request passes through the picker.  [request] opens the
    picker at its base address with a query string; on a page with that
    query string (serialised and parsed back without loss, the query being
    JSON) [parseRequest] returns the client id, the nonce, the awaited
    state and the query of the caller, and a click on an enabled card hands
    them on to the app, with response type [vp_token] and mode [fragment]:
    in a new window, or in the picker's own when no window opens.  Only
    the card of the app [flexpa] is enabled; a click on another does
    nothing. *)
Theorem picker_forwards_request `{Platform}
    (env : Env) (q : jsval) (opts : RequestOptions) (fx : list Effect) (ex : Exchange)
    (app : Picker.AppConfig) (popup : bool) :
  request env q opts = (fx, Normal ex) →
  let search := "?" +:+ URLSearchParams_toString (sent_params env q) in
  URLSearchParams.parse search = sent_params env q →
  JSON.parse (JSON_stringify q) = Normal q →
  let req := {| Picker.protocol := "smart-health-checkin-v1";
                Picker.client_id := "redirect_uri:" +:+ redirect_uri env;
                Picker.response_type := "vp_token"; Picker.response_mode := "fragment";
                Picker.nonce := generateRandomState env 16;
                Picker.state := ex_state ex;
                Picker.dcql_query := q |} in
  let launchUrl :=
    Picker.launchBase app +:+ "?" +:+
    URLSearchParams_toString
      [("client_id", "redirect_uri:" +:+ redirect_uri env); ("response_type", "vp_token");
       ("response_mode", "fragment"); ("state", ex_state ex);
       ("nonce", generateRandomState env 16); ("dcql_query", JSON_stringify q)] in
  last fx = Some (FxWindowOpen (strip_trailing "/" (checkinBase opts) +:+ "/" +:+ search))
  ∧ Picker.parseRequest search = Picker.Parsed_request req
  ∧ Picker.handleClick popup app req (Picker.disabled app)
    = if String.eqb (Picker.id app) "flexpa"
      then Picker.WindowOpen launchUrl
             :: (if popup then [Picker.WindowClose] else [Picker.Navigate launchUrl])
      else [].
Proof.
  intros Hreq search Hround Hjson req launchUrl.
  assert (Hst : ex_state ex = generateRandomState env 0)
    by (by destruct (request_pending env q opts fx ex Hreq) as (_ & _ & ?)).
  split; [|split].
  - revert Hreq. unfold request.
    repeat match goal with
           | |- (if ?b then _ else _) = _ → _ => destruct b; [discriminate|]
           end.
    destruct (onRequestStart opts) as [callback|].
    + destruct (callback _) as [[]|e]; [|discriminate].
      destruct (popup_allowed env); [|discriminate]. cbn [negb]. by intros [= <- _].
    + destruct (popup_allowed env); [|discriminate]. cbn [negb]. by intros [= <- _].
  - unfold Picker.parseRequest. rewrite Hround.
    set (get := URLSearchParams.get (sent_params env q)).
    assert (Hp : get "protocol" = None) by done.
    assert (Hrt : get "response_type" = Some "vp_token") by done.
    assert (Hrm : get "response_mode" = Some "fragment") by done.
    assert (Hc : get "client_id" = Some ("redirect_uri:" +:+ redirect_uri env)) by done.
    assert (Hs : get "state" = Some (generateRandomState env 0)) by done.
    assert (Hn : get "nonce" = Some (generateRandomState env 16)) by done.
    assert (Hd : get "dcql_query" = Some (JSON_stringify q)) by done.
    rewrite Hp, Hrt, Hrm, Hc, Hs, Hn, Hd.
    unfold opt_truthy. rewrite !generateRandomState_truthy.
    assert (Hq : Picker.or_else (Some (JSON_stringify q)) "{}" = JSON_stringify q).
    { destruct (JSON_stringify q); [|done]. vm_compute in Hjson. discriminate Hjson. }
    rewrite Hq, Hjson. unfold req. by rewrite Hst.
  - unfold Picker.handleClick, Picker.disabled.
    by destruct (String.eqb (Picker.id app) "flexpa").
Qed.

Lemma picker_forwards_request_witness :
  let env := Demo.env true in
  let search := "?" +:+ URLSearchParams_toString (sent_params env Demo.query) in
  let req := {| Picker.protocol := "smart-health-checkin-v1";
                Picker.client_id := "redirect_uri:https://clinic.example.org/portal/";
                Picker.response_type := "vp_token"; Picker.response_mode := "fragment";
                Picker.nonce := generateRandomState env 16;
                Picker.state := Samples.state;
                Picker.dcql_query := Demo.query |} in
  Picker.parseRequest search = Picker.Parsed_request req
  ∧ ∃ launchUrl,
      Picker.handleClick false Samples.app req (Picker.disabled Samples.app)
      = [Picker.WindowOpen launchUrl; Picker.Navigate launchUrl].
Proof.
  intros env search req.
  destruct (picker_forwards_request env Demo.query Demo.opts
              (fst (request env Demo.query Demo.opts)) Demo.pending Samples.app false)
    as (_ & Hparse & Hclick); [vm_compute; reflexivity..|].
  split; [exact Hparse|]. eexists. exact Hclick.
Defined.

(* --------------------------------------------------------------------- *)
(** ** shl.js: request and the return context *)
(* --------------------------------------------------------------------- *)



(** X18.  What shl.js sends.  [request] fails before any effect when the
    credential request has no first request or the gateway address is
    empty.  Otherwise it draws the state, opens the channel named after it
    and arms the timer, and then encodes the envelope of version 1, that
    state, the return address and the [digital] member of the request.
    When the envelope is not too large for [encJ], it opens the gateway, at
    the address without trailing slashes, with the fragment [#req=] and the
    text of the envelope, which decodes to the envelope when JSON represents
    it.  When the envelope is too large, [request] throws the [RangeError]
    there: no window is opened, and the channel is not closed. *)
Theorem ZTWR_request_envelope `{Platform}
    (env : Env) (credentialRequest : jsval) (opts : option ZTWR.RequestOptions)
    (fx : list Effect) (res : completion ZTWR.Exchange) :
  ZTWR.request env credentialRequest opts = (fx, res) →
  let st := generateRandomState env 0 in
  let envelope := request_envelope env credentialRequest in
  (truthy (first_request credentialRequest) = false ∨ str_truthy (gateway opts) = false →
     fx = [] ∧ ∃ message, res = Throws (Error message))
  ∧ (truthy (first_request credentialRequest) = true → str_truthy (gateway opts) = true →
     get_prop envelope "v" = JNum 1 0
     ∧ get_prop envelope "state" = JStr st
     ∧ get_prop envelope "returnUrl" = JStr (location_origin env +:+ location_pathname env)
     ∧ get_prop envelope "digital" = get_prop credentialRequest "digital"
     ∧ (¬ too_large (te_encode (JSON_stringify envelope)) →
        fx = [FxRandom 16; FxChannelOpen ("shl-" +:+ st); FxSetTimeout 300000;
              FxWindowOpen (gateway opts +:+ "/#req=" +:+
                            encodeURIComponent (encoded envelope))]
             ++ (if popup_allowed env then [] else [FxChannelClose ("shl-" +:+ st)]))
     ∧ (too_large (te_encode (JSON_stringify envelope)) →
        fx = [FxRandom 16; FxChannelOpen ("shl-" +:+ st); FxSetTimeout 300000]
        ∧ res = Throws RangeError)
     ∧ (td_decode (te_encode (JSON_stringify envelope)) = JSON_stringify envelope →
        JSON.parse (JSON_stringify envelope) = Normal envelope →
        ZTWR.decJ (encoded envelope) = Normal envelope)).
Proof.
  intros Hreq st envelope. unfold ZTWR.request in Hreq.
  fold (first_request credentialRequest) in Hreq. fold (gateway opts) in Hreq.
  fold (request_envelope env credentialRequest) in Hreq. fold envelope in Hreq.
  destruct (truthy (first_request credentialRequest)) eqn:Hfirst; cbn [negb] in Hreq.
  2: { injection Hreq as <- <-. split; [by eauto|done]. }
  destruct (str_truthy (gateway opts)) eqn:Hbase; cbn [negb] in Hreq.
  2: { injection Hreq as <- <-. split; [by eauto|done]. }
  split; [by intros [?|?]|]. intros _ _.
  destruct (encJ_cases envelope) as [[Hfit He]|[Hbig He]];
    rewrite He in Hreq; (do 4 (split; [done|])); (split; [|split]).
  - intros _. destruct (popup_allowed env); cbn [negb] in Hreq; by injection Hreq as <- _.
  - done.
  - apply decJ_encoded.
  - done.
  - intros _. by injection Hreq as <- <-.
  - apply decJ_encoded.
Qed.

Lemma ZTWR_request_envelope_witness :
  let env := Demo.env true in
  let st := generateRandomState env 0 in
  let envelope := request_envelope env Demo.credentialRequest in
  fst (ZTWR.request env Demo.credentialRequest Demo.gateway_opts)
  = [FxRandom 16; FxChannelOpen ("shl-" +:+ st); FxSetTimeout 300000;
     FxWindowOpen (gateway Demo.gateway_opts +:+ "/#req=" +:+
                   encodeURIComponent (encoded envelope))]
  ∧ ZTWR.decJ (encoded envelope) = Normal envelope.
Proof.
  intros env st envelope.
  destruct (ZTWR_request_envelope env Demo.credentialRequest Demo.gateway_opts _ _
              (surjective_pairing _)) as [_ Hsent].
  destruct Hsent as (_ & _ & _ & _ & Hfx & _ & Hdec); [reflexivity|reflexivity|].
  split.
  - rewrite Hfx; [reflexivity|]. vm_compute. discriminate.
  - apply Hdec; vm_compute; reflexivity.
Defined.

(* --------------------------------------------------------------------- *)
(** ** The picker: the cards of the page *)
(* --------------------------------------------------------------------- *)

(** [place] throws on an inherited name, and otherwise appends the app to
    the list of its section. *)
Lemma place_cases categories app :
  (∃ e, Picker.place categories app = Throws e
        ∧ Picker.Object_prototype_has (Picker.or_else (Picker.category app) "phr") = true)
  ∨ (Picker.place categories app
     = Normal {| Picker.ehr := Picker.ehr categories
                               ++ filter (λ a, section_of a = "ehr") [app];
                 Picker.phr := Picker.phr categories
                               ++ filter (λ a, section_of a = "phr") [app];
                 Picker.healthplan := Picker.healthplan categories
                               ++ filter (λ a, section_of a = "healthplan") [app] |}).
Proof.
  unfold Picker.place.
  assert (Hsec : ∀ k, filter (λ a, section_of a = k) [app]
                      = if decide (section_of app = k) then [app] else []).
  { intros k. rewrite filter_cons, filter_nil. done. }
  rewrite !Hsec. unfold section_of.
  destruct (String.eqb_spec (Picker.or_else (Picker.category app) "phr") "ehr") as [->|He].
  { right. by rewrite !app_nil_r. }
  destruct (String.eqb_spec (Picker.or_else (Picker.category app) "phr") "phr") as [->|Hp].
  { right. by rewrite !app_nil_r. }
  destruct (String.eqb_spec (Picker.or_else (Picker.category app) "phr") "healthplan")
    as [->|Hh].
  { right. by rewrite !app_nil_r. }
  destruct (Picker.Object_prototype_has _) eqn:Hproto; [left; by eexists|].
  right. rewrite bool_decide_eq_false_2.
  - by rewrite !app_nil_r.
  - intros Hin. repeat (apply elem_of_cons in Hin as [?|Hin]; [done|]).
    by apply elem_of_nil in Hin.
Qed.

Lemma forEach_sections apps : ∀ categories categories',
  Picker.forEach categories apps = Normal categories' →
  Picker.ehr categories'
  = Picker.ehr categories ++ filter (λ a, section_of a = "ehr") apps
  ∧ Picker.phr categories'
    = Picker.phr categories ++ filter (λ a, section_of a = "phr") apps
  ∧ Picker.healthplan categories'
    = Picker.healthplan categories ++ filter (λ a, section_of a = "healthplan") apps.
Proof.
  induction apps as [|app apps IH]; intros categories categories' Hrun.
  { injection Hrun as <-. by rewrite !filter_nil, !app_nil_r. }
  simpl in Hrun.
  destruct (place_cases categories app) as [(e & Hp & _)|Hp]; rewrite Hp in Hrun; [done|].
  destruct (IH _ _ Hrun) as (-> & -> & ->). cbn [Picker.ehr Picker.phr Picker.healthplan].
  rewrite <- !app_assoc, <- !filter_app. done.
Qed.

Lemma forEach_throws apps : ∀ categories e,
  Picker.forEach categories apps = Throws e →
  Exists (λ app, Picker.Object_prototype_has
                   (Picker.or_else (Picker.category app) "phr") = true) apps.
Proof.
  induction apps as [|app apps IH]; intros categories e Hrun; [done|].
  simpl in Hrun.
  destruct (place_cases categories app) as [(e' & Hp & Hin)|Hp]; rewrite Hp in Hrun.
  - by apply Exists_cons_hd.
  - apply Exists_cons_tl. by eapply IH.
Qed.

Lemma section_of_cases app :
  section_of app = "ehr" ∨ section_of app = "phr" ∨ section_of app = "healthplan".
Proof.
  unfold section_of. case_bool_decide as Hin; [|by right; left].
  repeat (apply elem_of_cons in Hin as [->|Hin]; [tauto|]).
  by apply elem_of_nil in Hin.
Qed.

(** Three sections make up the list. *)
Lemma sections_permutation (apps : list Picker.AppConfig) :
  filter (λ a, section_of a = "ehr") apps
  ++ filter (λ a, section_of a = "phr") apps
  ++ filter (λ a, section_of a = "healthplan") apps ≡ₚ apps.
Proof.
  induction apps as [|app apps IH]; [done|].
  rewrite !filter_cons.
  destruct (section_of_cases app) as [Hs|[Hs|Hs]]; rewrite Hs;
    repeat case_decide; try done.
  - simpl. by rewrite IH.
  - simpl. rewrite <- Permutation_middle. by rewrite IH.
  - rewrite app_assoc, <- Permutation_middle, <- app_assoc. by rewrite IH.
Qed.

(** The sections made of three lists of apps. *)
Lemma sections_of_lists (l1 l2 l3 : list Picker.AppConfig) :
  let sections :=
    omap (λ '(key, title, apps),
            match apps with
            | [] => None
            | _ => Some {| Picker.key := key; Picker.title := title;
                           Picker.cards := map (λ app, (app, Picker.disabled app)) apps |}
            end)
         [("ehr", "Health Systems", l1); ("phr", "Connected Apps", l2);
          ("healthplan", "Health Plans", l3)] in
  Forall (λ s, Picker.cards s ≠ []
               ∧ Forall (λ '(app, off), off = Picker.disabled app) (Picker.cards s)
               ∧ ((Picker.key s = "ehr" ∧ map fst (Picker.cards s) = l1)
                  ∨ (Picker.key s = "phr" ∧ map fst (Picker.cards s) = l2)
                  ∨ (Picker.key s = "healthplan" ∧ map fst (Picker.cards s) = l3)))
         sections
  ∧ sublist (map Picker.key sections) ["ehr"; "phr"; "healthplan"]
  ∧ shown sections = l1 ++ l2 ++ l3.
Proof.
  assert (Hfst : ∀ l : list Picker.AppConfig,
             map fst (map (λ app, (app, Picker.disabled app)) l) = l).
  { intros l. rewrite map_map. apply map_id. }
  assert (Hcards : ∀ l : list Picker.AppConfig,
             Forall (λ '(app0, off), off = Picker.disabled app0)
                    (map (λ app0, (app0, Picker.disabled app0)) l)).
  { intros l. apply Forall_map, Forall_forall. done. }
  intros sections. unfold sections, shown.
  destruct l1 as [|a1 l1], l2 as [|a2 l2], l3 as [|a3 l3];
    cbn [omap list_omap option_bind mbind]; cbn [map Picker.key concat Picker.cards fst];
    rewrite ?Hfst, ?app_nil_r.
  all: split;
    [repeat (apply Forall_cons; split;
             [split; [done|]; split;
              [apply Forall_cons; split; [done|apply Hcards]
              |cbn [Picker.key Picker.cards map fst]; rewrite Hfst;
               first [left; by split | right; left; by split | right; right; by split]]|]);
     apply Forall_nil
    |split; [|done]].
  all: repeat first [apply sublist_nil | apply sublist_skip | apply sublist_cons].
  all: done.
Qed.

(** X19.  Every app gets one card, in its section.  When the page shows
    cards: each section holds, in the order of the configuration, the apps
    that belong to it (those of its category; under connected apps also
    those without category or with an unknown one) and is not empty; the
    sections come in the order health systems, connected apps, health
    plans; the apps on the cards are the configured apps, each once; a card
    is disabled unless its app is [flexpa].  The page throws only when the
    category of some app names a property of [Object.prototype]. *)
Theorem App_shows_every_app
    (search : string) (apps : list Picker.AppConfig) (page : completion Picker.Page) :
  Picker.App search (Some apps) = page →
  match page with
  | Normal (Picker.Sections sections) =>
      Forall (λ s, Picker.cards s ≠ []
                   ∧ map fst (Picker.cards s)
                     = filter (λ app, section_of app = Picker.key s) apps
                   ∧ Forall (λ '(app, off), off = Picker.disabled app) (Picker.cards s))
             sections
      ∧ sublist (map Picker.key sections) ["ehr"; "phr"; "healthplan"]
      ∧ shown sections ≡ₚ apps
  | Normal (Picker.ErrorPage message) =>
      apps = [] ∨ Picker.parseRequest search = Picker.Parsed_error message
  | Throws e =>
      Exists (λ app, Picker.Object_prototype_has
                       (Picker.or_else (Picker.category app) "phr") = true) apps
  end.
Proof.
  intros <-. unfold Picker.App.
  destruct (Picker.parseRequest search) as [req|error]; [|by right].
  destruct apps as [|app apps]; [by left|].
  destruct (Picker.forEach _ (app :: apps)) as [categories|e] eqn:Hrun.
  2: by apply forEach_throws in Hrun.
  apply forEach_sections in Hrun as (He & Hp & Hh).
  cbn [Picker.ehr Picker.phr Picker.healthplan List.app] in He, Hp, Hh.
  destruct (sections_of_lists (Picker.ehr categories) (Picker.phr categories)
              (Picker.healthplan categories)) as (Hall & Hsub & Hshown).
  split; [|split; [exact Hsub|]].
  - eapply Forall_impl; [exact Hall|]. intros s (Hne & Hflags & Hkey).
    split; [done|]. split; [|done].
    destruct Hkey as [[-> ->]|[[-> ->]|[-> ->]]]; done.
  - rewrite Hshown, He, Hp, Hh. apply sections_permutation.
Qed.

Lemma App_shows_every_app_witness :
  ∃ sections,
    Picker.App Samples.search (Some Samples.apps) = Normal (Picker.Sections sections)
    ∧ map Picker.key sections = ["phr"; "healthplan"]
    ∧ Forall (λ s, Picker.cards s ≠ []
                   ∧ map fst (Picker.cards s)
                     = filter (λ app, section_of app = Picker.key s) Samples.apps
                   ∧ Forall (λ '(app, off), off = Picker.disabled app) (Picker.cards s))
             sections
    ∧ sublist (map Picker.key sections) ["ehr"; "phr"; "healthplan"]
    ∧ shown sections ≡ₚ Samples.apps.
Proof.
  pose proof (App_shows_every_app Samples.search Samples.apps _ eq_refl) as Hpage.
  destruct (Picker.App Samples.search (Some Samples.apps)) as [[message|sections]|e] eqn:Hrun;
    try (vm_compute in Hrun; discriminate Hrun).
  exists sections. split; [done|]. split; [|exact Hpage].
  vm_compute in Hrun. injection Hrun as <-. reflexivity.
Defined.

(* --------------------------------------------------------------------- *)
(** ** smart-health-checkin.ts: the handler on any message *)
(* --------------------------------------------------------------------- *)

(** *** Messages of the declared types *)

Lemma resolve_presentation_typed sa v p :
  as_presentation v = Some p →
  Untyped.resolve_presentation (JArr sa) v
  = Untyped.Known (resolve_presentation {| state := ""; vp_token := ∅; smart_artifacts := sa |} p).
Proof.
  destruct v as [| | | | | |props]; try done.
  unfold as_presentation, Untyped.resolve_presentation, get_prop.
  destruct (props !! "artifact") as [[| | |m e| | |]|] eqn:Hart; try done.
  destruct (0 <=? e) eqn:He; [|done]. intros [= <-].
  cbn [default from_option id]. unfold Untyped.index, Untyped.integer. by rewrite He.
Qed.

Lemma resolve_presentation_state st vp sa p :
  resolve_presentation {| state := st; vp_token := vp; smart_artifacts := sa |} p
  = resolve_presentation {| state := ""; vp_token := ∅; smart_artifacts := sa |} p.
Proof. done. Qed.

Lemma map_presentations_typed sa l ps :
  mapM as_presentation l = Some ps →
  Untyped.map_presentations (JArr sa) (JArr l)
  = Untyped.Known
      (map (resolve_presentation {| state := ""; vp_token := ∅; smart_artifacts := sa |}) ps).
Proof.
  intros Hl. apply mapM_Some_1 in Hl. unfold Untyped.map_presentations.
  induction Hl as [|v p l ps Hv _ IH]; [done|].
  cbn [foldr map]. by rewrite IH, (resolve_presentation_typed sa v p Hv).
Qed.

(** The entries of a token of the declared type. *)
Lemma as_vp_token_entries props VP :
  as_vp_token (JObj props) = Some VP →
  ∃ L : list (string * list Presentation),
    Forall2 (λ '(id, v) '(id', ps),
               id = id' ∧ ∃ l, v = JArr l ∧ mapM as_presentation l = Some ps)
            (map_to_list props) L
    ∧ VP = list_to_map L.
Proof.
  unfold as_vp_token. destruct (mapM _ (map_to_list props)) as [L|] eqn:HL; [|done].
  intros [= <-]. exists L. split; [|done].
  apply mapM_Some_1 in HL. eapply Forall2_impl; [exact HL|].
  intros [id v] [id' ps] Hg. destruct v as [| | | | |l|]; try done.
  destruct (mapM as_presentation l) as [ps'|] eqn:Hl; [|done].
  injection Hg as <- <-. eauto.
Qed.

Lemma rehydrate_entries sa (entries : list (string * jsval)) :
  ∀ (L : list (string * list Presentation)) acc,
  Forall2 (λ '(id, v) '(id', ps),
             id = id' ∧ ∃ l, v = JArr l ∧ mapM as_presentation l = Some ps) entries L →
  foldl (λ credentials '(id, presentations),
           Untyped.both (λ credentials l, js_set credentials id l)
             credentials (Untyped.map_presentations (JArr sa) presentations))
        (Untyped.Known acc) entries
  = Untyped.Known
      (foldl (λ c '(id, ps),
                js_set c id
                  (map (resolve_presentation
                          {| state := ""; vp_token := ∅; smart_artifacts := sa |}) ps))
             acc L).
Proof.
  induction entries as [|[id v] entries IH]; intros L acc HL.
  { apply Forall2_nil_inv_l in HL as ->. done. }
  apply Forall2_cons_inv_l in HL as ([id' ps] & L' & (<- & l & -> & Hl) & HL & ->).
  cbn [foldl]. rewrite (map_presentations_typed sa l ps Hl). cbn [Untyped.both].
  by apply IH.
Qed.

Lemma entries_keys (entries : list (string * jsval)) (L : list (string * list Presentation)) :
  Forall2 (λ '(id, v) '(id', ps),
             id = id' ∧ ∃ l, v = JArr l ∧ mapM as_presentation l = Some ps) entries L →
  L.*1 = entries.*1.
Proof.
  induction 1 as [|[id v] [id' ps] entries L (<- & _) _ IH]; [done|].
  cbn. by rewrite IH.
Qed.

Lemma rehydrate_typed props sa VP st :
  as_vp_token (JObj props) = Some VP →
  Untyped.rehydrate props (JArr sa)
  = Untyped.Known
      (credentials (rehydrateResponse {| state := st; vp_token := VP; smart_artifacts := sa |})).
Proof.
  intros HVP. apply as_vp_token_entries in HVP as (L & HL & ->).
  unfold Untyped.rehydrate, Object_entries. rewrite (rehydrate_entries sa _ L ∅ HL).
  f_equal. apply map_eq. intros k.
  assert (Hnodup : NoDup L.*1).
  { rewrite (entries_keys _ _ HL). apply NoDup_fst_map_to_list. }
  rewrite (foldl_js_set
             (map (resolve_presentation
                     {| state := ""; vp_token := ∅; smart_artifacts := sa |})) L ∅ k Hnodup).
  rewrite credentials_lookup. cbn [vp_token].
  case_decide; [done|].
  destruct ((list_to_map L : gmap string (list Presentation)) !! k) as [ps|]; [|done].
  cbn. f_equal. apply map_ext. intros p. by rewrite <- resolve_presentation_entry.
Qed.

Lemma as_optional_inv {A} (read : jsval → option A) (o : option jsval) (x : option A) :
  as_optional read o = Some x →
  match x with
  | Some a => ∃ v, o = Some v ∧ v ≠ JUndef ∧ read v = Some a
  | None => o = None ∨ o = Some JUndef
  end.
Proof.
  destruct o as [v|]; [|intros [= <-]; by left].
  destruct v; simpl;
    try (destruct (read _) as [a|] eqn:Hr; [|done]; intros [= <-]; by eauto).
  intros [= <-]. by right.
Qed.

(** X20.  The declared types lose nothing.  On a message whose fields
    have the declared types, the handler as it runs on the data of the
    message does what the handler on typed messages does. *)
Theorem onmessage_typed (ex : Exchange) (m : gmap string jsval) (msg : RelayMessage) :
  typed_message m = Some msg →
  Untyped.onmessage ex (JObj m) = Some (onmessage ex (Some msg)).
Proof.
  unfold typed_message. intros Hm.
  destruct (as_optional as_string (m !! "state")) as [st|] eqn:Hst; [|done].
  destruct (as_optional as_string (m !! "error")) as [err|] eqn:Herr; [|done].
  destruct (as_optional as_string (m !! "error_description")) as [desc|] eqn:Hdesc; [|done].
  destruct (as_optional as_vp_token (m !! "vp_token")) as [vp|] eqn:Hvp; [|done].
  destruct (as_optional as_array (m !! "smart_artifacts")) as [sa|] eqn:Hsa; [|done].
  injection Hm as <-.
  apply as_optional_inv in Hst, Herr, Hdesc, Hvp, Hsa.
  unfold Untyped.onmessage, onmessage, get_prop.
  cbn [truthy negb orb msg_state msg_error msg_error_description msg_vp_token
       msg_smart_artifacts].
  (* the state *)
  destruct st as [st|].
  2: { by destruct Hst as [->| ->]. }
  destruct Hst as (v & -> & _ & Hv). destruct v; try done. injection Hv as ->.
  cbn [default from_option id ZTWRFlow.is_string].
  destruct (String.eqb_spec st (ex_state ex)) as [->|Hne]; [|done]. cbn [negb].
  (* the error *)
  destruct err as [[|c e]|].
  - destruct Herr as (v & -> & _ & Hv). destruct v; try done. injection Hv as ->.
    cbn [default from_option id truthy str_truthy].
    destruct vp as [VP|], sa as [l|].
    + destruct Hvp as (v & -> & _ & Hv). destruct Hsa as (w & -> & _ & Hw).
      destruct v as [| | | | | |props]; try done. destruct w as [| | | | |l'|]; try done.
      injection Hw as ->. cbn [default from_option id truthy andb].
      rewrite Hv. destruct (ex_rehydrate ex); [|done].
      by rewrite (rehydrate_typed props l VP (ex_state ex) Hv).
    + destruct Hvp as (v & -> & _ & Hv). destruct v as [| | | | | |props]; try done.
      by destruct Hsa as [->| ->].
    + by destruct Hvp as [->| ->].
    + by destruct Hvp as [->| ->].
  - destruct Herr as (v & -> & _ & Hv). destruct v; try done. injection Hv as ->.
    cbn [default from_option id truthy str_truthy].
    destruct desc as [d|].
    + destruct Hdesc as (v & -> & _ & Hv). destruct v; try done. by injection Hv as ->.
    + by destruct Hdesc as [->| ->].
  - assert (Hfalsy : truthy (default JUndef (m !! "error")) = false)
      by (by destruct Herr as [->| ->]).
    rewrite Hfalsy.
    destruct vp as [VP|], sa as [l|].
    + destruct Hvp as (v & -> & _ & Hv). destruct Hsa as (w & -> & _ & Hw).
      destruct v as [| | | | | |props]; try done. destruct w as [| | | | |l'|]; try done.
      injection Hw as ->. cbn [default from_option id truthy andb].
      rewrite Hv. destruct (ex_rehydrate ex); [|done].
      by rewrite (rehydrate_typed props l VP (ex_state ex) Hv).
    + destruct Hvp as (v & -> & _ & Hv). destruct v as [| | | | | |props]; try done.
      by destruct Hsa as [->| ->].
    + by destruct Hvp as [->| ->].
    + by destruct Hvp as [->| ->].
Qed.

Lemma onmessage_typed_witness :
  Untyped.onmessage Demo.pending
    (Demo.obj [("state", JStr Samples.state);
               ("vp_token", Demo.obj [("coverage-1", JArr [Demo.obj [("artifact", JNum 0 0)]])]);
               ("smart_artifacts", JArr [Artifact fhir_resource Samples.coverage])])
  = Some (onmessage Demo.pending (Some (Demo.success Samples.coverage))).
Proof.
  apply (onmessage_typed Demo.pending). vm_compute. reflexivity.
Defined.

(** *** A result that is not of the declared type *)









(* --------------------------------------------------------------------- *)
(** ** The requester page: handleCheckin *)
(* --------------------------------------------------------------------- *)

Section HandleCheckin.
Import RequesterApp.








End HandleCheckin.

